(** * Visual regression comparison engine (tests/visual-compare)

    A shallow embedding of the screenshot comparison scripts
    [compare_optimized.ts] (the two variants in that file that run a pool
    of browser tabs), [compare.ts] and [compare-screenshots.ts]: image
    padding, the comparison step, the per-target retry loop, the promise
    pool [runWithConcurrencyLimit] and the summary computed by [main].

    Conventions.
    - A JavaScript number is a [number]: a rational, an infinity or NaN.
      Rounding of doubles is not modelled; the distinction between +0 and
      -0 is not modelled either.
    - A [Buffer] / [Uint8Array] is a [list Z] of bytes; an index is a [Z].
      Reading outside the buffer gives [None] (undefined), writing outside
      it is ignored, and a stored value is reduced to a byte.
    - Code that can throw returns a [result].
    - What the browser, the file system and the clock answer is an input of
      the model (an "outcome" record or an oracle), never a fixed value. *)

From Stdlib Require Import ZArith QArith Lia List Bool String Ascii.
From stdpp Require Import base list.
Import ListNotations.

Open Scope Z_scope.

(** ** JavaScript values *)

Module JS.

(** Thrown values, by the place that throws. *)
Inductive error : Type :=
| DimensionMismatch        (* the pixel differ, sizes do not match *)
| RangeError               (* Buffer.alloc with a negative size *)
| NoPngBuffer              (* 'Failed to create PNG buffer' / null data *)
| UnreadableImage          (* fs / decoder / unsupported format *)
| WriteFailed              (* writing the diff image *)
| CaptureFailed.           (* navigation or screenshot *)

Inductive result (A : Type) : Type :=
| Ok (a : A)
| Err (e : error).
Arguments Ok {A} a.
Arguments Err {A} e.

Definition bind {A B} (r : result A) (k : A -> result B) : result B :=
  match r with
  | Ok a => k a
  | Err e => Err e
  end.

Notation "'let?' x ':=' c1 'in' c2" := (bind c1 (fun x => c2))
  (at level 10, x name, c1 at level 100, c2 at level 200).

Definition is_ok {A} (r : result A) : bool :=
  match r with Ok _ => true | Err _ => false end.

(** Numbers. *)
Inductive number : Type :=
| Fin (q : Q)
| PosInfinity
| NegInfinity
| NaN.

Definition of_Z (z : Z) : number := Fin (inject_Z z).
Definition of_nat (n : nat) : number := of_Z (Z.of_nat n).

Definition Qsign_pos (q : Q) : bool := (0 <? Qnum q)%Z.
Definition Qis_zero (q : Q) : bool := (Qnum q =? 0)%Z.

(** [a + b] *)
Definition add (a b : number) : number :=
  match a, b with
  | NaN, _ | _, NaN => NaN
  | PosInfinity, NegInfinity | NegInfinity, PosInfinity => NaN
  | PosInfinity, _ | _, PosInfinity => PosInfinity
  | NegInfinity, _ | _, NegInfinity => NegInfinity
  | Fin x, Fin y => Fin (x + y)
  end.

(** [a / b]: a zero divisor gives NaN or an infinity, never an exception. *)
Definition div (a b : number) : number :=
  match a, b with
  | NaN, _ | _, NaN => NaN
  | Fin x, Fin y =>
      if Qis_zero y then
        if Qis_zero x then NaN
        else if Qsign_pos x then PosInfinity else NegInfinity
      else Fin (x / y)
  | Fin _, _ => Fin 0
  | PosInfinity, Fin y => if Qsign_pos y || Qis_zero y then PosInfinity else NegInfinity
  | NegInfinity, Fin y => if Qsign_pos y || Qis_zero y then NegInfinity else PosInfinity
  | _, _ => NaN
  end.

(** [a === b] on numbers *)
Definition strict_eq (a b : number) : bool :=
  match a, b with
  | Fin x, Fin y => Qeq_bool x y
  | PosInfinity, PosInfinity | NegInfinity, NegInfinity => true
  | _, _ => false
  end.

(** [a > b] *)
Definition gt (a b : number) : bool :=
  match a, b with
  | NaN, _ | _, NaN => false
  | Fin x, Fin y => negb (Qle_bool x y)
  | PosInfinity, PosInfinity => false
  | PosInfinity, _ => true
  | _, NegInfinity => match a with NegInfinity => false | _ => true end
  | _, _ => false
  end.

(** A non-negative integer: what a pixel count is meant to be. *)
Definition is_count (a : number) : Prop :=
  exists n : nat, a = of_nat n.

(** [ToInt32] and the shift [n << k] of 32-bit integers. *)
Definition wrap32 (n : Z) : Z := (n + 2 ^ 31) mod 2 ^ 32 - 2 ^ 31.
Definition shl (n k : Z) : Z := wrap32 (Z.shiftl (wrap32 n) k).

(** [w || 0]: a zero on the left gives the right operand. [Math.max] is
    [Z.max] and [Math.floor(a / 2)] is [a / 2], which rounds down. *)
Definition or0 (w : Z) : Z := if w =? 0 then 0 else w.

(** Buffers. *)
Abbreviation buffer := (list Z).

Definition to_uint8 (v : option Z) : Z :=
  match v with
  | Some z => z mod 256
  | None => 0
  end.

Definition buf_read (b : buffer) (i : Z) : option Z :=
  if i <? 0 then None else b !! Z.to_nat i.

Definition buf_write (b : buffer) (i : Z) (v : option Z) : buffer :=
  if i <? 0 then b else <[Z.to_nat i := to_uint8 v]> b.

(** [Buffer.alloc(n, fill)] *)
Definition alloc (n : Z) (fill : Z) : buffer := replicate (Z.to_nat n) (fill mod 256).

(** [for (let i = 0; i < n; i++) body] threading the state [s]. *)
Definition range (n : Z) : list Z := map Z.of_nat (seq 0 (Z.to_nat n)).

Definition for_range {S : Type} (n : Z) (body : Z -> S -> S) (s : S) : S :=
  fold_left (fun s i => body i s) (range n) s.

(** An update of a buffer that keeps its length, stores only at the
    indices in [P], and stores [val j] at [j]. *)
Definition stores (u : buffer -> buffer) (P : Z -> Prop) (val : Z -> Z) : Prop :=
  forall d j,
    length (u d) = length d
    /\ (buf_read (u d) j = buf_read d j
        \/ (P j /\ buf_read (u d) j = Some (val j)))
    /\ (P j -> 0 <= j < Z.of_nat (length d) -> buf_read (u d) j = Some (val j)).

End JS.

Import JS.

(** ** Images *)

(** [ImageData] / [RawImage] / a decoded [PNG]: [{ width, height, data }]. *)
Record RawImage : Type := mkImage {
  width : Z;
  height : Z;
  data : buffer
}.

Definition is_byte (z : Z) : Prop := 0 <= z < 256.

(** What a decoder returns: positive dimensions, four bytes per pixel. *)
Record wf_image (img : RawImage) : Prop := {
  wf_width : 0 < width img;
  wf_height : 0 < height img;
  wf_length : Z.of_nat (length (data img)) = 4 * (width img * height img);
  wf_bytes : Forall is_byte (data img)
}.

(** [new PNG({ width, height })] of the [pngjs] package: the constructor
    allocates [4 * width * height] bytes with [Buffer.alloc], which zeroes
    them, or leaves the data [null] when a dimension is not positive. With
    [fill: true] it zeroes the buffer once more. (The second variant of
    [compare_optimized.ts] passes [fill: true] and then fills the buffer
    with 255 itself.) *)
Definition new_PNG (w h : Z) : option buffer :=
  if (0 <? w) && (0 <? h) then Some (alloc (4 * w * h) 0) else None.

(** The four bytes of pixel [(x, y)] in a buffer of row width [w]. *)
Definition pixel_index (w x y : Z) : Z := 4 * (w * y + x).

Definition read_pixel (b : buffer) (w x y : Z) : list (option Z) :=
  map (fun c => buf_read b (pixel_index w x y + c)) [0; 1; 2; 3].

Definition opaque_white : list (option Z) := [Some 255; Some 255; Some 255; Some 255].

(** The indices of the four bytes that start at [idx]. *)
Definition at_pixel (idx j : Z) : Prop := idx <= j < idx + 4.

(** ** The pixel differ (the [pixelmatch] package) *)

Module Differ.

(** Modelled from the spec: the pixel differ of section 4.2. The scripts
    import it from the [pixelmatch] package, whose code is not part of
    the sources. A pixel counts as different when the distance of some
    channel, on the scale [0, 1], exceeds the threshold; the result is
    the exact count of such pixels. Two operands that are not both
    [width * height] RGBA images fail with [DimensionMismatch]. *)
Definition channel_differs (threshold : Q) (a b : Z) : bool :=
  negb (Qle_bool (inject_Z (Z.abs (a - b)) / 255) threshold).

(** Modelled from the spec: a pixel of section 4.2 counts as different
    when one of its four channels does ([pixelmatch] is not part of the
    sources). *)
Definition pixel_differs (threshold : Q) (p q : Z * Z * Z * Z) : bool :=
  let '(r1, g1, b1, a1) := p in
  let '(r2, g2, b2, a2) := q in
  channel_differs threshold r1 r2 || channel_differs threshold g1 g2
  || channel_differs threshold b1 b2 || channel_differs threshold a1 a2.

(** Modelled from the spec: [differingPixelCount] of section 4.2, the exact
    count of the pixels classified as different ([pixelmatch] is not part
    of the sources). *)
Fixpoint count_differing (threshold : Q) (img1 img2 : buffer) : nat :=
  match img1, img2 with
  | r1 :: g1 :: b1 :: a1 :: rest1, r2 :: g2 :: b2 :: a2 :: rest2 =>
      ((if pixel_differs threshold (r1, g1, b1, a1) (r2, g2, b2, a2) then 1 else 0)
       + count_differing threshold rest1 rest2)%nat
  | _, _ => O
  end.

(** Modelled from the spec: [diff(imageA, imageB, threshold)] of section
    4.2 in the shape of the call the scripts make, two RGBA buffers with
    their common width and height ([pixelmatch] is not part of the
    sources). The precondition is that both buffers are images of that
    size; otherwise the differ fails with [DimensionMismatch]. The diff
    image it draws is not modelled. *)
Definition pixelmatch (img1 img2 : buffer) (width height : Z) (threshold : Q)
  : result nat :=
  if (Z.of_nat (length img1) =? Z.of_nat (length img2))
     && (Z.of_nat (length img1) =? width * height * 4)
  then Ok (count_differing threshold img1 img2)
  else Err DimensionMismatch.



(** [{ threshold: 0.1 }], the option every script passes. *)
Definition threshold_default : Q := 1 # 10.

End Differ.

(** ** The promise pool: [runWithConcurrencyLimit]

    The function is asynchronous; its runs are the paths of a transition
    system. A task is a thunk whose promise settles at a time of the
    environment's choosing, so what a task is to the pool is how its
    promise settles. A promise is named by the index of its task, and the
    limit is an integer, as the 5 that [main] passes.

    The fulfilment of a task and the callback that [then] attaches to it
    are one event. The system lets a promise settle between any two
    events; the event loop lets none settle while the body of the loop
    runs, so every state of a real run is a state of the system. *)

Module Pool.

(** The two copies in [compare_optimized.ts]: the first splices at
    [indexOf(p)] as it is, the second only when the index is [>= 0]. *)
Inductive variant : Type := First | Second.

Inductive settlement (T : Type) : Type :=
| Fulfils (v : T)
| Rejects.
Arguments Fulfils {T} v.
Arguments Rejects {T}.

(** Where the body of the function stands. *)
Inductive phase (T : Type) : Type :=
| Ready                    (* in the [for] loop, not suspended *)
| Waiting                  (* suspended at [await Promise.race(executing)] *)
| Joining                  (* suspended at [Promise.all(results)] *)
| Returned (out : list T)  (* the returned promise is fulfilled with [out] *)
| Thrown.                  (* the returned promise is rejected *)
Arguments Ready {T}.
Arguments Waiting {T}.
Arguments Joining {T}.
Arguments Returned {T} out.
Arguments Thrown {T}.

Record state (T : Type) : Type := mkState {
  next : nat;               (* position of the [for ... of] iterator *)
  results : list nat;       (* const results: Promise<T>[] *)
  executing : list nat;     (* const executing: Promise<T>[] *)
  settled : list nat;       (* promises fulfilled or rejected so far *)
  at_ : phase T
}.
Arguments mkState {T}.
Arguments next {T}.
Arguments results {T}.
Arguments executing {T}.
Arguments settled {T}.
Arguments at_ {T}.

Definition init {T : Type} : state T :=
  mkState 0%nat [] [] [] Ready.

Definition mem (p : nat) (l : list nat) : bool := existsb (Nat.eqb p) l.

(** [l.indexOf(p)]: the first position of [p], or [-1]. *)
Fixpoint indexOf (l : list nat) (p : nat) : Z :=
  match l with
  | [] => -1
  | q :: l' =>
      if Nat.eqb q p then 0
      else let i := indexOf l' p in if i <? 0 then -1 else i + 1
  end.

(** [l.splice(start, 1)]: a negative [start] counts from the end. *)
Definition splice1 (l : list nat) (start : Z) : list nat :=
  let len := Z.of_nat (length l) in
  let from := if start <? 0 then Z.max (len + start) 0 else Z.min start len in
  firstn (Z.to_nat from) l ++ skipn (S (Z.to_nat from)) l.

(** The callback passed to [then], on the [executing] array. *)
Definition on_fulfilled (v : variant) (executing : list nat) (p : nat) : list nat :=
  match v with
  | First => splice1 executing (indexOf executing p)
  | Second =>
      let idx := indexOf executing p in
      if idx >=? 0 then splice1 executing idx else executing
  end.

Definition is_rejected {T} (tasks : list (settlement T)) (settled : list nat)
  (p : nat) : bool :=
  mem p settled &&
  match tasks !! p with
  | Some Rejects => true
  | _ => false
  end.

Definition value_of {T} (tasks : list (settlement T)) (p : nat) : option T :=
  match tasks !! p with
  | Some (Fulfils v) => Some v
  | _ => None
  end.

Inductive event : Type :=
| Dispatch          (* one turn of the loop: call the task, push its promise *)
| Settle (p : nat)  (* the promise of a started task settles *)
| Join              (* the loop is over: [Promise.all(results)] *)
| Return.           (* every promise is fulfilled: the function returns *)

Definition step {T} (v : variant) (tasks : list (settlement T)) (limit : Z)
  (s : state T) (e : event) : option (state T) :=
  match e with
  | Dispatch =>
      match at_ s, tasks !! next s with
      | Ready, Some _ =>
          let p := next s in
          let executing' := executing s ++ [p] in
          Some (mkState (S p) (results s ++ [p]) executing' (settled s)
                  (if Z.of_nat (length executing') >=? limit then
                     if existsb (is_rejected tasks (settled s)) executing'
                     then Thrown else Waiting
                   else Ready))
      | _, _ => None
      end
  | Settle p =>
      if mem p (results s) && negb (mem p (settled s)) then
        match tasks !! p with
        | Some (Fulfils _) =>
            Some (mkState (next s) (results s) (on_fulfilled v (executing s) p)
                    (p :: settled s)
                    (match at_ s with Waiting => Ready | ph => ph end))
        | Some Rejects =>
            Some (mkState (next s) (results s) (executing s) (p :: settled s)
                    (match at_ s with Waiting | Joining => Thrown | ph => ph end))
        | None => None
        end
      else None
  | Join =>
      match at_ s, tasks !! next s with
      | Ready, None =>
          Some (mkState (next s) (results s) (executing s) (settled s)
                  (if existsb (is_rejected tasks (settled s)) (results s)
                   then Thrown else Joining))
      | _, _ => None
      end
  | Return =>
      match at_ s with
      | Joining =>
          if forallb (fun p => mem p (settled s)) (results s) then
            Some (mkState (next s) (results s) (executing s) (settled s)
                    (Returned (omap (value_of tasks) (results s))))
          else None
      | _ => None
      end
  end.

(** A run: the events in the order they happen. *)
Fixpoint exec {T} (v : variant) (tasks : list (settlement T)) (limit : Z)
  (s : state T) (es : list event) : option (state T) :=
  match es with
  | [] => Some s
  | e :: es' =>
      match step v tasks limit s e with
      | Some s' => exec v tasks limit s' es'
      | None => None
      end
  end.

Definition reachable {T} (v : variant) (tasks : list (settlement T)) (limit : Z)
  (s : state T) : Prop :=
  exists es, exec v tasks limit init es = Some s.

(** [runWithConcurrencyLimit(tasks, limit)] along the run [es]: where the
    function stands at the end of [es] ([None]: [es] is not a run). *)
Definition runWithConcurrencyLimit {T} (v : variant) (tasks : list (settlement T))
  (limit : Z) (es : list event) : option (phase T) :=
  match exec v tasks limit init es with
  | Some s => Some (at_ s)
  | None => None
  end.

(** The tasks in flight: started, promise not settled yet. *)
Definition in_flight {T} (s : state T) : list nat :=
  List.filter (fun p => negb (mem p (settled s))) (results s).

(** The tasks not started yet. *)
Definition queued {T} (tasks : list (settlement T)) (s : state T) : nat :=
  (length tasks - next s)%nat.

(** A promise that was fulfilled: its callback has run. *)
Definition is_fulfilled {T} (tasks : list (settlement T)) (settled : list nat)
  (p : nat) : bool :=
  mem p settled &&
  match tasks !! p with
  | Some (Fulfils _) => true
  | _ => false
  end.

(** What holds in every state of every run. *)
Record invariant {T} (tasks : list (settlement T)) (limit : Z) (s : state T)
  : Prop := mkInvariant {
  inv_results : results s = seq 0 (next s);
  inv_next : (next s <= length tasks)%nat;
  inv_settled : forall p, mem p (settled s) = true -> (p < next s)%nat;
  inv_executing :
    executing s =
    List.filter (fun p => negb (is_fulfilled tasks (settled s) p)) (results s);
  inv_phase :
    match at_ s with
    | Ready => 1 <= limit -> Z.of_nat (length (executing s)) < limit
    | Waiting =>
        existsb (is_rejected tasks (settled s)) (executing s) = false
        /\ executing s <> []
        /\ (1 <= limit -> Z.of_nat (length (executing s)) = limit)
    | Joining =>
        next s = length tasks
        /\ existsb (is_rejected tasks (settled s)) (results s) = false
    | Returned out =>
        tasks = map Fulfils out
        /\ forallb (fun p => mem p (settled s)) (results s) = true
    | Thrown => exists p, tasks !! p = Some Rejects
    end;
  inv_bound : 1 <= limit -> Z.of_nat (length (executing s)) <= limit
}.

(** What decreases at every event. *)
Definition rank {T} (ph : phase T) : nat :=
  match ph with
  | Ready | Waiting => 2
  | Joining => 1
  | Returned _ | Thrown => 0
  end.

Definition measure {T} (tasks : list (settlement T)) (s : state T) : nat :=
  (2 * queued tasks s + length (in_flight s) + rank (at_ s))%nat.

End Pool.

(** ** [compare_optimized.ts] *)

Module Optimized.

Import Pool.

Record ComparisonResult : Type := mkResult {
  url : string;
  match_ : bool;            (* the field [match] *)
  diffPixels : number;
  devPath : string;         (* [stagePath] in the second variant *)
  prodPath : string;
  diffPath : string;
  duration : number
}.

Record Summary : Type := mkSummary {
  totalUrls : number;
  avgDuration : number;
  totalDuration : number
}.

Definition screenshotDir : string := "screenshots".

(** [padImage] of the first variant: white fill, then the source copied
    with its top-left corner at the origin. *)
Definition write_white (d : buffer) (idx : Z) : buffer :=
  let d := buf_write d idx (Some 255) in
  let d := buf_write d (idx + 1) (Some 255) in
  let d := buf_write d (idx + 2) (Some 255) in
  buf_write d (idx + 3) (Some 255).

Definition copy_pixel (src : buffer) (srcIdx : Z) (d : buffer) (dstIdx : Z) : buffer :=
  let d := buf_write d dstIdx (buf_read src srcIdx) in
  let d := buf_write d (dstIdx + 1) (buf_read src (srcIdx + 1)) in
  let d := buf_write d (dstIdx + 2) (buf_read src (srcIdx + 2)) in
  buf_write d (dstIdx + 3) (buf_read src (srcIdx + 3)).

Definition fill_white (targetWidth targetHeight : Z) (d : buffer) : buffer :=
  for_range targetHeight (fun y =>
    for_range targetWidth (fun x d =>
      let idx := shl (targetWidth * y + x) 2 in
      write_white d idx)) d.

Definition copy_source (img : RawImage) (targetWidth targetHeight : Z) (d : buffer) : buffer :=
  for_range (height img) (fun y =>
    for_range (width img) (fun x d =>
      let srcIdx := shl (width img * y + x) 2 in
      let dstIdx := shl (targetWidth * y + x) 2 in
      if (x <? targetWidth) && (y <? targetHeight)
      then copy_pixel (data img) srcIdx d dstIdx
      else d)) d.

(** The byte of the source that belongs at index [j] of a padded buffer
    of row width [targetWidth] (top-left placement). *)
Definition source_byte (img : RawImage) (targetWidth : Z) (j : Z) : Z :=
  let x := (j / 4) mod targetWidth in
  let y := (j / 4) / targetWidth in
  to_uint8 (buf_read (data img) (pixel_index (width img) x y + j mod 4)).

Definition padImage (img : RawImage) (targetWidth targetHeight : Z) : result RawImage :=
  if (width img =? targetWidth) && (height img =? targetHeight) then Ok img
  else
    match new_PNG targetWidth targetHeight with
    | None => Err NoPngBuffer
    | Some d =>
        Ok (mkImage targetWidth targetHeight
              (copy_source img targetWidth targetHeight
                 (fill_white targetWidth targetHeight d)))
    end.

(** [padImage] of the second variant: [padded.data.fill(255)], then
    [PNG.bitblt(img, padded, 0, 0, img.width, img.height, 0, 0)]. The
    library copies row by row with [Buffer.copy] and refuses a source
    that does not fit into the destination. *)
Definition buf_copy (src : buffer) (target : buffer)
  (targetStart sourceStart sourceEnd : Z) : buffer :=
  for_range (sourceEnd - sourceStart) (fun i d =>
    match buf_read src (sourceStart + i) with
    | Some b => buf_write d (targetStart + i) (Some b)
    | None => d
    end) target.

Definition bitblt (src : RawImage) (dst : RawImage) : result buffer :=
  if (width src >? width dst) || (height src >? height dst) then Err RangeError
  else
    Ok (for_range (height src) (fun y d =>
          buf_copy (data src) d
            (shl (y * width dst) 2)
            (shl (y * width src) 2)
            (shl (y * width src + width src) 2)) (data dst)).

Definition padImage2 (img : RawImage) (targetWidth targetHeight : Z) : result RawImage :=
  if (width img =? targetWidth) && (height img =? targetHeight) then Ok img
  else
    match new_PNG targetWidth targetHeight with
    | None => Err NoPngBuffer
    | Some d =>
        let padded := mkImage targetWidth targetHeight (map (fun _ => 255) d) in
        let? d' := bitblt img padded in
        Ok (mkImage targetWidth targetHeight d')
    end.

(** What [compareScreenshots] hands to the differ: both images padded to
    the larger width and the larger height. (The first variant writes
    [img1.width || 0], the second [img1.width].) *)
Definition differ_operands (v : variant) (img1 img2 : RawImage)
  : result (buffer * buffer * Z * Z) :=
  match v with
  | First =>
      let width_ := Z.max (or0 (width img1)) (or0 (width img2)) in
      let height_ := Z.max (or0 (height img1)) (or0 (height img2)) in
      let? img1 := padImage img1 width_ height_ in
      let? img2 := padImage img2 width_ height_ in
      Ok (data img1, data img2, width_, height_)
  | Second =>
      let width_ := Z.max (width img1) (width img2) in
      let height_ := Z.max (height img1) (height img2) in
      let? img1 := padImage2 img1 width_ height_ in
      let? img2 := padImage2 img2 width_ height_ in
      Ok (data img1, data img2, width_, height_)
  end.

(** [diffPath.replace(/\.png$/, '.jpg')] *)
Fixpoint replace_png_suffix (s : string) : string :=
  match s with
  | EmptyString => EmptyString
  | String c rest =>
      if String.eqb s ".png" then ".jpg"%string else String c (replace_png_suffix rest)
  end.

(** [compareScreenshots]: [img1] and [img2] are the two screenshots as
    [sharp] and [PNG.sync.read] decode them; [saved] tells whether the
    diff image could be written. *)
Definition compareScreenshots (v : variant) (img1 img2 : RawImage)
  (diffPath : string) (saved : bool) : result (number * string) :=
  let? ops := differ_operands v img1 img2 in
  let '(d1, d2, width_, height_) := ops in
  let? numDiffPixels := Differ.pixelmatch d1 d2 width_ height_ Differ.threshold_default in
  let diffJpgPath := replace_png_suffix diffPath in
  if saved then Ok (of_nat numDiffPixels, diffJpgPath) else Err WriteFailed.

(** [urlPath.replace(/\W+/g, '_')] *)
Definition is_word_char (c : ascii) : bool :=
  let n := nat_of_ascii c in
  ((48 <=? n) && (n <=? 57) || (65 <=? n) && (n <=? 90)
   || (97 <=? n) && (n <=? 122) || (n =? 95))%nat.

Fixpoint clean_from (in_run : bool) (s : string) : string :=
  match s with
  | EmptyString => EmptyString
  | String c rest =>
      if is_word_char c then String c (clean_from false rest)
      else if in_run then clean_from true rest
      else String "_" (clean_from true rest)
  end.

Definition cleanName (urlPath : string) : string := clean_from false urlPath.

(** What one attempt meets: both screenshots taken (with what they
    decode to, whether the diff image could be saved, and the
    milliseconds since the task started), or an exception inside [try]. *)
Inductive attempt : Type :=
| Captured (dev prod : RawImage) (saved : bool) (elapsed_ms : Z)
| Failed.

Definition dev_dir (v : variant) : string :=
  match v with First => "dev" | Second => "stage" end.

Definition diff_ext (v : variant) : string :=
  match v with First => "_diff.jpg" | Second => "_diff.png" end.

(** The body of [try] in the retry loop. *)
Definition attempt_result (v : variant) (urlPath : string) (a : attempt)
  : result ComparisonResult :=
  let name := cleanName urlPath in
  let dev := (screenshotDir ++ "/" ++ dev_dir v ++ "/" ++ name ++ ".jpg")%string in
  let prod := (screenshotDir ++ "/prod/" ++ name ++ ".jpg")%string in
  let diff := (screenshotDir ++ "/diff/" ++ name ++ diff_ext v)%string in
  match a with
  | Failed => Err CaptureFailed
  | Captured devImg prodImg saved elapsed_ms =>
      let? cmp := compareScreenshots v devImg prodImg diff saved in
      let '(numDiffPixels, diffJpgPath) := cmp in
      Ok (mkResult urlPath (strict_eq numDiffPixels (of_Z 0)) numDiffPixels
            dev prod diffJpgPath (div (of_Z elapsed_ms) (of_Z 1000)))
  end.

(** [for (let attempt = 1; attempt <= 3; attempt++)]: the attempts left
    are a list; [null] is [None]. *)
Fixpoint retry (v : variant) (urlPath : string) (env : Z -> attempt)
  (attempts : list Z) : option ComparisonResult :=
  match attempts with
  | [] => None
  | attempt_ :: rest =>
      match attempt_result v urlPath (env attempt_) with
      | Ok r => Some r
      | Err _ => if attempt_ =? 3 then None else retry v urlPath env rest
      end
  end.

Definition task (v : variant) (urlPath : string) (env : Z -> attempt)
  : option ComparisonResult :=
  retry v urlPath env [1; 2; 3].

(** A target: its path and what each of its attempts meets. *)
Definition target : Type := (string * (Z -> attempt))%type.

Definition run_task (v : variant) (t : target) : option ComparisonResult :=
  task v (fst t) (snd t).

(** [urls.map(urlPath => async () => ...)]: the tasks catch what their
    attempts throw, so their promises are fulfilled, with a result or
    with [null]. ([browser.newPage] and [tab.close] are taken not to
    throw: a browser that is gone aborts the run. [Tabs.tasks] below is
    the general case, in which they may throw and the promise of a task
    may be rejected.) *)
Definition tasks (v : variant) (targets : list target)
  : list (settlement (option ComparisonResult)) :=
  map (fun t => Fulfils (run_task v t)) targets.

Definition concurrency : Z := 5.

(** [.filter(Boolean)]: a result object is truthy, [null] is not. *)
Definition filter_Boolean {A} (l : list (option A)) : list A := omap id l.

(** [results.reduce((sum, r) => sum + r.duration, 0) / results.length] *)
Definition average (results : list ComparisonResult) : number :=
  div (fold_left (fun sum r => add sum (duration r)) results (of_Z 0))
      (of_nat (length results)).

(** How [main] ends. *)
Inductive outcome : Type :=
| NoUrls                                    (* 'No URLs to process. Exiting.' *)
| Report (results : list ComparisonResult) (summary : Summary)
| ProcessFailed.                            (* [process.exit(1)] *)

(** [main] along one run [es] of the pool; [total_ms] is the time the
    whole run took. [None]: [es] is not a complete run. *)
Definition main (v : variant) (targets : list target) (es : list event)
  (total_ms : Z) : option outcome :=
  if (length targets =? 0)%nat then Some NoUrls
  else
    match runWithConcurrencyLimit v (tasks v targets) concurrency es with
    | Some (Returned out) =>
        let results := filter_Boolean out in
        Some (Report results
                (mkSummary (of_nat (length results)) (average results)
                   (div (of_Z total_ms) (of_Z 1000))))
    | Some Thrown => Some ProcessFailed
    | _ => None
    end.

End Optimized.

(** ** [compare-screenshots.ts] *)

Module CompareScreenshots.

Record CompareResult : Type := mkCompareResult {
  name : string;
  devPath : string;
  prodPath : string;
  diffPath : string;
  isDifferent : bool;
  diffPixels : number
}.

(** [padImage]: a buffer of 255s, the source copied to the centre. *)
Definition padImage (img : RawImage) (targetWidth targetHeight : Z) : result RawImage :=
  if (width img =? targetWidth) && (height img =? targetHeight) then Ok img
  else if targetWidth * targetHeight * 4 <? 0 then Err RangeError
  else
    let d := alloc (targetWidth * targetHeight * 4) 255 in
    let offsetX := (targetWidth - width img) / 2 in
    let offsetY := (targetHeight - height img) / 2 in
    Ok (mkImage targetWidth targetHeight
          (for_range (height img) (fun y =>
             for_range (width img) (fun x d =>
               let srcIdx := (y * width img + x) * 4 in
               let destIdx := ((y + offsetY) * targetWidth + (x + offsetX)) * 4 in
               let d := buf_write d destIdx (buf_read (data img) srcIdx) in
               let d := buf_write d (destIdx + 1) (buf_read (data img) (srcIdx + 1)) in
               let d := buf_write d (destIdx + 2) (buf_read (data img) (srcIdx + 2)) in
               buf_write d (destIdx + 3) (buf_read (data img) (srcIdx + 3)))) d)).

(** The body of [try] in [compareScreenshots]. [read1] and [read2] are
    what [readImage] gives for the two files (it throws on an unknown
    extension or an unreadable file); [saved] tells whether the diff
    image, written only when the images differ, could be written. *)
Definition compare_body (read1 read2 : result RawImage) (saved : bool)
  : result (bool * number) :=
  let? img1 := read1 in
  let? img2 := read2 in
  let maxWidth := Z.max (width img1) (width img2) in
  let maxHeight := Z.max (height img1) (height img2) in
  let? padded1 := padImage img1 maxWidth maxHeight in
  let? padded2 := padImage img2 maxWidth maxHeight in
  let? n := Differ.pixelmatch (data padded1) (data padded2) maxWidth maxHeight
              Differ.threshold_default in
  let diffPixels := of_nat n in
  let isDifferent := gt diffPixels (of_Z 0) in
  if isDifferent && negb saved then Err WriteFailed
  else Ok (isDifferent, diffPixels).

(** [compareScreenshots]: the promise is always resolved; [catch] answers
    [{ isDifferent: true, diffPixels: Infinity }]. *)
Definition compareScreenshots (read1 read2 : result RawImage) (saved : bool)
  : bool * number :=
  match compare_body read1 read2 saved with
  | Ok r => r
  | Err _ => (true, PosInfinity)
  end.

(** One turn of the loop of [main]. *)
Definition compare_pair (name devPath prodPath diffPath : string)
  (read1 read2 : result RawImage) (saved : bool) : CompareResult :=
  let '(isDifferent, diffPixels) := compareScreenshots read1 read2 saved in
  mkCompareResult name devPath prodPath diffPath isDifferent diffPixels.

End CompareScreenshots.

(** ** [compare.ts] *)

Module Compare.

Inductive Environment : Type := dev | prod | both.

Record ScreenshotResult : Type := mkScreenshotResult {
  url : string;
  devPath : string;
  prodPath : string;
  diffPath : string;
  isDifferent : bool;
  diffPixels : number;
  environment : Environment;
  error : option string
}.

(** [padImage]: [new PNG({ width, height, fill: true })], the source
    copied to the centre. The function has no caller in the file. A
    buffer that is [null] cannot be indexed. *)
Definition padImage (img : RawImage) (targetWidth targetHeight : Z) : result RawImage :=
  let x := (targetWidth - width img) / 2 in
  let y := (targetHeight - height img) / 2 in
  match new_PNG targetWidth targetHeight with
  | None =>
      if (0 <? height img) && (0 <? width img) then Err NoPngBuffer
      else Ok (mkImage targetWidth targetHeight [])
  | Some d =>
      Ok (mkImage targetWidth targetHeight
            (for_range (height img) (fun i =>
               for_range (width img) (fun j d =>
                 let idx := shl (i * width img + j) 2 in
                 let newIdx := shl ((i + y) * targetWidth + (j + x)) 2 in
                 let d := buf_write d newIdx (buf_read (data img) idx) in
                 let d := buf_write d (newIdx + 1) (buf_read (data img) (idx + 1)) in
                 let d := buf_write d (newIdx + 2) (buf_read (data img) (idx + 2)) in
                 buf_write d (newIdx + 3) (buf_read (data img) (idx + 3)))) d))
  end.

(** What [compareScreenshots] hands to the differ: the two images as
    they were read, with the larger width and the larger height. *)
Definition differ_operands (img1 img2 : RawImage) : buffer * buffer * Z * Z :=
  let width_ := Z.max (width img1) (width img2) in
  let height_ := Z.max (height img1) (height img2) in
  (data img1, data img2, width_, height_).

(** The body of [try] in [compareScreenshots]. *)
Definition compare_body (read1 read2 : result RawImage) (saved : bool)
  : result (bool * number) :=
  let? img1 := read1 in
  let? img2 := read2 in
  let '(d1, d2, width_, height_) := differ_operands img1 img2 in
  let? n := Differ.pixelmatch d1 d2 width_ height_ Differ.threshold_default in
  let diffPixels := of_nat n in
  if saved then Ok (gt diffPixels (of_Z 0), diffPixels) else Err WriteFailed.

(** [compareScreenshots]: [catch] answers
    [{ isDifferent: true, diffPixels: 0 }]. *)
Definition compareScreenshots (read1 read2 : result RawImage) (saved : bool)
  : bool * number :=
  match compare_body read1 read2 saved with
  | Ok r => r
  | Err _ => (true, of_Z 0)
  end.

(** What the browser does for one environment of one URL:
    whether [ensureLoggedInAndNavigate] answered [true], what
    [page.screenshot] wrote ([None]: it failed, [captureScreenshot]
    answered [false] and no file exists), and the text of [Date.now()]
    that names the file. *)
Record visit : Type := mkVisit {
  navigated : bool;
  shot : option (result RawImage);
  stamp : string
}.

Definition screenshotDir : string := "test-results/screenshots".
Definition diffDir : string := "test-results/diff".

(** [url.replace(/[^a-z0-9]/gi, '_').toLowerCase()] *)
Definition slug_char (c : ascii) : ascii :=
  let n := nat_of_ascii c in
  if ((48 <=? n) && (n <=? 57) || (97 <=? n) && (n <=? 122))%nat then c
  else if ((65 <=? n) && (n <=? 90))%nat then ascii_of_nat (n + 32)
  else "_"%char.

Fixpoint slug (s : string) : string :=
  match s with
  | EmptyString => EmptyString
  | String c rest => String (slug_char c) (slug rest)
  end.

Definition wants_dev (e : Environment) : bool :=
  match e with dev | both => true | prod => false end.

Definition wants_prod (e : Environment) : bool :=
  match e with prod | both => true | dev => false end.

(** A string is truthy when it is not empty; [undefined] is not. *)
Definition truthy (o : option string) : bool :=
  match o with
  | Some s => negb (String.eqb s "")
  | None => false
  end.

Definition file_exists (want : bool) (vis : visit) : bool :=
  want && navigated vis && match shot vis with Some _ => true | None => false end.

Definition file_read (vis : visit) : result RawImage :=
  match shot vis with
  | Some r => r
  | None => Err UnreadableImage
  end.

(** The body of [for (const { url, environment } of urls)] in [main]:
    the result pushed for one URL. Nothing in the body of [try] throws:
    navigation, capture and comparison each catch their own errors. The
    URLs handed to the browser enter the result only through what the
    browser does with them, which is [vd] and [vp]. *)
Definition process_url (url_ : string) (env : Environment) (vd vp : visit)
  (saved : bool) : ScreenshotResult :=
  (* dev screenshot *)
  let devPath_ :=
    if wants_dev env then (screenshotDir ++ "/dev_" ++ stamp vd ++ ".png")%string
    else ""%string in
  let error1 :=
    if wants_dev env && negb (navigated vd)
    then Some "Failed to navigate to dev URL"%string else None in
  (* prod screenshot *)
  let prodPath_ :=
    if wants_prod env then (screenshotDir ++ "/prod_" ++ stamp vp ++ ".png")%string
    else ""%string in
  let error2 :=
    if wants_prod env && negb (navigated vp) then
      match error1 with
      | Some e =>
          if truthy error1 then Some (e ++ "; Failed to navigate to prod URL")%string
          else Some "Failed to navigate to prod URL"%string
      | None => Some "Failed to navigate to prod URL"%string
      end
    else error1 in
  (* comparison, when both files are there *)
  if negb (String.eqb devPath_ "") && negb (String.eqb prodPath_ "")
     && file_exists (wants_dev env) vd && file_exists (wants_prod env) vp
  then
    let diffPath_ := (diffDir ++ "/diff-" ++ slug url_ ++ ".png")%string in
    let '(isDifferent_, diffPixels_) :=
      compareScreenshots (file_read vd) (file_read vp) saved in
    mkScreenshotResult url_ devPath_ prodPath_ diffPath_ isDifferent_ diffPixels_
      env error2
  else
    mkScreenshotResult url_ devPath_ prodPath_ "" false (of_Z 0) env error2.

(** [r.error ? 'error' : (r.isDifferent ? 'failed' : 'passed')] *)
Inductive status : Type := passed | failed | errored.

Definition status_of (r : ScreenshotResult) : status :=
  if truthy (error r) then errored
  else if isDifferent r then failed else passed.

End Compare.

(** ** More of the scripts

    The functions of the same files that the sections above do not need:
    string helpers, the sequential scripts (the third script of
    [compare_optimized.ts] and its copy in [types/pdfkit/index.d.ts]), the
    summary of the HTML report and the pool of [compare.ts], the command
    line of the second variant of [compare_optimized.ts], and the summary
    of the PDF report of [compare-screenshots.ts]. *)

Module Text.

(** [s.includes(sub)] *)
Fixpoint includes (s sub : string) : bool :=
  String.prefix sub s ||
  match s with
  | EmptyString => false
  | String _ rest => includes rest sub
  end.

(** Every character of [s] satisfies [f]. *)
Fixpoint all_chars (f : ascii -> bool) (s : string) : bool :=
  match s with
  | EmptyString => true
  | String c rest => f c && all_chars f rest
  end.

End Text.

(** ** The sequential scripts

    The third script of [compare_optimized.ts] and the script kept in
    [types/pdfkit/index.d.ts] compare the screenshots already on disk, one
    pair after the other. They share [padImage] and [compareScreenshots]
    and differ in [readImage]. *)

Module Sequential.

Inductive script : Type :=
| Standalone     (* the third script of [compare_optimized.ts] *)
| Typings.       (* [types/pdfkit/index.d.ts] *)

(** What the field [data] holds at run time: a Node [Buffer], or the
    [Uint8Array] that [jpeg.decode] returns under [useTArray: true]. The
    type annotations call both [Buffer]; only a [Buffer] has the method
    [copy]. *)
Inductive store : Type := NodeBuffer | TypedArray.

Record ImageData : Type := mkImageData {
  image : RawImage;
  kind : store
}.

(** What is thrown: an error raised by a library or by [throw], or the
    [TypeError] of calling a method that is not there. *)
Inductive thrown : Type :=
| Raised (e : error)
| NotAFunction.

Inductive completion (A : Type) : Type :=
| Returns (a : A)
| Throws (t : thrown).
Arguments Returns {A} a.
Arguments Throws {A} t.

Definition and_then {A B} (c : completion A) (k : A -> completion B) : completion B :=
  match c with
  | Returns a => k a
  | Throws t => Throws t
  end.

Notation "'let!' x ':=' c1 'in' c2" := (and_then c1 (fun x => c2))
  (at level 10, x name, c1 at level 100, c2 at level 200).

Definition of_result {A} (r : result A) : completion A :=
  match r with
  | Ok a => Returns a
  | Err e => Throws (Raised e)
  end.

(** The loop of [readImage] that gives a decoded JPEG an alpha channel. *)
Definition rgb_to_rgba (jpg : RawImage) : buffer :=
  for_range (width jpg * height jpg) (fun i rgba =>
    let rgba := buf_write rgba (i * 4 + 0) (buf_read (data jpg) (i * 3 + 0)) in
    let rgba := buf_write rgba (i * 4 + 1) (buf_read (data jpg) (i * 3 + 1)) in
    let rgba := buf_write rgba (i * 4 + 2) (buf_read (data jpg) (i * 3 + 2)) in
    buf_write rgba (i * 4 + 3) (Some 255))
    (alloc (width jpg * height jpg * 4) 0).

(** [readImage]: [ext] is [path.extname(filePath).toLowerCase()] and
    [decoded] what the decoder of that format makes of the file
    ([PNG.sync.read] or [jpeg.decode], which throw on a file they cannot
    read). A JPEG decoded to four bytes per pixel is returned as it is by
    the standalone script and wrapped in [Buffer.from] by the other. *)
Definition readImage (s : script) (ext : string) (decoded : result RawImage)
  : completion ImageData :=
  if String.eqb ext ".png" then
    let! png := of_result decoded in
    Returns (mkImageData png NodeBuffer)
  else if String.eqb ext ".jpg" || String.eqb ext ".jpeg" then
    let! jpg := of_result decoded in
    if Z.of_nat (length (data jpg)) =? width jpg * height jpg * 4 then
      Returns (mkImageData jpg
                 match s with Standalone => TypedArray | Typings => NodeBuffer end)
    else if width jpg * height jpg * 4 <? 0 then Throws (Raised RangeError)
    else
      Returns (mkImageData (mkImage (width jpg) (height jpg) (rgb_to_rgba jpg))
                 NodeBuffer)
  else Throws (Raised UnreadableImage).

(** [source.copy(target, targetStart, sourceStart, sourceEnd)] with the
    checks Node makes on its arguments. *)
Definition copy (k : store) (source target : buffer)
  (targetStart sourceStart sourceEnd : Z) : completion buffer :=
  match k with
  | TypedArray => Throws NotAFunction
  | NodeBuffer =>
      if targetStart <? 0 then Throws (Raised RangeError)
      else if (sourceStart <? 0) || (sourceStart >? Z.of_nat (length source))
      then Throws (Raised RangeError)
      else if sourceEnd <? 0 then Throws (Raised RangeError)
      else Returns (Optimized.buf_copy source target targetStart sourceStart sourceEnd)
  end.

(** [padImage]: a buffer of 255s, the source copied pixel by pixel with
    its top-left corner at the origin. *)
Definition padImage (img : ImageData) (targetWidth targetHeight : Z)
  : completion ImageData :=
  if (width (image img) =? targetWidth) && (height (image img) =? targetHeight)
  then Returns img
  else if targetWidth * targetHeight * 4 <? 0 then Throws (Raised RangeError)
  else
    let! padded :=
      for_range (height (image img)) (fun y =>
        for_range (width (image img)) (fun x padded =>
          let srcIdx := (y * width (image img) + x) * 4 in
          let dstIdx := (y * targetWidth + x) * 4 in
          let! padded := padded in
          copy (kind img) (data (image img)) padded dstIdx srcIdx (srcIdx + 4)))
        (Returns (alloc (targetWidth * targetHeight * 4) 255)) in
    Returns (mkImageData (mkImage targetWidth targetHeight padded) NodeBuffer).

(** [compareScreenshots]: nothing is caught here, what throws ends the
    script. [dev] and [prod] are what the two calls of [readImage] do and
    [saved] tells whether the diff image could be written. *)
Definition compareScreenshots (dev prod : completion ImageData) (saved : bool)
  : completion nat :=
  let! devImg := dev in
  let! prodImg := prod in
  let width_ := Z.max (width (image devImg)) (width (image prodImg)) in
  let height_ := Z.max (height (image devImg)) (height (image prodImg)) in
  let! devImg := padImage devImg width_ height_ in
  let! prodImg := padImage prodImg width_ height_ in
  let! diffPixels :=
    of_result (Differ.pixelmatch (data (image devImg)) (data (image prodImg))
                 width_ height_ Differ.threshold_default) in
  if saved then Returns diffPixels else Throws (Raised WriteFailed).

End Sequential.

(** ** More of [compare.ts] *)

Module CompareMore.

Import Compare.

(** [getEnvironment] *)
Definition getEnvironment (url_ : string) : Environment :=
  let isDev := Text.includes url_ "stage." || Text.includes url_ "dev." in
  let isProd := Text.includes url_ "recordati-plus.de" && negb isDev in
  if isDev && isProd then both
  else if isDev then dev else prod.

(** The characters of a slug: [a-z], [0-9] and [_]. *)
Definition is_slug_char (c : ascii) : bool :=
  let n := nat_of_ascii c in
  ((48 <=? n) && (n <=? 57) || (97 <=? n) && (n <=? 122) || (n =? 95))%nat.

(** The counts of the summary of [generateHTMLReport], and the ones
    [main] prints. *)
Definition count_passed (results : list ScreenshotResult) : nat :=
  length (List.filter (fun r => negb (truthy (error r)) && negb (isDifferent r)) results).

Definition count_failed (results : list ScreenshotResult) : nat :=
  length (List.filter (fun r => negb (truthy (error r)) && isDifferent r) results).

Definition count_errors (results : list ScreenshotResult) : nat :=
  length (List.filter (fun r => truthy (error r)) results).

Definition differentCount (results : list ScreenshotResult) : nat :=
  length (List.filter isDifferent results).

Definition identicalCount (results : list ScreenshotResult) : nat :=
  (length results - differentCount results)%nat.

(** [runWithConcurrencyLimit(items, limit, fn)] of [compare.ts]. The loop
    is the one of [compare_optimized.ts] with the unguarded [splice]; what
    differs is the result: the callback of a task pushes its value when
    the task is fulfilled, and the function returns the values pushed. A
    task is [fn(item)], named by the index of its item, and is taken to
    start when its turn of the loop is over. *)
Definition settle_order (es : list Pool.event) : list nat :=
  omap (fun e => match e with Pool.Settle p => Some p | _ => None end) es.

Definition pushed {R} (tasks : list (Pool.settlement R)) (es : list Pool.event)
  : list R :=
  omap (Pool.value_of tasks) (settle_order es).

Definition runWithConcurrencyLimit {R} (tasks : list (Pool.settlement R))
  (limit : Z) (es : list Pool.event) : option (Pool.phase R) :=
  match Pool.exec Pool.First tasks limit Pool.init es with
  | Some s =>
      Some (match Pool.at_ s with
            | Pool.Returned _ => Pool.Returned (pushed tasks es)
            | ph => ph
            end)
  | None => None
  end.

End CompareMore.

(** ** The copy loops of the [padImage] functions

    Every [padImage] but the one built on [PNG.bitblt] copies the source
    pixel by pixel into a buffer of row width [targetWidth], the
    top-left corner of the source going to the pixel
    [(offsetX, offsetY)]. *)

Module Placement.

Definition blit (img : RawImage) (targetWidth offsetX offsetY : Z) (d : buffer) : buffer :=
  for_range (height img) (fun y =>
    for_range (width img) (fun x d =>
      Optimized.copy_pixel (data img) (pixel_index (width img) x y) d
        (pixel_index targetWidth (x + offsetX) (y + offsetY)))) d.

(** The byte of the source that belongs at index [j] of the target. *)
Definition placed_byte (img : RawImage) (targetWidth offsetX offsetY : Z) (j : Z) : Z :=
  let x := (j / 4) mod targetWidth - offsetX in
  let y := (j / 4) / targetWidth - offsetY in
  to_uint8 (buf_read (data img) (pixel_index (width img) x y + j mod 4)).

(** The pixels of the target that the source covers. *)
Definition covered (img : RawImage) (offsetX offsetY x y : Z) : bool :=
  (offsetX <=? x) && (x <? offsetX + width img)
  && (offsetY <=? y) && (y <? offsetY + height img).

Definition pixel_of (fill : Z) : list (option Z) :=
  [Some fill; Some fill; Some fill; Some fill].

End Placement.

(** ** The command line of [compare_optimized.ts], second variant *)

Module Args.

(** [a.slice(n)] for a length [n]. *)
Definition slice (a : string) (n : nat) : string :=
  String.substring n (String.length a - n) a.

(** [getArgValue]: [argv] is [process.argv.slice(2)]; the empty string is
    falsy. *)
Definition getArgValue (argv : list string) (prefix : string) : option string :=
  match List.find (fun p => String.prefix prefix p) argv with
  | Some a => if String.eqb a "" then None else Some (slice a (String.length prefix))
  | None => None
  end.

Definition reportArg (argv : list string) : option string :=
  getArgValue argv "--report=".

Definition groupArg (argv : list string) : option string :=
  getArgValue argv "--group=".

(** [reportArg ?? (groupArg ? `test-results/${groupArg}-${_timestamp}.pdf`
    : undefined)]: [??] keeps an empty string, [?] does not. *)
Definition computedReportPath (argv : list string) (timestamp : string)
  : option string :=
  match reportArg argv with
  | Some r => Some r
  | None =>
      match groupArg argv with
      | Some g =>
          if String.eqb g "" then None
          else Some ("test-results/" ++ g ++ "-" ++ timestamp ++ ".pdf")%string
      | None => None
      end
  end.

(** [reportPath: computedReportPath ?? 'test-results/result-2.pdf'] *)
Definition reportPath (argv : list string) (timestamp : string) : string :=
  default "test-results/result-2.pdf"%string (computedReportPath argv timestamp).

End Args.

(** ** The summary of the PDF report of [compare-screenshots.ts] *)

Module ScreenshotsReport.

Import CompareScreenshots.

(** [a * b] *)
Definition mul (a b : number) : number :=
  match a, b with
  | NaN, _ | _, NaN => NaN
  | Fin x, Fin y => Fin (x * y)
  | Fin x, PosInfinity | PosInfinity, Fin x =>
      if Qis_zero x then NaN else if Qsign_pos x then PosInfinity else NegInfinity
  | Fin x, NegInfinity | NegInfinity, Fin x =>
      if Qis_zero x then NaN else if Qsign_pos x then NegInfinity else PosInfinity
  | PosInfinity, PosInfinity | NegInfinity, NegInfinity => PosInfinity
  | PosInfinity, NegInfinity | NegInfinity, PosInfinity => NegInfinity
  end.

Definition differentCount (results : list CompareResult) : nat :=
  length (List.filter isDifferent results).

(** [differentCount / results.length * 100], the number that
    [toFixed(1)] prints. *)
Definition percentage (results : list CompareResult) : number :=
  mul (div (of_nat (differentCount results)) (of_nat (length results))) (of_Z 100).

End ScreenshotsReport.

(** ** The tabs of the tasks of [compare_optimized.ts]

    Every attempt of a task opens a tab with [browser.newPage], before
    [try], and closes it with [tab.close], at the end of [try] and again
    inside [catch]. What [try] throws is caught; what [browser.newPage]
    or the [tab.close] of [catch] throws is not, and rejects the promise
    of the task. ([tab.close] at the end of [try] is part of the attempt:
    when it throws, the attempt is [Optimized.Failed].) *)

Module Tabs.

Import Pool Optimized.

(** What the browser does with the tab of one attempt. *)
Record tab : Type := mkTab {
  opens : bool;     (* [browser.newPage()] returns a tab *)
  closes : bool     (* [tab.close()] inside [catch] returns *)
}.

(** [for (let attempt = 1; attempt <= 3; attempt++)] with the tab of
    every attempt: how the promise of the task settles. *)
Fixpoint retry (v : variant) (urlPath : string) (env : Z -> attempt)
  (tabs : Z -> tab) (attempts : list Z) : settlement (option ComparisonResult) :=
  match attempts with
  | [] => Fulfils None
  | attempt_ :: rest =>
      if opens (tabs attempt_) then
        match attempt_result v urlPath (env attempt_) with
        | Ok r => Fulfils (Some r)
        | Err _ =>
            if closes (tabs attempt_) then
              if attempt_ =? 3 then Fulfils None else retry v urlPath env tabs rest
            else Rejects
        end
      else Rejects
  end.

Definition task (v : variant) (urlPath : string) (env : Z -> attempt)
  (tabs : Z -> tab) : settlement (option ComparisonResult) :=
  retry v urlPath env tabs [1; 2; 3].

(** A target with the tabs of its attempts. *)
Definition target : Type := (Optimized.target * (Z -> tab))%type.

Definition run_task (v : variant) (t : target)
  : settlement (option ComparisonResult) :=
  task v (fst (fst t)) (snd (fst t)) (snd t).

Definition tasks (v : variant) (targets : list target)
  : list (settlement (option ComparisonResult)) :=
  map (run_task v) targets.

(** The browser opens and closes the tab of every attempt. *)
Definition healthy (targets : list target) : Prop :=
  forall t a, In t targets -> 1 <= a <= 3 ->
    opens (snd t a) = true /\ closes (snd t a) = true.

(** [main] along one run [es] of the pool, as [Optimized.main]. *)
Definition main (v : variant) (targets : list target) (es : list event)
  (total_ms : Z) : option outcome :=
  if (length targets =? 0)%nat then Some NoUrls
  else
    match runWithConcurrencyLimit v (tasks v targets) concurrency es with
    | Some (Returned out) =>
        let results := filter_Boolean out in
        Some (Report results
                (mkSummary (of_nat (length results)) (average results)
                   (div (of_Z total_ms) (of_Z 1000))))
    | Some Thrown => Some ProcessFailed
    | _ => None
    end.

End Tabs.

(** * Properties *)

(** ** Numbers *)

Module NumberFacts.






Lemma NaN_not_count : ~ is_count NaN.
Proof. intros [n H]. discriminate H. Qed.

End NumberFacts.

(** ** The differ on an image and itself *)

Module DifferFacts.

Import Differ.

Lemma channel_differs_refl (t : Q) (a : Z) :
  (0 <= t)%Q -> channel_differs t a a = false.
Proof.
  intros Ht. unfold channel_differs. rewrite Z.sub_diag.
  apply negb_false_iff, Qle_bool_iff.
  unfold Qle in *. simpl in *. lia.
Qed.

Lemma pixel_differs_refl (t : Q) (p : Z * Z * Z * Z) :
  (0 <= t)%Q -> pixel_differs t p p = false.
Proof.
  intros Ht. destruct p as [[[r g] b] a]. unfold pixel_differs.
  rewrite !channel_differs_refl by assumption. reflexivity.
Qed.

Lemma count_differing_refl (t : Q) :
  (0 <= t)%Q -> forall img, count_differing t img img = 0%nat.
Proof.
  intros Ht img.
  remember (length img) as n eqn:Hn.
  revert img Hn. induction n as [n IH] using lt_wf_ind. intros img Hn.
  destruct img as [|r [|g [|b [|a rest]]]]; try reflexivity.
  cbn [count_differing]. rewrite pixel_differs_refl by assumption.
  rewrite (IH (length rest)); [reflexivity | | reflexivity].
  subst n. cbn [length]. lia.
Qed.

Lemma pixelmatch_refl (img : RawImage) (t : Q) :
  wf_image img -> (0 <= t)%Q ->
  pixelmatch (data img) (data img) (width img) (height img) t = Ok 0%nat.
Proof.
  intros Hwf Ht. unfold pixelmatch.
  rewrite Z.eqb_refl. cbn [andb].
  replace (Z.of_nat (length (data img)) =? width img * height img * 4) with true.
  - rewrite count_differing_refl by assumption. reflexivity.
  - symmetry. apply Z.eqb_eq. rewrite (wf_length _ Hwf). lia.
Qed.




End DifferFacts.

(** ** The promise pool *)

Module PoolFacts.

Import Pool.

Lemma mem_In (p : nat) (l : list nat) : mem p l = true <-> In p l.
Proof.
  unfold mem. rewrite existsb_exists. split.
  - intros [q [Hq Heq]]. apply Nat.eqb_eq in Heq. subst. assumption.
  - intros H. exists p. split; [assumption | apply Nat.eqb_refl].
Qed.

Lemma mem_cons (p q : nat) (l : list nat) :
  mem p (q :: l) = Nat.eqb p q || mem p l.
Proof. reflexivity. Qed.

Lemma mem_false_not_In (p : nat) (l : list nat) : mem p l = false <-> ~ In p l.
Proof.
  rewrite <- mem_In. destruct (mem p l); split; intros; congruence.
Qed.

(** [indexOf] finds what is there. *)
Lemma indexOf_In (l : list nat) (p : nat) :
  In p l -> 0 <= indexOf l p < Z.of_nat (length l).
Proof.
  induction l as [|q l IH]; intros Hin; [destruct Hin|].
  cbn [indexOf length]. destruct (Nat.eqb q p) eqn:E.
  - lia.
  - destruct Hin as [->|Hin]; [rewrite Nat.eqb_refl in E; discriminate|].
    specialize (IH Hin). destruct (indexOf l p <? 0) eqn:E'; lia.
Qed.

Lemma filter_id_notin (l : list nat) (p : nat) :
  ~ In p l -> List.filter (fun q => negb (Nat.eqb q p)) l = l.
Proof.
  induction l as [|q l IH]; intros Hn; [reflexivity|].
  cbn [List.filter]. destruct (Nat.eqb q p) eqn:E.
  - apply Nat.eqb_eq in E. subst. exfalso. apply Hn. left. reflexivity.
  - cbn [negb]. f_equal. apply IH. intros H. apply Hn. right. assumption.
Qed.

Lemma splice1_at (l : list nat) (i : Z) :
  0 <= i < Z.of_nat (length l) ->
  splice1 l i = firstn (Z.to_nat i) l ++ skipn (S (Z.to_nat i)) l.
Proof.
  intros Hi. unfold splice1.
  replace (i <? 0) with false by lia.
  rewrite Z.min_l by lia. reflexivity.
Qed.

(** Splicing at the index of [p] removes [p], and nothing else. *)
Lemma splice1_indexOf (l : list nat) (p : nat) :
  List.NoDup l -> In p l ->
  splice1 l (indexOf l p) = List.filter (fun q => negb (Nat.eqb q p)) l.
Proof.
  intros Hnd Hin. rewrite splice1_at by (apply indexOf_In; assumption).
  induction l as [|q l IH]; [destruct Hin|].
  inversion Hnd as [|? ? Hq Hnd']; subst.
  cbn [indexOf List.filter]. destruct (Nat.eqb q p) eqn:E.
  - apply Nat.eqb_eq in E. subst q. cbn [negb].
    rewrite filter_id_notin by assumption. reflexivity.
  - cbn [negb]. destruct Hin as [->|Hin]; [rewrite Nat.eqb_refl in E; discriminate|].
    pose proof (indexOf_In l p Hin) as Hi.
    replace (indexOf l p <? 0) with false by lia.
    rewrite <- (IH Hnd' Hin).
    replace (Z.to_nat (indexOf l p + 1)) with (S (Z.to_nat (indexOf l p))) by lia.
    reflexivity.
Qed.

Lemma on_fulfilled_removes (v : variant) (l : list nat) (p : nat) :
  List.NoDup l -> In p l ->
  on_fulfilled v l p = List.filter (fun q => negb (Nat.eqb q p)) l.
Proof.
  intros Hnd Hin. pose proof (indexOf_In l p Hin) as Hi.
  destruct v; cbn [on_fulfilled].
  - apply splice1_indexOf; assumption.
  - replace (indexOf l p >=? 0) with true by lia.
    apply splice1_indexOf; assumption.
Qed.

Lemma filter_filter_and {A} (f g h : A -> bool) (l : list A) :
  (forall x, In x l -> f x = g x && h x) ->
  List.filter f l = List.filter h (List.filter g l).
Proof.
  induction l as [|x l IH]; intros Hf; [reflexivity|].
  cbn [List.filter]. rewrite (Hf x) by (left; reflexivity).
  rewrite IH by (intros y Hy; apply Hf; right; assumption).
  destruct (g x); cbn [andb List.filter]; [destruct (h x)|]; reflexivity.
Qed.

Lemma filter_length_weaker {A} (f g : A -> bool) (l : list A) :
  (forall x, In x l -> f x = true -> g x = true) ->
  (length (List.filter f l) <= length (List.filter g l))%nat.
Proof.
  induction l as [|x l IH]; intros H; [reflexivity|].
  cbn [List.filter].
  assert (IH' := IH (fun y Hy => H y (or_intror Hy))).
  destruct (f x) eqn:Ef.
  - rewrite (H x (or_introl eq_refl) Ef). cbn [length]. lia.
  - destruct (g x); cbn [length]; lia.
Qed.

Lemma filter_length_lt {A} (f g : A -> bool) (l : list A) (y : A) :
  (forall x, In x l -> f x = true -> g x = true) ->
  In y l -> g y = true -> f y = false ->
  (length (List.filter f l) < length (List.filter g l))%nat.
Proof.
  induction l as [|x l IH]; intros H Hy Hg Hf; [destruct Hy|].
  cbn [List.filter].
  assert (Hle := filter_length_weaker f g l (fun z Hz => H z (or_intror Hz))).
  destruct Hy as [->|Hy].
  - rewrite Hg, Hf. cbn [length]. lia.
  - assert (IH' := IH (fun z Hz => H z (or_intror Hz)) Hy Hg Hf).
    destruct (f x) eqn:Ef.
    + rewrite (H x (or_introl eq_refl) Ef). cbn [length]. lia.
    + destruct (g x); cbn [length]; lia.
Qed.

Lemma filter_remove_length (l : list nat) (p : nat) :
  In p l ->
  (length (List.filter (fun q => negb (Nat.eqb q p)) l) < length l)%nat.
Proof.
  induction l as [|q l IH]; intros Hin; [destruct Hin|].
  cbn [List.filter length].
  pose proof (filter_length_le (fun q => negb (Nat.eqb q p)) l) as Hle.
  destruct (Nat.eqb q p) eqn:E; cbn [negb length].
  - lia.
  - destruct Hin as [->|Hin]; [rewrite Nat.eqb_refl in E; discriminate|].
    specialize (IH Hin). lia.
Qed.

Lemma existsb_pointwise {A} (f g : A -> bool) (l : list A) :
  (forall x, In x l -> f x = g x) -> existsb f l = existsb g l.
Proof.
  induction l as [|x l IH]; intros H; [reflexivity|].
  cbn [existsb]. rewrite (H x) by (left; reflexivity).
  rewrite IH by (intros y Hy; apply H; right; assumption). reflexivity.
Qed.

Lemma filter_pointwise {A} (f g : A -> bool) (l : list A) :
  (forall x, In x l -> f x = g x) -> List.filter f l = List.filter g l.
Proof.
  induction l as [|x l IH]; intros H; [reflexivity|].
  cbn [List.filter]. rewrite (H x) by (left; reflexivity).
  rewrite IH by (intros y Hy; apply H; right; assumption). reflexivity.
Qed.

Lemma omap_pointwise {A B} (f g : A -> option B) (l : list A) :
  (forall x, In x l -> f x = g x) -> omap f l = omap g l.
Proof.
  induction l as [|x l IH]; intros H; [reflexivity|].
  cbn [omap list_omap]. rewrite (H x) by (left; reflexivity).
  rewrite IH by (intros y Hy; apply H; right; assumption). reflexivity.
Qed.

Section Invariant.

Context {T : Type} (v : variant) (tasks : list (settlement T)) (limit : Z).

Lemma is_rejected_task (st : list nat) (p : nat) :
  is_rejected tasks st p = true -> tasks !! p = Some Rejects.
Proof.
  unfold is_rejected. intros H. apply andb_true_iff in H as [_ H].
  destruct (tasks !! p) as [[x|]|]; congruence.
Qed.

Lemma existsb_rejected_task (st l : list nat) :
  existsb (is_rejected tasks st) l = true -> exists p, tasks !! p = Some Rejects.
Proof.
  intros H. apply existsb_exists in H as [p [_ Hp]].
  exists p. eapply is_rejected_task. eassumption.
Qed.

Lemma is_rejected_cons_fulfils (st : list nat) (p q : nat) (x : T) :
  tasks !! p = Some (Fulfils x) ->
  is_rejected tasks (p :: st) q = is_rejected tasks st q.
Proof.
  intros Hp. unfold is_rejected. rewrite mem_cons.
  destruct (Nat.eqb q p) eqn:E; [|reflexivity].
  apply Nat.eqb_eq in E. subst q. rewrite Hp.
  rewrite !andb_false_r. reflexivity.
Qed.

Lemma is_fulfilled_cons_rejects (st : list nat) (p q : nat) :
  tasks !! p = Some Rejects ->
  is_fulfilled tasks (p :: st) q = is_fulfilled tasks st q.
Proof.
  intros Hp. unfold is_fulfilled. rewrite mem_cons.
  destruct (Nat.eqb q p) eqn:E; [|reflexivity].
  apply Nat.eqb_eq in E. subst q. rewrite Hp.
  rewrite !andb_false_r. reflexivity.
Qed.

Lemma not_settled_not_fulfilled (st : list nat) (p : nat) :
  mem p st = false -> is_fulfilled tasks st p = false.
Proof. intros H. unfold is_fulfilled. rewrite H. reflexivity. Qed.

Lemma init_invariant : invariant tasks limit init.
Proof.
  constructor; cbn; try reflexivity; try lia.
Qed.

Lemma results_NoDup (s : state T) :
  invariant tasks limit s -> List.NoDup (results s).
Proof. intros I. rewrite (inv_results _ _ _ I). apply List.seq_NoDup. Qed.

Lemma executing_NoDup (s : state T) :
  invariant tasks limit s -> List.NoDup (executing s).
Proof.
  intros I. rewrite (inv_executing _ _ _ I).
  apply List.NoDup_filter, results_NoDup, I.
Qed.

Lemma results_lt (s : state T) (p : nat) :
  invariant tasks limit s -> (In p (results s) <-> (p < next s)%nat).
Proof.
  intros I. rewrite (inv_results _ _ _ I), in_seq. lia.
Qed.

Lemma next_not_settled (s : state T) :
  invariant tasks limit s -> mem (next s) (settled s) = false.
Proof.
  intros I. destruct (mem (next s) (settled s)) eqn:E; [|reflexivity].
  apply (inv_settled _ _ _ I) in E. lia.
Qed.

Lemma unsettled_executing (s : state T) (p : nat) :
  invariant tasks limit s ->
  In p (results s) -> mem p (settled s) = false -> In p (executing s).
Proof.
  intros I Hin Hns. rewrite (inv_executing _ _ _ I).
  apply filter_In. split; [assumption|].
  rewrite not_settled_not_fulfilled by assumption. reflexivity.
Qed.

Lemma dispatch_invariant (s s' : state T) :
  invariant tasks limit s -> step v tasks limit s Dispatch = Some s' ->
  invariant tasks limit s'.
Proof.
  intros I Hstep. cbn [step] in Hstep.
  destruct (at_ s) eqn:Hat; try discriminate.
  destruct (tasks !! next s) as [t|] eqn:Ht; try discriminate.
  injection Hstep as <-.
  pose proof (inv_phase _ _ _ I) as Hph. rewrite Hat in Hph.
  assert (Hlen : length (executing s ++ [next s]) = S (length (executing s)))
    by (rewrite length_app; cbn; lia).
  constructor; cbn [next results executing settled at_].
  - rewrite seq_S, (inv_results _ _ _ I). reflexivity.
  - apply lookup_lt_Some in Ht. lia.
  - intros p Hp. apply (inv_settled _ _ _ I) in Hp. lia.
  - rewrite List.filter_app, <- (inv_executing _ _ _ I). cbn [List.filter].
    rewrite not_settled_not_fulfilled by (apply next_not_settled; assumption).
    reflexivity.
  - destruct (Z.of_nat (length (executing s ++ [next s])) >=? limit) eqn:E.
    + destruct (existsb _ _) eqn:Ex.
      * eapply existsb_rejected_task. eassumption.
      * split; [reflexivity|]. split; [destruct (executing s); discriminate|].
        intros Hl. specialize (Hph Hl). lia.
    + intros _. lia.
  - intros Hl. specialize (Hph Hl). lia.
Qed.

Lemma settle_invariant (s s' : state T) (p : nat) :
  invariant tasks limit s -> step v tasks limit s (Settle p) = Some s' ->
  invariant tasks limit s'.
Proof.
  intros I Hstep. cbn [step] in Hstep.
  destruct (mem p (results s) && negb (mem p (settled s))) eqn:Hen; try discriminate.
  apply andb_true_iff in Hen as [Hres Hns].
  apply negb_true_iff in Hns. apply mem_In in Hres.
  pose proof (inv_phase _ _ _ I) as Hph.
  pose proof (unsettled_executing s p I Hres Hns) as Hex.
  destruct (tasks !! p) as [[x|]|] eqn:Hp; try discriminate; injection Hstep as <-.
  - (* fulfilled: the callback splices [p] out *)
    assert (Hrem : on_fulfilled v (executing s) p =
                   List.filter (fun q => negb (Nat.eqb q p)) (executing s))
      by (apply on_fulfilled_removes; [apply executing_NoDup|]; assumption).
    assert (Hshort : (length (on_fulfilled v (executing s) p) < length (executing s))%nat).
    { rewrite Hrem. apply filter_remove_length. assumption. }
    constructor; cbn [next results executing settled at_].
    + apply (inv_results _ _ _ I).
    + apply (inv_next _ _ _ I).
    + intros q Hq. rewrite mem_cons in Hq. apply orb_true_iff in Hq as [Hq|Hq].
      * apply Nat.eqb_eq in Hq. subst q. apply (results_lt s p I). assumption.
      * apply (inv_settled _ _ _ I). assumption.
    + rewrite Hrem, (inv_executing _ _ _ I). symmetry. apply filter_filter_and.
      intros q _. unfold is_fulfilled. rewrite mem_cons.
      destruct (Nat.eqb q p) eqn:E.
      * apply Nat.eqb_eq in E. subst q. rewrite Hp, Hns. reflexivity.
      * cbn [orb negb]. rewrite andb_true_r. reflexivity.
    + destruct (at_ s) eqn:Hat.
      * intros Hl. specialize (Hph Hl). lia.
      * destruct Hph as (_ & _ & Hfull). intros Hl. specialize (Hfull Hl). lia.
      * destruct Hph as [Hn Hrej]. split; [assumption|].
        rewrite <- Hrej. apply existsb_pointwise. intros q _.
        eapply is_rejected_cons_fulfils. eassumption.
      * destruct Hph as [_ Hall]. rewrite forallb_forall in Hall.
        apply Hall in Hres. congruence.
      * assumption.
    + intros Hl. pose proof (inv_bound _ _ _ I Hl). lia.
  - (* rejected: no callback runs *)
    constructor; cbn [next results executing settled at_].
    + apply (inv_results _ _ _ I).
    + apply (inv_next _ _ _ I).
    + intros q Hq. rewrite mem_cons in Hq. apply orb_true_iff in Hq as [Hq|Hq].
      * apply Nat.eqb_eq in Hq. subst q. apply (results_lt s p I). assumption.
      * apply (inv_settled _ _ _ I). assumption.
    + rewrite (inv_executing _ _ _ I) at 1. apply filter_pointwise.
      intros q _. rewrite is_fulfilled_cons_rejects by assumption. reflexivity.
    + destruct (at_ s) eqn:Hat.
      * assumption.
      * exists p. assumption.
      * exists p. assumption.
      * destruct Hph as [_ Hall]. rewrite forallb_forall in Hall.
        apply Hall in Hres. congruence.
      * assumption.
    + apply (inv_bound _ _ _ I).
Qed.

Lemma all_fulfilled_values (l : list (settlement T)) :
  (forall p, (p < length l)%nat -> exists x, l !! p = Some (Fulfils x)) ->
  map Fulfils (omap (value_of l) (seq 0 (length l))) = l.
Proof.
  induction l as [|t l IH] using rev_ind; intros H; [reflexivity|].
  rewrite length_app. cbn [length]. rewrite Nat.add_1_r, seq_S, omap_app, map_app.
  cbn [Nat.add].
  assert (Hpre : omap (value_of (l ++ [t])) (seq 0 (length l)) =
                 omap (value_of l) (seq 0 (length l))).
  { apply omap_pointwise. intros p Hp. apply in_seq in Hp.
    unfold value_of. rewrite lookup_app_l by lia. reflexivity. }
  rewrite Hpre, IH.
  - f_equal.
    destruct (H (length l)) as [x Hx]; [rewrite length_app; cbn; lia|].
    cbn [omap list_omap]. unfold value_of. rewrite Hx. cbn.
    rewrite list_lookup_middle in Hx by reflexivity.
    injection Hx as ->. reflexivity.
  - intros p Hp. destruct (H p) as [x Hx]; [rewrite length_app; cbn; lia|].
    exists x. rewrite lookup_app_l in Hx by lia. assumption.
Qed.

Lemma join_invariant (s s' : state T) :
  invariant tasks limit s -> step v tasks limit s Join = Some s' ->
  invariant tasks limit s'.
Proof.
  intros I Hstep. cbn [step] in Hstep.
  destruct (at_ s) eqn:Hat; try discriminate.
  destruct (tasks !! next s) as [t|] eqn:Ht; try discriminate.
  injection Hstep as <-.
  constructor; cbn [next results executing settled at_]; try apply I.
  destruct (existsb _ _) eqn:Ex.
  - eapply existsb_rejected_task. eassumption.
  - split; [|reflexivity].
    apply lookup_ge_None in Ht. pose proof (inv_next _ _ _ I). lia.
Qed.

Lemma return_invariant (s s' : state T) :
  invariant tasks limit s -> step v tasks limit s Return = Some s' ->
  invariant tasks limit s'.
Proof.
  intros I Hstep. cbn [step] in Hstep.
  destruct (at_ s) eqn:Hat; try discriminate.
  destruct (forallb _ _) eqn:Hall; try discriminate.
  injection Hstep as <-.
  pose proof (inv_phase _ _ _ I) as Hph. rewrite Hat in Hph.
  destruct Hph as [Hn Hrej].
  constructor; cbn [next results executing settled at_]; try apply I.
  split; [|assumption].
  rewrite (inv_results _ _ _ I), Hn. symmetry. apply all_fulfilled_values.
  intros p Hp.
  assert (Hin : In p (results s)) by (apply (results_lt s p I); lia).
  rewrite forallb_forall in Hall. specialize (Hall p Hin).
  destruct (tasks !! p) as [[x|]|] eqn:Htp.
  - exists x. reflexivity.
  - exfalso.
    assert (Hr : existsb (is_rejected tasks (settled s)) (results s) = true).
    { apply existsb_exists. exists p. split; [assumption|].
      unfold is_rejected. rewrite Hall, Htp. reflexivity. }
    congruence.
  - apply lookup_ge_None in Htp. lia.
Qed.

Lemma step_invariant (s s' : state T) (e : event) :
  invariant tasks limit s -> step v tasks limit s e = Some s' ->
  invariant tasks limit s'.
Proof.
  destruct e.
  - apply dispatch_invariant.
  - apply settle_invariant.
  - apply join_invariant.
  - apply return_invariant.
Qed.

Lemma exec_invariant (es : list event) (s s' : state T) :
  invariant tasks limit s -> exec v tasks limit s es = Some s' ->
  invariant tasks limit s'.
Proof.
  revert s. induction es as [|e es IH]; intros s I H; cbn [exec] in H.
  - injection H as <-. assumption.
  - destruct (step v tasks limit s e) as [s1|] eqn:E; [|discriminate].
    eapply IH; [|eassumption]. eapply step_invariant; eassumption.
Qed.

Lemma reachable_invariant (s : state T) :
  reachable v tasks limit s -> invariant tasks limit s.
Proof.
  intros [es H]. eapply exec_invariant; [apply init_invariant | eassumption].
Qed.

Lemma exec_app (es1 es2 : list event) (s : state T) :
  exec v tasks limit s (es1 ++ es2) =
  match exec v tasks limit s es1 with
  | Some s1 => exec v tasks limit s1 es2
  | None => None
  end.
Proof.
  revert s. induction es1 as [|e es1 IH]; intros s; cbn [exec app]; [reflexivity|].
  destruct (step v tasks limit s e); [apply IH | reflexivity].
Qed.

(** The tasks in flight are among the promises of [executing]. *)
Lemma in_flight_le_executing (s : state T) :
  invariant tasks limit s ->
  (length (in_flight s) <= length (executing s))%nat.
Proof.
  intros I. unfold in_flight. rewrite (inv_executing _ _ _ I).
  apply filter_length_weaker. intros p _ Hp.
  apply negb_true_iff in Hp. rewrite not_settled_not_fulfilled by assumption.
  reflexivity.
Qed.

(** While the loop is suspended at the race, [executing] holds exactly the
    tasks in flight. *)
Lemma waiting_in_flight (s : state T) :
  invariant tasks limit s -> at_ s = Waiting -> in_flight s = executing s.
Proof.
  intros I Hat. pose proof (inv_phase _ _ _ I) as Hph. rewrite Hat in Hph.
  destruct Hph as (Hrej & _ & _).
  unfold in_flight. rewrite (inv_executing _ _ _ I). apply filter_pointwise.
  intros p Hp. destruct (mem p (settled s)) eqn:Hm.
  - cbn [negb]. symmetry. apply negb_false_iff.
    unfold is_fulfilled. rewrite Hm. cbn [andb].
    destruct (tasks !! p) as [[x|]|] eqn:Htp; [reflexivity| |].
    + exfalso.
      assert (Hr : existsb (is_rejected tasks (settled s)) (executing s) = true).
      { apply existsb_exists. exists p. split.
        - rewrite (inv_executing _ _ _ I). apply filter_In. split; [assumption|].
          unfold is_fulfilled. rewrite Htp, andb_false_r. reflexivity.
        - unfold is_rejected. rewrite Hm, Htp. reflexivity. }
      congruence.
    + apply lookup_ge_None in Htp. apply (results_lt s p I) in Hp.
      pose proof (inv_next _ _ _ I). lia.
  - rewrite not_settled_not_fulfilled by assumption. reflexivity.
Qed.

(** Every event uses up some of the measure: no run goes on for ever. *)
Lemma step_measure (s s' : state T) (e : event) :
  step v tasks limit s e = Some s' ->
  (measure tasks s' < measure tasks s)%nat.
Proof.
  unfold measure, queued, in_flight. destruct e; cbn [step]; intros Hstep.
  - destruct (at_ s) eqn:Hat; try discriminate.
    destruct (tasks !! next s) as [t|] eqn:Ht; try discriminate.
    injection Hstep as <-. cbn [next results settled at_ rank].
    apply lookup_lt_Some in Ht.
    rewrite List.filter_app, length_app. cbn [List.filter].
    assert (Hr : forall ph : phase T, (rank ph <= 2)%nat) by (intros []; cbn; lia).
    match goal with |- context [rank ?ph] => specialize (Hr ph) end.
    destruct (negb (mem (next s) (settled s))); cbn [length]; lia.
  - destruct (mem p (results s) && negb (mem p (settled s))) eqn:Hen; try discriminate.
    apply andb_true_iff in Hen as [Hres Hns].
    apply mem_In in Hres.
    assert (Hlt : (length (List.filter (fun q => negb (mem q (p :: settled s))) (results s))
                   < length (List.filter (fun q => negb (mem q (settled s))) (results s)))%nat).
    { apply filter_length_lt with (y := p); try assumption.
      - intros q _. rewrite mem_cons, negb_orb. intros H.
        apply andb_true_iff in H as [_ H]. assumption.
      - rewrite mem_cons, Nat.eqb_refl. reflexivity. }
    destruct (tasks !! p) as [[x|]|]; try discriminate; injection Hstep as <-;
      cbn [next results settled at_]; destruct (at_ s); cbn [rank]; lia.
  - destruct (at_ s) eqn:Hat; try discriminate.
    destruct (tasks !! next s); try discriminate.
    injection Hstep as <-. cbn [next results settled at_ rank].
    destruct (existsb _ _); cbn [rank]; lia.
  - destruct (at_ s) eqn:Hat; try discriminate.
    destruct (forallb _ _); try discriminate.
    injection Hstep as <-. cbn [next results settled at_ rank]. lia.
Qed.

Lemma exec_measure (es : list event) (s s' : state T) :
  exec v tasks limit s es = Some s' ->
  (length es + measure tasks s' <= measure tasks s)%nat.
Proof.
  revert s. induction es as [|e es IH]; intros s H; cbn [exec] in H.
  - injection H as <-. cbn. lia.
  - destruct (step v tasks limit s e) as [s1|] eqn:E; [|discriminate].
    apply step_measure in E. apply IH in H. cbn [length]. lia.
Qed.

Lemma forallb_false_witness {A} (f : A -> bool) (l : list A) :
  forallb f l = false -> exists x, In x l /\ f x = false.
Proof.
  induction l as [|x l IH]; intros H; [discriminate|].
  cbn [forallb] in H. destruct (f x) eqn:E.
  - destruct (IH H) as [y [Hy Hf]]. exists y. split; [right|]; assumption.
  - exists x. split; [left; reflexivity | assumption].
Qed.

Section NoRejection.

(** The tasks whose promises are all fulfilled, as those of [main] are. *)
Hypothesis no_rejection : forall p, tasks !! p <> Some Rejects.

Lemma started_fulfils (s : state T) (p : nat) :
  invariant tasks limit s -> In p (results s) ->
  exists x, tasks !! p = Some (Fulfils x).
Proof.
  intros I Hin. apply (results_lt s p I) in Hin.
  pose proof (inv_next _ _ _ I) as Hn.
  destruct (tasks !! p) as [[x|]|] eqn:E.
  - exists x. reflexivity.
  - exfalso. eapply no_rejection. eassumption.
  - apply lookup_ge_None in E. lia.
Qed.

Lemma never_thrown (s : state T) :
  invariant tasks limit s -> at_ s <> Thrown.
Proof.
  intros I Hat. pose proof (inv_phase _ _ _ I) as Hph. rewrite Hat in Hph.
  destruct Hph as [p Hp]. eapply no_rejection. eassumption.
Qed.

(** A run that has not returned can go on. *)
Lemma progress (s : state T) :
  invariant tasks limit s ->
  (exists out, at_ s = Returned out) \/ (exists e s', step v tasks limit s e = Some s').
Proof.
  intros I. pose proof (inv_phase _ _ _ I) as Hph.
  destruct (at_ s) eqn:Hat.
  - right. destruct (tasks !! next s) as [t|] eqn:Ht.
    + exists Dispatch. cbn [step]. rewrite Hat, Ht. eauto.
    + exists Join. cbn [step]. rewrite Hat, Ht. eauto.
  - right. destruct Hph as (_ & Hne & _).
    rewrite <- (waiting_in_flight s I Hat) in Hne.
    destruct (in_flight s) as [|p l] eqn:Hfl; [congruence|].
    assert (Hp : In p (in_flight s)) by (rewrite Hfl; left; reflexivity).
    unfold in_flight in Hp. apply filter_In in Hp as [Hin Hns].
    destruct (started_fulfils s p I Hin) as [x Hx].
    exists (Settle p). cbn [step].
    rewrite (proj2 (mem_In p (results s)) Hin), Hns, Hx. cbn [andb]. eauto.
  - right. destruct (forallb (fun p => mem p (settled s)) (results s)) eqn:Hall.
    + exists Return. cbn [step]. rewrite Hat, Hall. eauto.
    + apply forallb_false_witness in Hall as [p [Hin Hns]].
      destruct (started_fulfils s p I Hin) as [x Hx].
      exists (Settle p). cbn [step].
      rewrite (proj2 (mem_In p (results s)) Hin), Hns, Hx. cbn [andb negb]. eauto.
  - left. eauto.
  - exfalso. eapply never_thrown; eassumption.
Qed.

(** Every run can be brought to its end, where the function returns. *)
Lemma completes (s : state T) :
  invariant tasks limit s ->
  exists es s' out, exec v tasks limit s es = Some s' /\ at_ s' = Returned out.
Proof.
  remember (measure tasks s) as n eqn:Hn. revert s Hn.
  induction n as [n IH] using lt_wf_ind. intros s Hn I.
  destruct (progress s I) as [[out Hout]|[e [s1 Hstep]]].
  - exists [], s, out. split; [reflexivity | assumption].
  - pose proof (step_measure _ _ _ Hstep) as Hlt.
    destruct (IH (measure tasks s1)) with (s := s1) as (es & s' & out & Hex & Hout).
    + lia.
    + reflexivity.
    + eapply step_invariant; eassumption.
    + exists (e :: es), s', out. cbn [exec]. rewrite Hstep. split; assumption.
Qed.

End NoRejection.

(** What the function returns is read off [results], which is in the order
    of the tasks. *)
Lemma returned_values (es : list event) (s : state T) (out : list T) :
  exec v tasks limit init es = Some s -> at_ s = Returned out ->
  tasks = map Fulfils out.
Proof.
  intros Hex Hat.
  assert (I : invariant tasks limit s) by (apply reachable_invariant; exists es; assumption).
  pose proof (inv_phase _ _ _ I) as Hph. rewrite Hat in Hph. apply Hph.
Qed.

Lemma filter_remove_length_eq (l : list nat) (p : nat) :
  List.NoDup l -> In p l ->
  S (length (List.filter (fun q => negb (Nat.eqb q p)) l)) = length l.
Proof.
  induction l as [|q l IH]; intros Hnd Hin; [destruct Hin|].
  inversion Hnd as [|? ? Hq Hnd']; subst.
  cbn [List.filter length]. destruct (Nat.eqb q p) eqn:E; cbn [negb length].
  - apply Nat.eqb_eq in E. subst q. rewrite filter_id_notin by assumption. reflexivity.
  - destruct Hin as [->|Hin]; [rewrite Nat.eqb_refl in E; discriminate|].
    rewrite IH by assumption. reflexivity.
Qed.

(** One task finishing while the loop is suspended: the loop resumes with
    one slot free. *)
Lemma wake_up (s : state T) (p : nat) (x : T) :
  invariant tasks limit s -> at_ s = Waiting ->
  In p (in_flight s) -> tasks !! p = Some (Fulfils x) ->
  exists s1, step v tasks limit s (Settle p) = Some s1
             /\ at_ s1 = Ready
             /\ next s1 = next s
             /\ S (length (in_flight s1)) = length (in_flight s).
Proof.
  intros I Hat Hin Hp.
  pose proof Hin as Hin'. unfold in_flight in Hin'.
  apply filter_In in Hin' as [Hres Hns].
  eexists. split.
  - cbn [step]. rewrite (proj2 (mem_In p (results s)) Hres), Hns, Hp.
    cbn [andb]. reflexivity.
  - rewrite Hat. cbn [at_ next]. split; [reflexivity|]. split; [reflexivity|].
    unfold in_flight at 1. cbn [results settled].
    rewrite <- (filter_remove_length_eq (in_flight s) p).
    + f_equal. f_equal. unfold in_flight. apply filter_filter_and.
      intros q _. rewrite mem_cons, negb_orb. apply andb_comm.
    + unfold in_flight. apply List.NoDup_filter. eapply results_NoDup. eassumption.
    + assumption.
Qed.

(** A turn of the loop puts the next task in flight and takes none out. *)
Lemma dispatch_next (s : state T) (t : settlement T) :
  invariant tasks limit s -> at_ s = Ready -> tasks !! next s = Some t ->
  exists s2, step v tasks limit s Dispatch = Some s2
             /\ in_flight s2 = in_flight s ++ [next s].
Proof.
  intros I Hat Ht. eexists. split.
  - cbn [step]. rewrite Hat, Ht. reflexivity.
  - unfold in_flight. cbn [results settled]. rewrite List.filter_app.
    cbn [List.filter]. rewrite (next_not_settled s I). reflexivity.
Qed.

End Invariant.

End PoolFacts.


(** ** Buffers and loops *)

Module BufferFacts.

Lemma wrap32_small (n : Z) : - 2 ^ 31 <= n < 2 ^ 31 -> wrap32 n = n.
Proof.
  intros H. unfold wrap32. rewrite Z.mod_small by lia. lia.
Qed.

(** [n << 2] is [4 * n] as long as the product is a 32-bit integer. *)
Lemma shl2_small (n : Z) : 0 <= n -> 4 * n < 2 ^ 31 -> shl n 2 = 4 * n.
Proof.
  intros H0 H. unfold shl. rewrite (wrap32_small n) by lia.
  rewrite Z.shiftl_mul_pow2 by lia.
  replace (n * 2 ^ 2) with (4 * n) by lia. apply wrap32_small. lia.
Qed.

Lemma buf_write_length (d : buffer) (i : Z) (v : option Z) :
  length (buf_write d i v) = length d.
Proof.
  unfold buf_write. destruct (i <? 0); [reflexivity | apply length_insert].
Qed.

Lemma buf_read_write (d : buffer) (i j : Z) (v : option Z) :
  buf_read (buf_write d i v) j =
  if (i =? j) && (0 <=? i) && (i <? Z.of_nat (length d))
  then Some (to_uint8 v) else buf_read d j.
Proof.
  unfold buf_read, buf_write.
  destruct (j <? 0) eqn:Ej.
  - destruct (i =? j) eqn:E; [|reflexivity].
    apply Z.eqb_eq in E. subst. replace (0 <=? j) with false by lia. reflexivity.
  - destruct (i <? 0) eqn:Ei.
    + replace (0 <=? i) with false by lia. rewrite andb_false_r. reflexivity.
    + replace (0 <=? i) with true by lia. rewrite andb_true_r.
      destruct (i =? j) eqn:E.
      * apply Z.eqb_eq in E. subst j. cbn [andb].
        destruct (i <? Z.of_nat (length d)) eqn:El.
        -- apply list_lookup_insert_eq. lia.
        -- rewrite list_insert_ge by lia. reflexivity.
      * cbn [andb]. apply list_lookup_insert_ne. lia.
Qed.

Lemma buf_read_Some (d : buffer) (j : Z) :
  0 <= j < Z.of_nat (length d) -> exists b, buf_read d j = Some b.
Proof.
  intros H. unfold buf_read. replace (j <? 0) with false by lia.
  destruct (lookup_lt_is_Some_2 d (Z.to_nat j)) as [b Hb]; [lia|].
  exists b. assumption.
Qed.

Lemma buf_read_byte (d : buffer) (j b : Z) :
  Forall is_byte d -> buf_read d j = Some b -> is_byte b.
Proof.
  unfold buf_read. intros Hd H. destruct (j <? 0); [discriminate|].
  rewrite Forall_lookup in Hd. eapply Hd. eassumption.
Qed.

Lemma buf_read_alloc (n fill j : Z) :
  0 <= j < n -> buf_read (alloc n fill) j = Some (fill mod 256).
Proof.
  intros H. unfold buf_read, alloc. replace (j <? 0) with false by lia.
  apply lookup_replicate_2. lia.
Qed.

Lemma alloc_length (n fill : Z) : 0 <= n -> Z.of_nat (length (alloc n fill)) = n.
Proof. intros H. unfold alloc. rewrite length_replicate. lia. Qed.

Lemma in_range (n i : Z) : In i (range n) <-> 0 <= i < n.
Proof.
  unfold range. rewrite in_map_iff. split.
  - intros [k [<- Hk]]. apply in_seq in Hk. lia.
  - intros H. exists (Z.to_nat i). split; [lia|]. apply in_seq. lia.
Qed.

(** One store. *)
Lemma stores_write (i : Z) (v : option Z) (val : Z -> Z) :
  to_uint8 v = val i ->
  stores (fun d => buf_write d i v) (fun j => j = i) val.
Proof.
  intros Hv d j. split; [apply buf_write_length|].
  rewrite buf_read_write. split.
  - destruct ((i =? j) && (0 <=? i) && (i <? Z.of_nat (length d))) eqn:E.
    + right. apply andb_true_iff in E as [E _]. apply andb_true_iff in E as [E _].
      apply Z.eqb_eq in E. subst j. rewrite Hv. split; reflexivity.
    + left. reflexivity.
  - intros Hji Hj. subst j. replace (i =? i) with true by lia.
    replace (0 <=? i) with true by lia.
    replace (i <? Z.of_nat (length d)) with true by lia.
    cbn [andb]. rewrite Hv. reflexivity.
Qed.

Lemma stores_id (val : Z -> Z) : stores (fun d => d) (fun _ => False) val.
Proof.
  intros d j. split; [reflexivity|]. split; [left; reflexivity|]. intros [].
Qed.

(** One update after another. *)
Lemma stores_seq (u1 u2 : buffer -> buffer) (P1 P2 : Z -> Prop) (val : Z -> Z) :
  stores u1 P1 val -> stores u2 P2 val ->
  stores (fun d => u2 (u1 d)) (fun j => P1 j \/ P2 j) val.
Proof.
  intros H1 H2 d j.
  destruct (H1 d j) as (L1 & K1 & W1). destruct (H2 (u1 d) j) as (L2 & K2 & W2).
  split; [congruence|]. split.
  - destruct K2 as [K2|[Q2 K2]].
    + destruct K1 as [K1|[Q1 K1]].
      * left. congruence.
      * right. split; [left; assumption | congruence].
    + right. split; [right; assumption | assumption].
  - intros [Q|Q] Hj.
    + destruct K2 as [K2|[Q2 K2]]; [|assumption].
      rewrite K2. apply W1; assumption.
    + apply W2; [assumption | lia].
Qed.

Lemma stores_weaken (u : buffer -> buffer) (P Q : Z -> Prop) (val : Z -> Z) :
  (forall j, P j <-> Q j) -> stores u P val -> stores u Q val.
Proof.
  intros HPQ H d j. destruct (H d j) as (L & K & W).
  split; [assumption|]. split.
  - destruct K as [K|[HP K]]; [left; assumption|].
    right. split; [apply HPQ|]; assumption.
  - intros HQ. apply W, HPQ. assumption.
Qed.

(** A loop of updates. *)
Lemma stores_fold (l : list Z) (body : Z -> buffer -> buffer)
  (P : Z -> Z -> Prop) (val : Z -> Z) :
  (forall i, In i l -> stores (body i) (P i) val) ->
  stores (fun d => fold_left (fun s i => body i s) l d)
         (fun j => exists i, In i l /\ P i j) val.
Proof.
  induction l as [|i l IH]; intros H.
  - cbn [fold_left]. eapply stores_weaken; [|apply stores_id].
    intros j. split; [intros [] | intros [i [[] _]]].
  - cbn [fold_left].
    eapply stores_weaken;
      [|apply (stores_seq (body i) (fun d => fold_left (fun s i => body i s) l d)
                 (P i) (fun j => exists i', In i' l /\ P i' j))].
    + intros j. split.
      * intros [Hi|[i' [Hin HP]]].
        -- exists i. split; [left; reflexivity | assumption].
        -- exists i'. split; [right|]; assumption.
      * intros [i' [[<-|Hin] HP]]; [left; assumption|].
        right. exists i'. split; assumption.
    + apply H. left. reflexivity.
    + apply IH. intros i' Hi'. apply H. right. assumption.
Qed.

Lemma stores_for_range (n : Z) (body : Z -> buffer -> buffer)
  (P : Z -> Z -> Prop) (val : Z -> Z) :
  (forall i, 0 <= i < n -> stores (body i) (P i) val) ->
  stores (for_range n body) (fun j => exists i, 0 <= i < n /\ P i j) val.
Proof.
  intros H. unfold for_range.
  eapply stores_weaken; [|apply (stores_fold (range n) body P val)].
  - intros j. split; intros [i [Hi HP]]; exists i; (split; [|assumption]);
      apply in_range; assumption.
  - intros i Hi. apply H, in_range. assumption.
Qed.

Lemma for_range_length (n : Z) (body : Z -> buffer -> buffer) (d : buffer) :
  (forall i d, length (body i d) = length d) ->
  length (for_range n body d) = length d.
Proof.
  intros H. unfold for_range. generalize (range n). intros l. revert d.
  induction l as [|i l IH]; intros d; cbn [fold_left]; [reflexivity|].
  rewrite IH. apply H.
Qed.

End BufferFacts.

(** ** [padImage] of [compare_optimized.ts], first variant *)

Module PadFacts.

Import BufferFacts Optimized.

Lemma at_pixel_cases (idx j : Z) :
  at_pixel idx j <-> (((j = idx \/ j = idx + 1) \/ j = idx + 2) \/ j = idx + 3).
Proof. unfold at_pixel. lia. Qed.

Lemma write_white_stores (idx : Z) (val : Z -> Z) :
  (forall j, at_pixel idx j -> val j = 255) ->
  stores (fun d => write_white d idx) (at_pixel idx) val.
Proof.
  intros Hv.
  eapply stores_weaken; [intros j; symmetry; apply at_pixel_cases|].
  assert (H0 : to_uint8 (Some 255) = val idx)
    by (rewrite Hv by (unfold at_pixel; lia); reflexivity).
  assert (H1 : to_uint8 (Some 255) = val (idx + 1))
    by (rewrite Hv by (unfold at_pixel; lia); reflexivity).
  assert (H2 : to_uint8 (Some 255) = val (idx + 2))
    by (rewrite Hv by (unfold at_pixel; lia); reflexivity).
  assert (H3 : to_uint8 (Some 255) = val (idx + 3))
    by (rewrite Hv by (unfold at_pixel; lia); reflexivity).
  exact (stores_seq _ _ _ _ val
           (stores_seq _ _ _ _ val
              (stores_seq _ _ _ _ val
                 (stores_write idx (Some 255) val H0)
                 (stores_write (idx + 1) (Some 255) val H1))
              (stores_write (idx + 2) (Some 255) val H2))
           (stores_write (idx + 3) (Some 255) val H3)).
Qed.

Lemma copy_pixel_stores (src : buffer) (srcIdx dstIdx : Z) (val : Z -> Z) :
  (forall c, 0 <= c < 4 -> val (dstIdx + c) = to_uint8 (buf_read src (srcIdx + c))) ->
  stores (fun d => copy_pixel src srcIdx d dstIdx) (at_pixel dstIdx) val.
Proof.
  intros Hv.
  eapply stores_weaken; [intros j; symmetry; apply at_pixel_cases|].
  assert (H0 : to_uint8 (buf_read src srcIdx) = val dstIdx).
  { pose proof (Hv 0 ltac:(lia)) as E. rewrite !Z.add_0_r in E. congruence. }
  assert (H1 : to_uint8 (buf_read src (srcIdx + 1)) = val (dstIdx + 1))
    by (rewrite Hv by lia; reflexivity).
  assert (H2 : to_uint8 (buf_read src (srcIdx + 2)) = val (dstIdx + 2))
    by (rewrite Hv by lia; reflexivity).
  assert (H3 : to_uint8 (buf_read src (srcIdx + 3)) = val (dstIdx + 3))
    by (rewrite Hv by lia; reflexivity).
  exact (stores_seq _ _ _ _ val
           (stores_seq _ _ _ _ val
              (stores_seq _ _ _ _ val
                 (stores_write dstIdx _ val H0)
                 (stores_write (dstIdx + 1) _ val H1))
              (stores_write (dstIdx + 2) _ val H2))
           (stores_write (dstIdx + 3) _ val H3)).
Qed.

(** The pixel an index belongs to. *)
Lemma pixel_of_index (W x y c : Z) :
  0 <= x < W -> 0 <= c < 4 ->
  let j := pixel_index W x y + c in
  (j / 4) mod W = x /\ (j / 4) / W = y /\ j mod 4 = c.
Proof.
  intros Hx Hc j. unfold pixel_index in j.
  assert (Hq : j / 4 = W * y + x).
  { subst j. symmetry. apply (Z.div_unique _ 4 _ c); lia. }
  rewrite Hq. split; [|split].
  - symmetry. apply (Z.mod_unique _ W y x); lia.
  - symmetry. apply (Z.div_unique _ W y x); lia.
  - subst j. symmetry. apply (Z.mod_unique _ 4 (W * y + x) c); lia.
Qed.

Lemma pixel_index_bound (W H x y c : Z) :
  0 <= x < W -> 0 <= y < H -> 0 <= c < 4 ->
  0 <= pixel_index W x y + c < 4 * (W * H).
Proof. intros Hx Hy Hc. unfold pixel_index. nia. Qed.

(** The first loop nest stores 255 at every byte of every pixel. *)
Lemma fill_white_stores (W H : Z) :
  4 * (W * H) < 2 ^ 31 ->
  stores (fill_white W H)
    (fun j => exists y, 0 <= y < H /\ exists x, 0 <= x < W /\ at_pixel (pixel_index W x y) j)
    (fun _ => 255).
Proof.
  intros Hb. unfold fill_white.
  apply (stores_for_range H _
           (fun y j => exists x, 0 <= x < W /\ at_pixel (pixel_index W x y) j)).
  intros y Hy.
  apply (stores_for_range W _ (fun x j => at_pixel (pixel_index W x y) j)).
  intros x Hx. cbn zeta.
  rewrite shl2_small by nia.
  apply write_white_stores. reflexivity.
Qed.

(** The second loop nest stores the source at the pixels it covers. *)
Lemma copy_source_stores (img : RawImage) (W H : Z) :
  4 * (W * H) < 2 ^ 31 -> 4 * (width img * height img) < 2 ^ 31 ->
  stores (copy_source img W H)
    (fun j => exists y, 0 <= y < height img /\ exists x, 0 <= x < width img
              /\ x < W /\ y < H /\ at_pixel (pixel_index W x y) j)
    (source_byte img W).
Proof.
  intros Hb Hs. unfold copy_source.
  apply (stores_for_range (height img) _
           (fun y j => exists x, 0 <= x < width img
                       /\ x < W /\ y < H /\ at_pixel (pixel_index W x y) j)).
  intros y Hy.
  apply (stores_for_range (width img) _
           (fun x j => x < W /\ y < H /\ at_pixel (pixel_index W x y) j)).
  intros x Hx. cbn zeta.
  destruct ((x <? W) && (y <? H)) eqn:G.
  - apply andb_true_iff in G as [Gx Gy].
    apply Z.ltb_lt in Gx. apply Z.ltb_lt in Gy.
    rewrite !shl2_small by nia.
    eapply stores_weaken;
      [|apply (copy_pixel_stores (data img) (4 * (width img * y + x))
                 (4 * (W * y + x)) (source_byte img W))].
    + intros j. unfold pixel_index. tauto.
    + intros c Hc. unfold source_byte.
      destruct (pixel_of_index W x y c) as (E1 & E2 & E3); [lia | lia |].
      unfold pixel_index in E1, E2, E3. rewrite E1, E2, E3. reflexivity.
  - eapply stores_weaken; [|apply stores_id].
    intros j. split; [intros []|]. intros (Gx & Gy & _).
    apply andb_false_iff in G as [G|G]; apply Z.ltb_ge in G; lia.
Qed.

(** The padded image, pixel by pixel: the source where the source was
    copied, opaque white everywhere else. *)
Lemma padImage_pixels (img : RawImage) (W H : Z) :
  wf_image img -> 0 < W -> 0 < H ->
  4 * (W * H) < 2 ^ 31 -> 4 * (width img * height img) < 2 ^ 31 ->
  width img <> W \/ height img <> H ->
  exists padded,
    padImage img W H = Ok padded
    /\ width padded = W /\ height padded = H
    /\ Z.of_nat (length (data padded)) = 4 * (W * H)
    /\ forall x y, 0 <= x < W -> 0 <= y < H ->
       read_pixel (data padded) W x y =
       if (x <? width img) && (y <? height img)
       then read_pixel (data img) (width img) x y
       else opaque_white.
Proof.
  intros Hwf HW HH Hb Hs Hne. unfold padImage.
  replace ((width img =? W) && (height img =? H)) with false
    by (symmetry; apply andb_false_iff; lia).
  unfold new_PNG. replace ((0 <? W) && (0 <? H)) with true
    by (symmetry; apply andb_true_iff; lia).
  eexists. split; [reflexivity|]. cbn [width height data].
  split; [reflexivity|]. split; [reflexivity|].
  pose proof (fill_white_stores W H Hb) as F.
  pose proof (copy_source_stores img W H Hb Hs) as C.
  set (d0 := alloc (4 * W * H) 0).
  assert (L0 : Z.of_nat (length d0) = 4 * (W * H))
    by (subst d0; rewrite alloc_length; lia).
  set (d1 := fill_white W H d0).
  assert (L1 : length d1 = length d0) by (subst d1; apply F; exact 0).
  set (d2 := copy_source img W H d1).
  assert (L2 : length d2 = length d1) by (subst d2; apply C; exact 0).
  split; [lia|].
  intros x y Hx Hy. unfold read_pixel. cbn [map].
  assert (Hbyte : forall c, 0 <= c < 4 ->
            buf_read d2 (pixel_index W x y + c) =
            if (x <? width img) && (y <? height img)
            then buf_read (data img) (pixel_index (width img) x y + c)
            else Some 255).
  { intros c Hc. set (j := pixel_index W x y + c).
    pose proof (pixel_index_bound W H x y c Hx Hy Hc) as Hj. fold j in Hj.
    destruct (C d1 j) as (_ & K2 & W2). fold d2 in K2, W2.
    destruct ((x <? width img) && (y <? height img)) eqn:G.
    - apply andb_true_iff in G as [Gx Gy].
      apply Z.ltb_lt in Gx. apply Z.ltb_lt in Gy.
      rewrite W2.
      + unfold source_byte.
        destruct (pixel_of_index W x y c) as (E1 & E2 & E3); [lia | lia |].
        fold j in E1, E2, E3. rewrite E1, E2, E3.
        destruct (buf_read_Some (data img) (pixel_index (width img) x y + c)) as [b Hb'].
        { rewrite (wf_length _ Hwf).
          apply (pixel_index_bound (width img) (height img)); lia. }
        rewrite Hb'. cbn [to_uint8]. f_equal.
        apply Z.mod_small. eapply buf_read_byte; [apply (wf_bytes _ Hwf) | eassumption].
      + exists y. split; [lia|]. exists x. split; [lia|].
        split; [lia|]. split; [lia|]. unfold at_pixel. subst j. lia.
      + lia.
    - assert (Hout : ~ (exists y', 0 <= y' < height img /\ exists x', 0 <= x' < width img
                         /\ x' < W /\ y' < H /\ at_pixel (pixel_index W x' y') j)).
      { intros (y' & Hy' & x' & Hx' & Gx & Gy & Hat).
        unfold at_pixel, pixel_index in Hat. subst j. unfold pixel_index in Hat.
        assert (W * y' + x' = W * y + x) by lia.
        assert (y' = y) by nia. assert (x' = x) by nia. subst.
        apply andb_false_iff in G as [G|G]; apply Z.ltb_ge in G; lia. }
      destruct K2 as [K2|[Q _]]; [|contradiction].
      rewrite K2. destruct (F d0 j) as (_ & _ & W1). fold d1 in W1.
      apply W1; [|lia].
      exists y. split; [lia|]. exists x. split; [lia|].
      unfold at_pixel. subst j. lia. }
  rewrite !Hbyte by lia.
  destruct ((x <? width img) && (y <? height img)); reflexivity.
Qed.

Lemma write_white_length (d : buffer) (idx : Z) :
  length (write_white d idx) = length d.
Proof. unfold write_white. rewrite !buf_write_length. reflexivity. Qed.

Lemma copy_pixel_length (src d : buffer) (srcIdx dstIdx : Z) :
  length (copy_pixel src srcIdx d dstIdx) = length d.
Proof. unfold copy_pixel. rewrite !buf_write_length. reflexivity. Qed.

Lemma buf_copy_length (src d : buffer) (targetStart sourceStart sourceEnd : Z) :
  length (buf_copy src d targetStart sourceStart sourceEnd) = length d.
Proof.
  unfold buf_copy. apply for_range_length. intros i d'.
  destruct (buf_read src (sourceStart + i)); [apply buf_write_length | reflexivity].
Qed.

(** Padding gives an image of the target size, whichever variant pads. *)
Lemma padImage_size (img padded : RawImage) (W H : Z) :
  wf_image img -> padImage img W H = Ok padded ->
  width padded = W /\ height padded = H
  /\ Z.of_nat (length (data padded)) = 4 * (W * H).
Proof.
  intros Hwf. unfold padImage.
  destruct ((width img =? W) && (height img =? H)) eqn:E.
  - intros Hp. injection Hp as <-.
    apply andb_true_iff in E as [E1 E2]. apply Z.eqb_eq in E1, E2.
    rewrite (wf_length _ Hwf). subst. auto.
  - unfold new_PNG. destruct ((0 <? W) && (0 <? H)) eqn:G; [|discriminate].
    apply andb_true_iff in G as [G1 G2]. apply Z.ltb_lt in G1, G2.
    intros Hp. injection Hp as <-. cbn [width height data].
    split; [reflexivity|]. split; [reflexivity|].
    unfold copy_source, fill_white.
    rewrite for_range_length.
    + rewrite for_range_length.
      * rewrite alloc_length; lia.
      * intros y d. apply for_range_length. intros x d'. apply write_white_length.
    + intros y d. apply for_range_length. intros x d'.
      destruct ((x <? W) && (y <? H)); [apply copy_pixel_length | reflexivity].
Qed.

Lemma padImage2_size (img padded : RawImage) (W H : Z) :
  wf_image img -> padImage2 img W H = Ok padded ->
  width padded = W /\ height padded = H
  /\ Z.of_nat (length (data padded)) = 4 * (W * H).
Proof.
  intros Hwf. unfold padImage2.
  destruct ((width img =? W) && (height img =? H)) eqn:E.
  - intros Hp. injection Hp as <-.
    apply andb_true_iff in E as [E1 E2]. apply Z.eqb_eq in E1, E2.
    rewrite (wf_length _ Hwf). subst. auto.
  - unfold new_PNG. destruct ((0 <? W) && (0 <? H)) eqn:G; [|discriminate].
    apply andb_true_iff in G as [G1 G2]. apply Z.ltb_lt in G1, G2.
    unfold bitblt. cbn [width height data bind].
    destruct ((width img >? W) || (height img >? H)); [discriminate|].
    cbn [bind]. intros Hp. injection Hp as <-. cbn [width height data].
    split; [reflexivity|]. split; [reflexivity|].
    rewrite for_range_length by (intros; apply buf_copy_length).
    rewrite length_map, alloc_length; lia.
Qed.

(** Padding an image to its own size gives the image back. *)
Lemma padImage_same (img : RawImage) : padImage img (width img) (height img) = Ok img.
Proof. unfold padImage. rewrite !Z.eqb_refl. reflexivity. Qed.

Lemma padImage2_same (img : RawImage) : padImage2 img (width img) (height img) = Ok img.
Proof. unfold padImage2. rewrite !Z.eqb_refl. reflexivity. Qed.

Lemma or0_id (w : Z) : or0 w = w.
Proof. unfold or0. destruct (w =? 0) eqn:E; [apply Z.eqb_eq in E; lia | reflexivity]. Qed.

(** Both operands of the differ have the size of the larger width and the
    larger height. *)
Lemma differ_operands_size (v : Pool.variant) (img1 img2 : RawImage)
  (d1 d2 : buffer) (W H : Z) :
  wf_image img1 -> wf_image img2 ->
  differ_operands v img1 img2 = Ok (d1, d2, W, H) ->
  W = Z.max (width img1) (width img2)
  /\ H = Z.max (height img1) (height img2)
  /\ Z.of_nat (length d1) = 4 * (W * H)
  /\ Z.of_nat (length d2) = 4 * (W * H).
Proof.
  intros Hwf1 Hwf2. destruct v; cbn [differ_operands]; rewrite ?or0_id.
  - destruct (padImage img1 _ _) as [p1|e] eqn:E1; cbn [bind]; [|discriminate].
    destruct (padImage img2 _ _) as [p2|e] eqn:E2; cbn [bind]; [|discriminate].
    intros Hd. injection Hd as <- <- <- <-.
    apply padImage_size in E1 as (_ & _ & L1); [|assumption].
    apply padImage_size in E2 as (_ & _ & L2); [|assumption].
    auto.
  - destruct (padImage2 img1 _ _) as [p1|e] eqn:E1; cbn [bind]; [|discriminate].
    destruct (padImage2 img2 _ _) as [p2|e] eqn:E2; cbn [bind]; [|discriminate].
    intros Hd. injection Hd as <- <- <- <-.
    apply padImage2_size in E1 as (_ & _ & L1); [|assumption].
    apply padImage2_size in E2 as (_ & _ & L2); [|assumption].
    auto.
Qed.

(** Decoded images can always be padded to their common size. *)
Lemma differ_operands_ok (v : Pool.variant) (img1 img2 : RawImage) :
  wf_image img1 -> wf_image img2 ->
  exists d1 d2 W H, differ_operands v img1 img2 = Ok (d1, d2, W, H).
Proof.
  intros Hwf1 Hwf2.
  pose proof (wf_width _ Hwf1). pose proof (wf_height _ Hwf1).
  pose proof (wf_width _ Hwf2). pose proof (wf_height _ Hwf2).
  destruct v; cbn [differ_operands]; rewrite ?or0_id.
  - unfold padImage, new_PNG.
    replace ((0 <? Z.max (width img1) (width img2))
             && (0 <? Z.max (height img1) (height img2))) with true
      by (symmetry; apply andb_true_iff; lia).
    destruct (_ && _); destruct (_ && _); cbn [bind]; eauto.
  - unfold padImage2, new_PNG, bitblt. cbn [width height data].
    replace ((0 <? Z.max (width img1) (width img2))
             && (0 <? Z.max (height img1) (height img2))) with true
      by (symmetry; apply andb_true_iff; lia).
    replace ((width img1 >? Z.max (width img1) (width img2))
             || (height img1 >? Z.max (height img1) (height img2))) with false
      by (symmetry; apply orb_false_iff; lia).
    replace ((width img2 >? Z.max (width img1) (width img2))
             || (height img2 >? Z.max (height img1) (height img2))) with false
      by (symmetry; apply orb_false_iff; lia).
    destruct (_ && _); destruct (_ && _); cbn [bind]; eauto.
Qed.

End PadFacts.

(** ** The tasks and the summary of [compare_optimized.ts] *)

Module OptimizedFacts.

Import Pool Optimized.

Lemma tasks_length (v : variant) (targets : list target) :
  length (tasks v targets) = length targets.
Proof. unfold tasks. apply length_map. Qed.

(** The promise of a task of [main] is never rejected. *)
Lemma tasks_no_rejection (v : variant) (targets : list target) (p : nat) :
  tasks v targets !! p <> Some Rejects.
Proof.
  unfold tasks. revert p. induction targets as [|t l IH]; intros [|p]; cbn;
    try discriminate. apply IH.
Qed.

Lemma map_Fulfils_inj {T} (l1 l2 : list T) :
  map Fulfils l1 = map Fulfils l2 -> l1 = l2.
Proof.
  revert l2. induction l1 as [|x l1 IH]; intros [|y l2] H; cbn in H;
    try discriminate; [reflexivity|].
  injection H as -> H. f_equal. apply IH. assumption.
Qed.

(** What the pool returns to [main]: one entry per target, in order. *)
Lemma pool_output (v : variant) (targets : list target) (limit : Z)
  (es : list event) (s : state (option ComparisonResult))
  (out : list (option ComparisonResult)) :
  exec v (tasks v targets) limit init es = Some s -> at_ s = Returned out ->
  out = map (run_task v) targets.
Proof.
  intros Hex Hat.
  pose proof (PoolFacts.returned_values v _ limit es s out Hex Hat) as Hv.
  unfold tasks in Hv. rewrite <- (map_map (run_task v) Fulfils) in Hv.
  symmetry. apply map_Fulfils_inj. exact Hv.
Qed.

Lemma filter_Boolean_map {A B} (f : A -> option B) (l : list A) :
  filter_Boolean (map f l) = omap f l.
Proof.
  unfold filter_Boolean. induction l as [|x l IH]; [reflexivity|].
  cbn. rewrite IH. destruct (f x); reflexivity.
Qed.

(** The report of [main], whatever the order in which the tasks finish. *)
Lemma main_report (v : variant) (targets : list target) (es : list event)
  (total_ms : Z) (results : list ComparisonResult) (summary : Summary) :
  main v targets es total_ms = Some (Report results summary) ->
  results = omap (run_task v) targets
  /\ summary = mkSummary (of_nat (length results)) (average results)
                 (div (of_Z total_ms) (of_Z 1000)).
Proof.
  unfold main, runWithConcurrencyLimit.
  destruct (length targets =? 0)%nat; [discriminate|].
  destruct (exec _ _ _ _ _) as [s|] eqn:Hex; [|discriminate].
  destruct (at_ s) as [| | |out|] eqn:Hat; try discriminate.
  intros H. injection H as <- <-.
  rewrite (pool_output v targets _ es s out Hex Hat), filter_Boolean_map.
  split; reflexivity.
Qed.

(** [main] does not end in [process.exit(1)] because of a target. *)
Lemma main_never_fails (v : variant) (targets : list target) (es : list event)
  (total_ms : Z) :
  main v targets es total_ms <> Some ProcessFailed.
Proof.
  unfold main, runWithConcurrencyLimit.
  destruct (length targets =? 0)%nat; [discriminate|].
  destruct (exec _ _ _ _ _) as [s|] eqn:Hex; [|discriminate].
  destruct (at_ s) eqn:Hat; try discriminate.
  exfalso.
  apply (PoolFacts.never_thrown (tasks v targets) concurrency
           (tasks_no_rejection v targets) s); [|assumption].
  apply (PoolFacts.reachable_invariant v). exists es. assumption.
Qed.

(** Every run of [main] that has begun can be brought to its report. *)
Lemma main_completes (v : variant) (targets : list target) (es : list event)
  (s : state (option ComparisonResult)) (total_ms : Z) :
  targets <> [] ->
  exec v (tasks v targets) concurrency init es = Some s ->
  exists es' results summary,
    main v targets (es ++ es') total_ms = Some (Report results summary).
Proof.
  intros Hne Hex.
  assert (I : invariant (tasks v targets) concurrency s)
    by (apply (PoolFacts.reachable_invariant v); exists es; assumption).
  destruct (PoolFacts.completes v _ concurrency (tasks_no_rejection v targets) s I)
    as (es' & s' & out & Hex' & Hat').
  exists es'. unfold main, runWithConcurrencyLimit.
  destruct targets as [|t l]; [congruence|]. cbn [length Nat.eqb].
  rewrite PoolFacts.exec_app, Hex, Hex', Hat'. eauto.
Qed.

Lemma omap_length_le {A B} (f : A -> option B) (l : list A) :
  (length (omap f l) <= length l)%nat.
Proof.
  induction l as [|x l IH]; [reflexivity|].
  cbn. destruct (f x); cbn; lia.
Qed.

Lemma omap_delete_None {A B} (f : A -> option B) (l : list A) (i : nat) (x : A) :
  l !! i = Some x -> f x = None -> omap f l = omap f (delete i l).
Proof.
  revert i. induction l as [|y l IH]; intros [|i] Hl Hf; cbn in *; try discriminate.
  - injection Hl as ->. rewrite Hf. reflexivity.
  - rewrite (IH i Hl Hf). reflexivity.
Qed.

(** A result carries the path of its target. *)
Lemma attempt_result_url (v : variant) (u : string) (a : attempt) (r : ComparisonResult) :
  attempt_result v u a = Ok r -> url r = u.
Proof.
  unfold attempt_result. destruct a as [d p sv ms|]; [|discriminate].
  destruct (compareScreenshots _ _ _ _ _) as [[n path]|e]; cbn; [|discriminate].
  intros H. injection H as <-. reflexivity.
Qed.

Lemma retry_url (v : variant) (u : string) (env : Z -> attempt) (l : list Z)
  (r : ComparisonResult) :
  retry v u env l = Some r -> url r = u.
Proof.
  induction l as [|a l IH]; cbn [retry]; [discriminate|].
  destruct (attempt_result v u (env a)) as [r'|e] eqn:E.
  - intros H. injection H as <-. eapply attempt_result_url. eassumption.
  - destruct (a =? 3); [discriminate | assumption].
Qed.

Lemma omap_urls (v : variant) (targets : list target) :
  map url (omap (run_task v) targets) =
  map fst (List.filter (fun t => match run_task v t with Some _ => true | None => false end)
             targets).
Proof.
  induction targets as [|t l IH]; [reflexivity|].
  cbn [omap list_omap List.filter]. destruct (run_task v t) as [r|] eqn:E.
  - cbn [map]. rewrite <- IH. f_equal.
    unfold run_task, task in E. eapply retry_url. eassumption.
  - assumption.
Qed.

(** Three failed attempts give [null]. *)
Lemma task_all_failed (v : variant) (u : string) (env : Z -> attempt) :
  (forall a, 1 <= a <= 3 -> is_ok (attempt_result v u (env a)) = false) ->
  task v u env = None.
Proof.
  intros H. unfold task. cbn [retry].
  pose proof (H 1 ltac:(lia)) as H1. pose proof (H 2 ltac:(lia)) as H2.
  pose proof (H 3 ltac:(lia)) as H3.
  destruct (attempt_result v u (env 1)); [discriminate|].
  destruct (attempt_result v u (env 2)); [discriminate|].
  destruct (attempt_result v u (env 3)); [discriminate|].
  reflexivity.
Qed.

Lemma average_nil : average [] = NaN.
Proof. reflexivity. Qed.

Lemma sum_finite (results : list ComparisonResult) (q : Q) :
  Forall (fun r => exists d, duration r = Fin d) results ->
  exists total,
    fold_left (fun sum r => add sum (duration r)) results (Fin q) = Fin total.
Proof.
  revert q. induction results as [|r l IH]; intros q Hall; cbn [fold_left].
  - exists q. reflexivity.
  - inversion Hall as [|? ? [d Hd] Hl]; subst. rewrite Hd. cbn [add].
    apply IH. assumption.
Qed.

(** With at least one result, the average is the sum of the durations
    divided by their number. *)
Lemma average_nonempty (results : list ComparisonResult) :
  results <> [] ->
  Forall (fun r => exists d, duration r = Fin d) results ->
  exists total,
    fold_left (fun sum r => add sum (duration r)) results (of_Z 0) = Fin total
    /\ average results = Fin (total / inject_Z (Z.of_nat (length results))).
Proof.
  intros Hne Hall. destruct (sum_finite results (inject_Z 0) Hall) as [total Ht].
  exists total. split; [exact Ht|].
  unfold average. unfold of_Z at 1. rewrite Ht. unfold of_nat, of_Z, div.
  destruct results as [|r l]; [congruence|]. reflexivity.
Qed.

(** The duration of a result is a finite number of seconds. *)
Lemma attempt_result_duration (v : variant) (u : string) (a : attempt)
  (r : ComparisonResult) :
  attempt_result v u a = Ok r -> exists d, duration r = Fin d.
Proof.
  unfold attempt_result. destruct a as [dv pr sv ms|]; [|discriminate].
  destruct (compareScreenshots _ _ _ _ _) as [[n path]|e]; cbn; [|discriminate].
  intros H. injection H as <-. cbn. eexists. reflexivity.
Qed.



Lemma retry_result (v : variant) (u : string) (env : Z -> attempt) (l : list Z)
  (r : ComparisonResult) :
  retry v u env l = Some r -> exists a, In a l /\ attempt_result v u (env a) = Ok r.
Proof.
  induction l as [|a l IH]; cbn [retry]; [discriminate|].
  destruct (attempt_result v u (env a)) as [r'|e] eqn:E.
  - intros H. injection H as <-. exists a. split; [left; reflexivity | assumption].
  - destruct (a =? 3); [discriminate|]. intros H.
    destruct (IH H) as [a' [Hin Ha']]. exists a'. split; [right|]; assumption.
Qed.


End OptimizedFacts.

(** ** [compareScreenshots] of [compare-screenshots.ts] and [compare.ts] *)

Module CompareScreenshotsFacts.

Import CompareScreenshots.



End CompareScreenshotsFacts.

Module CompareFacts.

Import Compare.






End CompareFacts.

(** ** The tabs of the tasks *)

Module TabsFacts.

Import Pool Optimized.

Lemma retry_healthy (v : variant) (u : string) (env : Z -> attempt)
  (tabs : Z -> Tabs.tab) (l : list Z) :
  (forall a, In a l -> Tabs.opens (tabs a) = true /\ Tabs.closes (tabs a) = true) ->
  Tabs.retry v u env tabs l = Fulfils (retry v u env l).
Proof.
  induction l as [|a l IH]; intros Hl; [reflexivity|].
  cbn [Tabs.retry retry].
  destruct (Hl a (or_introl eq_refl)) as [-> ->].
  destruct (attempt_result v u (env a)); [reflexivity|].
  destruct (a =? 3); [reflexivity|].
  apply IH. intros b Hb. apply Hl. right. assumption.
Qed.

Lemma task_healthy (v : variant) (u : string) (env : Z -> attempt)
  (tabs : Z -> Tabs.tab) :
  (forall a, 1 <= a <= 3 -> Tabs.opens (tabs a) = true /\ Tabs.closes (tabs a) = true) ->
  Tabs.task v u env tabs = Fulfils (task v u env).
Proof.
  intros H. apply retry_healthy. intros a Ha. apply H.
  cbn in Ha. lia.
Qed.

Lemma tasks_healthy (v : variant) (targets : list Tabs.target) :
  Tabs.healthy targets -> Tabs.tasks v targets = tasks v (map fst targets).
Proof.
  unfold Tabs.tasks, tasks. induction targets as [|t l IH]; intros H; [reflexivity|].
  cbn [map]. f_equal.
  - unfold Tabs.run_task, run_task. apply task_healthy.
    intros a Ha. apply (H t a); [left; reflexivity | assumption].
  - apply IH. intros t' a Ht' Ha. apply (H t' a); [right|]; assumption.
Qed.

(** With a browser that opens and closes every tab, [main] is
    [Optimized.main]. *)
Lemma main_healthy (v : variant) (targets : list Tabs.target) (es : list event)
  (total_ms : Z) :
  Tabs.healthy targets ->
  Tabs.main v targets es total_ms = main v (map fst targets) es total_ms.
Proof.
  intros H. unfold Tabs.main, main.
  rewrite (tasks_healthy v targets H), length_map. reflexivity.
Qed.

Lemma In_delete {A : Type} (i : nat) (l : list A) (x : A) :
  In x (delete i l) -> In x l.
Proof.
  revert i. induction l as [|y l IH]; intros [|i]; cbn; auto.
  intros [->|H]; [left; reflexivity | right; apply (IH i); assumption].
Qed.

Lemma healthy_delete (i : nat) (targets : list Tabs.target) :
  Tabs.healthy targets -> Tabs.healthy (delete i targets).
Proof.
  intros H t a Ht. apply H. apply (In_delete i). assumption.
Qed.

Lemma map_delete {A B : Type} (f : A -> B) (i : nat) (l : list A) :
  map f (delete i l) = delete i (map f l).
Proof.
  revert i. induction l as [|y l IH]; intros [|i]; cbn; [reflexivity ..|].
  f_equal. apply IH.
Qed.

Lemma lookup_map_fst (targets : list Tabs.target) (i : nat) (t : Tabs.target) :
  targets !! i = Some t -> map fst targets !! i = Some (fst t).
Proof.
  revert i. induction targets as [|y l IH]; intros [|i]; cbn; try discriminate.
  - intros H. injection H as ->. reflexivity.
  - apply IH.
Qed.

Lemma tasks_lookup (v : variant) (targets : list Tabs.target) (i : nat)
  (t : Tabs.target) :
  targets !! i = Some t -> Tabs.tasks v targets !! i = Some (Tabs.run_task v t).
Proof.
  unfold Tabs.tasks.
  revert i. induction targets as [|y l IH]; intros [|i]; cbn; try discriminate.
  - intros H. injection H as ->. reflexivity.
  - apply IH.
Qed.

(** A task whose promise is rejected leaves no run that returns. *)
Lemma rejected_never_returns {T : Type} (v : variant) (tasks : list (settlement T))
  (limit : Z) (p : nat) (es : list event) (s : state T) (out : list T) :
  tasks !! p = Some Rejects ->
  exec v tasks limit init es = Some s -> at_ s <> Returned out.
Proof.
  intros Hp Hex Hat.
  assert (I : invariant tasks limit s)
    by (apply (PoolFacts.reachable_invariant v); exists es; assumption).
  pose proof (inv_phase _ _ _ I) as Hph. rewrite Hat in Hph.
  destruct Hph as [Hvals _]. rewrite Hvals in Hp. clear - Hp.
  revert p Hp. induction out as [|x l IH]; intros [|p] Hp; cbn in Hp;
    try discriminate. apply (IH p). assumption.
Qed.

(** How the promise of a task comes to be rejected. *)
Lemma task_rejects (v : variant) (u : string) (env : Z -> attempt)
  (tabs : Z -> Tabs.tab) :
  Tabs.task v u env tabs = Rejects <->
  exists a, 1 <= a <= 3
    /\ (forall a', 1 <= a' < a ->
          Tabs.opens (tabs a') = true
          /\ is_ok (attempt_result v u (env a')) = false
          /\ Tabs.closes (tabs a') = true)
    /\ (Tabs.opens (tabs a) = false
        \/ (is_ok (attempt_result v u (env a)) = false
            /\ Tabs.closes (tabs a) = false)).
Proof.
  unfold Tabs.task. cbn [Tabs.retry Z.eqb Pos.eqb].
  split.
  - destruct (Tabs.opens (tabs 1)) eqn:O1; [|intros _; exists 1; split; [lia|]; split; [intros; lia|]; left; assumption].
    destruct (attempt_result v u (env 1)) as [r1|e1] eqn:E1; [discriminate|].
    destruct (Tabs.closes (tabs 1)) eqn:C1;
      [|intros _; exists 1; split; [lia|]; split; [intros; lia|];
        right; rewrite E1; auto].
    assert (B1 : forall a', 1 <= a' < 2 ->
              Tabs.opens (tabs a') = true
              /\ is_ok (attempt_result v u (env a')) = false
              /\ Tabs.closes (tabs a') = true).
    { intros a' Ha'. replace a' with 1 by lia. rewrite E1. auto. }
    destruct (Tabs.opens (tabs 2)) eqn:O2; [|intros _; exists 2; split; [lia|]; split; [exact B1|]; left; assumption].
    destruct (attempt_result v u (env 2)) as [r2|e2] eqn:E2; [discriminate|].
    destruct (Tabs.closes (tabs 2)) eqn:C2;
      [|intros _; exists 2; split; [lia|]; split; [exact B1|];
        right; rewrite E2; auto].
    assert (B2 : forall a', 1 <= a' < 3 ->
              Tabs.opens (tabs a') = true
              /\ is_ok (attempt_result v u (env a')) = false
              /\ Tabs.closes (tabs a') = true).
    { intros a' Ha'. assert (H' : a' = 1 \/ a' = 2) by lia.
      destruct H' as [-> | ->]; [rewrite E1 | rewrite E2]; auto. }
    destruct (Tabs.opens (tabs 3)) eqn:O3; [|intros _; exists 3; split; [lia|]; split; [exact B2|]; left; assumption].
    destruct (attempt_result v u (env 3)) as [r3|e3] eqn:E3; [discriminate|].
    destruct (Tabs.closes (tabs 3)) eqn:C3; [discriminate|].
    intros _. exists 3. split; [lia|]. split; [exact B2|].
    right. rewrite E3. auto.
  - intros (a & Ha & Hbefore & Hat).
    assert (Ha' : a = 1 \/ a = 2 \/ a = 3) by lia.
    assert (Hstep : forall b, 1 <= b < a ->
              Tabs.opens (tabs b) = true
              /\ (exists e, attempt_result v u (env b) = Err e)
              /\ Tabs.closes (tabs b) = true).
    { intros b Hb. destruct (Hbefore b Hb) as (O & F & C).
      split; [assumption|]. split; [|assumption].
      destruct (attempt_result v u (env b)) as [r|e]; [discriminate | eauto]. }
    assert (Hlast : Tabs.opens (tabs a) = false
                    \/ Tabs.opens (tabs a) = true
                       /\ (exists e, attempt_result v u (env a) = Err e)
                       /\ Tabs.closes (tabs a) = false).
    { destruct Hat as [O|[F C]]; [left; assumption|].
      destruct (Tabs.opens (tabs a)); [right | left; reflexivity].
      split; [reflexivity|]. split; [|assumption].
      destruct (attempt_result v u (env a)) as [r|e]; [discriminate | eauto]. }
    clear Hbefore Hat.
    destruct Ha' as [->|[->| ->]].
    + destruct Hlast as [->|(-> & [e ->] & ->)]; reflexivity.
    + destruct (Hstep 1 ltac:(lia)) as (-> & [e1 ->] & ->).
      destruct Hlast as [->|(-> & [e ->] & ->)]; reflexivity.
    + destruct (Hstep 1 ltac:(lia)) as (-> & [e1 ->] & ->).
      destruct (Hstep 2 ltac:(lia)) as (-> & [e2 ->] & ->).
      destruct Hlast as [->|(-> & [e ->] & ->)]; reflexivity.
Qed.

End TabsFacts.

(** ** The claims on results *)




(** C2, as stated, fails: a single target whose three attempts fail
    leaves an empty result list. *)
Lemma C2_counterexample :
  let targets : list Optimized.target :=
    [("/de_DE/overview-page"%string, fun _ => Optimized.Failed)] in
  exists results summary,
    Optimized.main Pool.First targets
      [Pool.Dispatch; Pool.Settle 0%nat; Pool.Join; Pool.Return] 0
    = Some (Optimized.Report results summary)
    /\ length results <> length targets.
Proof.
  eexists. eexists. split; [vm_compute; reflexivity|]. cbn. discriminate.
Qed.

(** C2, amended. The pool hands [main] exactly one entry per target, in
    the order of the targets; [filter(Boolean)] then drops the [null] of
    every target whose three attempts failed. So the result list has one
    entry for each target that succeeded, in input order, and none for the
    others, whatever the order in which the tasks finished; and every run
    that has begun can be brought to that report. *)
Theorem C2_one_result_per_successful_target (v : Pool.variant)
  (targets : list Optimized.target) (es : list Pool.event) (total_ms : Z)
  (results : list Optimized.ComparisonResult) (summary : Optimized.Summary) :
  Optimized.main v targets es total_ms = Some (Optimized.Report results summary) ->
  (exists s out,
     Pool.exec v (Optimized.tasks v targets) Optimized.concurrency Pool.init es = Some s
     /\ Pool.at_ s = Pool.Returned out
     /\ out = map (Optimized.run_task v) targets
     /\ length out = length targets
     /\ results = Optimized.filter_Boolean out)
  /\ results = omap (Optimized.run_task v) targets
  /\ map Optimized.url results =
     map fst (List.filter
                (fun t => match Optimized.run_task v t with
                          | Some _ => true | None => false end) targets)
  /\ (length results <= length targets)%nat
  /\ (forall es0 s0,
        Pool.exec v (Optimized.tasks v targets) Optimized.concurrency Pool.init es0
        = Some s0 ->
        exists es1 summary1,
          Optimized.main v targets (es0 ++ es1) total_ms
          = Some (Optimized.Report results summary1)).
Proof.
  intros Hmain.
  pose proof (OptimizedFacts.main_report v targets es total_ms results summary Hmain)
    as [Hres _].
  assert (Hne : targets <> []).
  { intros ->. cbn in Hmain. discriminate. }
  split; [|split; [|split; [|split]]].
  - unfold Optimized.main, Pool.runWithConcurrencyLimit in Hmain.
    destruct (length targets =? 0)%nat; [discriminate|].
    destruct (Pool.exec _ _ _ _ _) as [s|] eqn:Hex; [|discriminate].
    destruct (Pool.at_ s) as [| | |out|] eqn:Hat; try discriminate.
    injection Hmain as <- _. exists s, out.
    pose proof (OptimizedFacts.pool_output v targets _ es s out Hex Hat) as Hout.
    repeat split; try assumption. rewrite Hout. apply length_map.
  - assumption.
  - rewrite Hres. apply OptimizedFacts.omap_urls.
  - rewrite Hres. apply OptimizedFacts.omap_length_le.
  - intros es0 s0 Hex0.
    destruct (OptimizedFacts.main_completes v targets es0 s0 total_ms Hne Hex0)
      as (es1 & results1 & summary1 & Hm1).
    exists es1, summary1.
    pose proof (OptimizedFacts.main_report v targets _ total_ms _ _ Hm1) as [Hres1 _].
    rewrite Hres, <- Hres1. assumption.
Qed.

(** Three targets, the second of which always fails; the third finishes
    first. *)
Lemma C2_witness :
  let red := mkImage 1 1 [255; 0; 0; 255] in
  let ok := fun _ : Z => Optimized.Captured red red true 1000 in
  let targets : list Optimized.target :=
    [("/a"%string, ok); ("/b"%string, fun _ => Optimized.Failed); ("/c"%string, ok)] in
  let es := [Pool.Dispatch; Pool.Dispatch; Pool.Dispatch; Pool.Settle 2%nat;
             Pool.Settle 0%nat; Pool.Settle 1%nat; Pool.Join; Pool.Return] in
  exists results summary,
    Optimized.main Pool.Second targets es 3000 = Some (Optimized.Report results summary)
    /\ map Optimized.url results = ["/a"%string; "/c"%string]
    /\ results = omap (Optimized.run_task Pool.Second) targets.
Proof.
  intros red ok targets es.
  eassert (H : Optimized.main Pool.Second targets es 3000
               = Some (Optimized.Report _ _)) by (vm_compute; reflexivity).
  eexists. eexists. split; [exact H|]. split; [vm_compute; reflexivity|].
  exact (proj1 (proj2 (C2_one_result_per_successful_target Pool.Second
                         targets es 3000 _ _ H))).
Defined.

(** C3, as stated, fails: the target that fails three times has no result
    at all, so none that carries an error and [match = false]. *)
Lemma C3_counterexample :
  let red := mkImage 1 1 [255; 0; 0; 255] in
  let targets : list Optimized.target :=
    [("/a"%string, fun _ => Optimized.Failed);
     ("/b"%string, fun _ => Optimized.Captured red red true 1200)] in
  exists results summary,
    Optimized.main Pool.First targets
      [Pool.Dispatch; Pool.Dispatch; Pool.Settle 0%nat; Pool.Settle 1%nat;
       Pool.Join; Pool.Return] 2400
    = Some (Optimized.Report results summary)
    /\ ~ (exists r, In r results /\ Optimized.url r = "/a"%string
                    /\ Optimized.match_ r = false).
Proof.
  eexists. eexists. split; [vm_compute; reflexivity|].
  intros [r [[<-|[]] [Hu _]]]. cbn in Hu. discriminate Hu.
Qed.

(** C3, amended. Let the browser open and close the tab of every attempt
    ([browser.newPage] and [tab.close] do not throw). When the three
    attempts of a target fail, its task is fulfilled with [null]: the run
    is not aborted, the other targets are processed and every run can be
    brought to its report, and the results are those of the run without
    that target, which leaves no result and no error. When other targets
    remain, the whole report, results and summary, is the one of the run
    without that target; when it was the only target, the report has no
    result and an average of [NaN], where the run without it ends at 'No
    URLs to process'. *)
Theorem C3_failed_target_is_dropped (v : Pool.variant)
  (targets : list Tabs.target) (i : nat) (u : string)
  (env : Z -> Optimized.attempt) (tabs : Z -> Tabs.tab) :
  targets !! i = Some ((u, env), tabs) ->
  (forall a, 1 <= a <= 3 -> is_ok (Optimized.attempt_result v u (env a)) = false) ->
  Tabs.healthy targets ->
  Tabs.task v u env tabs = Pool.Fulfils None
  /\ (forall es total_ms,
        Tabs.main v targets es total_ms <> Some Optimized.ProcessFailed)
  /\ (forall es s total_ms,
        Pool.exec v (Tabs.tasks v targets) Optimized.concurrency Pool.init es
        = Some s ->
        exists es' results summary,
          Tabs.main v targets (es ++ es') total_ms
          = Some (Optimized.Report results summary))
  /\ (forall es total_ms results summary,
        Tabs.main v targets es total_ms = Some (Optimized.Report results summary) ->
        results = omap (Optimized.run_task v) (map fst (delete i targets))
        /\ (delete i targets <> [] ->
            exists es',
              Tabs.main v (delete i targets) es' total_ms
              = Some (Optimized.Report results summary))
        /\ (forall es' results' summary',
              Tabs.main v (delete i targets) es' total_ms
              = Some (Optimized.Report results' summary') ->
              results' = results /\ summary' = summary)
        /\ (delete i targets = [] ->
            results = []
            /\ Optimized.avgDuration summary = NaN
            /\ forall es',
                 Tabs.main v (delete i targets) es' total_ms
                 = Some Optimized.NoUrls)).
Proof.
  intros Hi Hfail Hh.
  pose proof (OptimizedFacts.task_all_failed v u env Hfail) as Hnull.
  assert (Hin : In (u, env, tabs) targets).
  { apply list_elem_of_In. eapply list_elem_of_lookup_2. eassumption. }
  split; [|split; [|split]].
  - rewrite TabsFacts.task_healthy, Hnull; [reflexivity|].
    intros a Ha. apply (Hh _ a Hin Ha).
  - intros es total_ms. rewrite TabsFacts.main_healthy by assumption.
    apply OptimizedFacts.main_never_fails.
  - intros es s total_ms Hex.
    rewrite TabsFacts.tasks_healthy in Hex by assumption.
    destruct (OptimizedFacts.main_completes v (map fst targets) es s total_ms)
      as (es' & results & summary & Hm); [|assumption|].
    + intros E. apply map_eq_nil in E. subst targets. discriminate Hi.
    + exists es', results, summary.
      rewrite TabsFacts.main_healthy by assumption. assumption.
  - intros es total_ms results summary Hmain.
    rewrite TabsFacts.main_healthy in Hmain by assumption.
    apply OptimizedFacts.main_report in Hmain as [Hr Hs].
    assert (Hres : results
                   = omap (Optimized.run_task v) (map fst (delete i targets))).
    { rewrite Hr, TabsFacts.map_delete.
      apply (OptimizedFacts.omap_delete_None _ (map fst targets) i (u, env));
        [|assumption].
      apply (TabsFacts.lookup_map_fst targets i _ Hi). }
    pose proof (TabsFacts.healthy_delete i targets Hh) as Hh'.
    split; [assumption|]. split.
    + intros Hne.
      destruct (OptimizedFacts.main_completes v (map fst (delete i targets)) []
                  Pool.init total_ms) as (es' & results' & summary' & Hm);
        [|reflexivity|].
      * intros E. apply map_eq_nil in E. contradiction.
      * exists es'. rewrite TabsFacts.main_healthy by assumption.
        cbn [app] in Hm. rewrite Hm.
        apply OptimizedFacts.main_report in Hm as [Hr' Hs'].
        rewrite <- Hres in Hr'. subst results'. rewrite Hs, Hs'. reflexivity.
    + split.
      * intros es' results' summary' Hm.
        rewrite TabsFacts.main_healthy in Hm by assumption.
        apply OptimizedFacts.main_report in Hm as [Hr' Hs'].
        rewrite <- Hres in Hr'. subst results'.
        split; [reflexivity|]. rewrite Hs, Hs'. reflexivity.
      * intros Hnil. rewrite Hnil in Hres. cbn in Hres.
        split; [assumption|]. split.
        -- rewrite Hs, Hres. cbn [Optimized.avgDuration].
           apply OptimizedFacts.average_nil.
        -- intros es'. rewrite Hnil. reflexivity.
Qed.

(** Ten targets, the fourth of which always fails, and a run of the
    pool over them. *)
Lemma C3_witness :
  let red := mkImage 1 1 [255; 0; 0; 255] in
  let ok := fun _ : Z => Optimized.Captured red red true 1000 in
  let bad := fun _ : Z => Optimized.Failed in
  let tabs := fun _ : Z => Tabs.mkTab true true in
  let targets : list Tabs.target :=
    [("/1"%string, ok, tabs); ("/2"%string, ok, tabs); ("/3"%string, ok, tabs);
     ("/4"%string, bad, tabs); ("/5"%string, ok, tabs); ("/6"%string, ok, tabs);
     ("/7"%string, ok, tabs); ("/8"%string, ok, tabs); ("/9"%string, ok, tabs);
     ("/10"%string, ok, tabs)] in
  targets !! 3%nat = Some ("/4"%string, bad, tabs)
  /\ Tabs.task Pool.First "/4" bad tabs = Pool.Fulfils None
  /\ forall es total_ms,
       Tabs.main Pool.First targets es total_ms <> Some Optimized.ProcessFailed.
Proof.
  intros red ok bad tabs targets. split; [reflexivity|].
  assert (Hh : Tabs.healthy targets).
  { intros t a Ht _. cbn in Ht.
    repeat (destruct Ht as [<-|Ht]; [split; reflexivity|]). destruct Ht. }
  assert (Hf : forall a, 1 <= a <= 3 ->
            is_ok (Optimized.attempt_result Pool.First "/4" (bad a)) = false)
    by (intros a _; vm_compute; reflexivity).
  exact (let H := C3_failed_target_is_dropped Pool.First targets 3 "/4"%string bad tabs
                    eq_refl Hf Hh in conj (proj1 H) (proj1 (proj2 H))).
Defined.




(** ** The claims on images *)

(** C6 at the input where [compare.ts] departs from it:
    [compareScreenshots] of [compare.ts] computes the larger width and
    height but hands the two images to the differ as they were read, a
    buffer of 4 bytes and one of 8; the differ refuses them and the
    comparison answers [{ isDifferent: true, diffPixels: 0 }]. (In
    [compare_optimized.ts] both operands have the common size:
    [PadFacts.differ_operands_size].) *)
Theorem C6_compare_ts_does_not_pad :
  let img1 := mkImage 1 1 [255; 0; 0; 255] in
  let img2 := mkImage 2 1 [255; 0; 0; 255; 255; 255; 255; 255] in
  exists d1 d2,
    Compare.differ_operands img1 img2 = (d1, d2, 2, 1)
    /\ length d1 = 4%nat /\ length d2 = 8%nat
    /\ Differ.pixelmatch d1 d2 2 1 Differ.threshold_default = Err DimensionMismatch
    /\ Compare.compareScreenshots (Ok img1) (Ok img2) true = (true, of_nat 0).
Proof.
  eexists. eexists. split; [vm_compute; reflexivity|].
  repeat split; vm_compute; reflexivity.
Qed.

(** C7 at the input where the code departs from it: when the only target
    fails three times, the result list is empty and the average duration
    [main] computes is [0 / 0], which is NaN. *)
Theorem C7_average_of_no_result_is_NaN :
  let targets : list Optimized.target :=
    [("/de_DE/overview-page"%string, fun _ => Optimized.Failed)] in
  Optimized.average [] = NaN
  /\ forall v,
       Optimized.main v targets
         [Pool.Dispatch; Pool.Settle 0%nat; Pool.Join; Pool.Return] 185000
       = Some (Optimized.Report []
                 (Optimized.mkSummary (of_nat 0) NaN (div (of_Z 185000) (of_Z 1000)))).
Proof.
  split; [reflexivity|]. intros []; vm_compute; reflexivity.
Qed.

(** C8. For every decoded image and every threshold that is not negative,
    the differ counts 0 pixels between the image and itself; so do the
    [compareScreenshots] of [compare_optimized.ts] and of
    [compare-screenshots.ts], which pass the threshold 0.1 and leave an image
    that already has the common size as it is. *)
Theorem C8_diff_of_an_image_with_itself (A : RawImage) (t : Q) :
  wf_image A -> (0 <= t)%Q ->
  Differ.pixelmatch (data A) (data A) (width A) (height A) t = Ok 0%nat
  /\ (forall v path,
        Optimized.compareScreenshots v A A path true
        = Ok (of_nat 0, Optimized.replace_png_suffix path))
  /\ (forall saved,
        CompareScreenshots.compareScreenshots (Ok A) (Ok A) saved = (false, of_nat 0)).
Proof.
  intros Hwf Ht.
  assert (Ht0 : (0 <= Differ.threshold_default)%Q) by discriminate.
  split; [apply DifferFacts.pixelmatch_refl; assumption|]. split.
  - intros v path. unfold Optimized.compareScreenshots.
    assert (Hops : Optimized.differ_operands v A A
                   = Ok (data A, data A, width A, height A)).
    { destruct v; cbn [Optimized.differ_operands];
        rewrite ?PadFacts.or0_id, !Z.max_id.
      - rewrite PadFacts.padImage_same. reflexivity.
      - rewrite PadFacts.padImage2_same. reflexivity. }
    rewrite Hops. cbn [bind].
    rewrite DifferFacts.pixelmatch_refl by assumption. reflexivity.
  - intros saved.
    unfold CompareScreenshots.compareScreenshots, CompareScreenshots.compare_body.
    cbn [bind]. rewrite !Z.max_id.
    unfold CompareScreenshots.padImage. rewrite !Z.eqb_refl. cbn [andb bind].
    rewrite DifferFacts.pixelmatch_refl by assumption. reflexivity.
Qed.

(** A 2 x 1 image, at the threshold of the scripts. *)
Lemma C8_witness :
  let A := mkImage 2 1 [255; 0; 0; 255; 12; 34; 56; 255] in
  Differ.pixelmatch (data A) (data A) (width A) (height A) (1 # 10) = Ok 0%nat.
Proof.
  intros A.
  refine (proj1 (C8_diff_of_an_image_with_itself A (1 # 10) _ _)).
  - constructor; cbn; try lia.
    repeat constructor; unfold is_byte; lia.
  - discriminate.
Defined.

(** ** The claims on the pool *)

(** C9. In every state of every run of [runWithConcurrencyLimit] (either
    variant) with a limit of at least 1, the tasks in flight are at most
    [limit]. The loop is suspended only while exactly [limit] tasks are in
    flight, and when one of them is fulfilled the loop is back in its
    body with [limit - 1] tasks in flight and, if a task is left, starts
    it while the others are still running: there is no barrier between
    waves. The limit [main] passes is 5. *)
Theorem C9_in_flight_at_most_limit {T : Type} (v : Pool.variant)
  (tasks : list (Pool.settlement T)) (limit : Z) (es : list Pool.event)
  (s : Pool.state T) :
  1 <= limit ->
  Pool.exec v tasks limit Pool.init es = Some s ->
  Z.of_nat (length (Pool.in_flight s)) <= limit
  /\ (Pool.at_ s = Pool.Waiting ->
      Z.of_nat (length (Pool.in_flight s)) = limit
      /\ forall p x,
          In p (Pool.in_flight s) -> tasks !! p = Some (Pool.Fulfils x) ->
          exists s1,
            Pool.step v tasks limit s (Pool.Settle p) = Some s1
            /\ Pool.at_ s1 = Pool.Ready
            /\ Z.of_nat (length (Pool.in_flight s1)) = limit - 1
            /\ forall t, tasks !! Pool.next s1 = Some t ->
                exists s2,
                  Pool.step v tasks limit s1 Pool.Dispatch = Some s2
                  /\ Pool.in_flight s2 = Pool.in_flight s1 ++ [Pool.next s1])
  /\ (Pool.at_ s = Pool.Ready ->
      forall t, tasks !! Pool.next s = Some t ->
      exists s2,
        Pool.step v tasks limit s Pool.Dispatch = Some s2
        /\ Pool.in_flight s2 = Pool.in_flight s ++ [Pool.next s])
  /\ Optimized.concurrency = 5.
Proof.
  intros Hl Hex.
  assert (I : Pool.invariant tasks limit s)
    by (apply (PoolFacts.reachable_invariant v); exists es; assumption).
  split; [|split; [|split; [|reflexivity]]].
  - pose proof (PoolFacts.in_flight_le_executing tasks limit s I).
    pose proof (Pool.inv_bound _ _ _ I Hl). lia.
  - intros Hat.
    assert (Hfull : Z.of_nat (length (Pool.in_flight s)) = limit).
    { rewrite (PoolFacts.waiting_in_flight tasks limit s I Hat).
      pose proof (Pool.inv_phase _ _ _ I) as Hph. rewrite Hat in Hph.
      apply Hph. assumption. }
    split; [assumption|]. intros p x Hin Hp.
    destruct (PoolFacts.wake_up v tasks limit s p x I Hat Hin Hp)
      as (s1 & Hstep & Hat1 & Hn1 & Hlen).
    exists s1. split; [assumption|]. split; [assumption|]. split; [lia|].
    intros t Ht.
    apply (PoolFacts.dispatch_next v tasks limit s1 t); try assumption.
    eapply PoolFacts.step_invariant; eassumption.
  - intros Hat t Ht. apply (PoolFacts.dispatch_next v tasks limit s t); assumption.
Qed.

(** A run of three tasks with two slots, the second task finishing first:
    the third starts while the first is still running. *)
Lemma C9_witness :
  let tasks := [Pool.Fulfils 10; Pool.Fulfils 20; Pool.Fulfils 30] in
  let es := [Pool.Dispatch; Pool.Dispatch; Pool.Settle 1%nat; Pool.Dispatch] in
  exists s,
    Pool.exec Pool.First tasks 2 Pool.init es = Some s
    /\ Pool.in_flight s = [0%nat; 2%nat]
    /\ Z.of_nat (length (Pool.in_flight s)) <= 2.
Proof.
  intros tasks es.
  eassert (H : Pool.exec Pool.First tasks 2 Pool.init es = Some _)
    by (vm_compute; reflexivity).
  eexists. split; [exact H|]. split; [vm_compute; reflexivity|].
  refine (proj1 (C9_in_flight_at_most_limit Pool.First tasks 2 es _ _ H)).
  lia.
Defined.

(** C10. Whatever the limit and the order in which the tasks finish, when
    [runWithConcurrencyLimit] returns, the i-th element of the list it
    returns is the value of the i-th task, and the list is as long as the
    task list. No run is longer than [2 * n + 2] events, and when no task
    rejects every run can be continued until the function returns. *)
Theorem C10_output_in_input_order {T : Type} (v : Pool.variant)
  (tasks : list (Pool.settlement T)) (limit : Z) (es : list Pool.event)
  (s : Pool.state T) :
  Pool.exec v tasks limit Pool.init es = Some s ->
  (forall out, Pool.at_ s = Pool.Returned out ->
     tasks = map Pool.Fulfils out /\ length out = length tasks)
  /\ (length es <= 2 * length tasks + 2)%nat
  /\ ((forall p, tasks !! p <> Some Pool.Rejects) ->
      exists es' s' out,
        Pool.exec v tasks limit s es' = Some s'
        /\ Pool.at_ s' = Pool.Returned out
        /\ tasks = map Pool.Fulfils out).
Proof.
  intros Hex. split; [|split].
  - intros out Hat.
    pose proof (PoolFacts.returned_values v tasks limit es s out Hex Hat) as Hv.
    split; [assumption|]. rewrite Hv, length_map. reflexivity.
  - pose proof (PoolFacts.exec_measure v tasks limit es _ _ Hex) as Hm.
    unfold Pool.measure, Pool.queued, Pool.in_flight in Hm. cbn in Hm. lia.
  - intros Hno.
    assert (I : Pool.invariant tasks limit s)
      by (apply (PoolFacts.reachable_invariant v); exists es; assumption).
    destruct (PoolFacts.completes v tasks limit Hno s I) as (es' & s' & out & Hex' & Hat').
    exists es', s', out. split; [assumption|]. split; [assumption|].
    apply (PoolFacts.returned_values v tasks limit (es ++ es') s' out); [|assumption].
    rewrite PoolFacts.exec_app, Hex. assumption.
Qed.

(** Three tasks, two slots; the tasks finish in the order 1, 2, 0 and the
    output is still in the order 0, 1, 2. *)
Lemma C10_witness :
  let tasks := [Pool.Fulfils 10; Pool.Fulfils 20; Pool.Fulfils 30] in
  let es := [Pool.Dispatch; Pool.Dispatch; Pool.Settle 1%nat; Pool.Dispatch;
             Pool.Settle 2%nat; Pool.Settle 0%nat; Pool.Join; Pool.Return] in
  (exists s,
     Pool.exec Pool.Second tasks 2 Pool.init es = Some s
     /\ Pool.at_ s = Pool.Returned [10; 20; 30]
     /\ tasks = map Pool.Fulfils [10; 20; 30])
  /\ (exists s es' s' out,
       Pool.exec Pool.Second tasks 2 Pool.init [Pool.Dispatch; Pool.Dispatch] = Some s
       /\ Pool.exec Pool.Second tasks 2 s es' = Some s'
       /\ Pool.at_ s' = Pool.Returned out
       /\ tasks = map Pool.Fulfils out).
Proof.
  intros tasks es. split.
  - eassert (H : Pool.exec Pool.Second tasks 2 Pool.init es = Some _)
      by (vm_compute; reflexivity).
    eexists. split; [exact H|]. split; [reflexivity|].
    exact (proj1 (proj1 (C10_output_in_input_order Pool.Second tasks 2 es _ H)
                    [10; 20; 30] eq_refl)).
  - eassert (H : Pool.exec Pool.Second tasks 2 Pool.init
                   [Pool.Dispatch; Pool.Dispatch] = Some _)
      by (vm_compute; reflexivity).
    assert (Hno : forall p, tasks !! p <> Some Pool.Rejects)
      by (intros [|[|[|p]]]; cbn; discriminate).
    destruct (proj2 (proj2 (C10_output_in_input_order Pool.Second tasks 2
                              [Pool.Dispatch; Pool.Dispatch] _ H)) Hno)
      as (es' & s' & out & H1 & H2 & H3).
    eexists. exists es', s', out. split; [exact H|]. split; [exact H1|].
    split; [exact H2 | exact H3].
Defined.

(** * Further properties *)

(** ** More on the pool *)

Module PoolMore.

Import Pool PoolFacts.

Section Runs.

Context {T : Type} (tasks : list (settlement T)) (limit : Z).

(** On the states of a run the guard of the second variant changes
    nothing. *)
Lemma step_variants (s : state T) (e : event) :
  invariant tasks limit s ->
  step First tasks limit s e = step Second tasks limit s e.
Proof.
  intros I. destruct e; try reflexivity. cbn [step].
  destruct (mem p (results s) && negb (mem p (settled s))) eqn:Hen; [|reflexivity].
  apply andb_true_iff in Hen as [Hres Hns].
  apply negb_true_iff in Hns. apply mem_In in Hres.
  destruct (tasks !! p) as [[x|]|]; try reflexivity.
  pose proof (unsettled_executing tasks limit s p I Hres Hns) as Hex.
  pose proof (executing_NoDup tasks limit s I) as Hnd.
  rewrite (on_fulfilled_removes First), (on_fulfilled_removes Second) by assumption.
  reflexivity.
Qed.

Lemma exec_variants_from (es : list event) (s : state T) :
  invariant tasks limit s ->
  exec First tasks limit s es = exec Second tasks limit s es.
Proof.
  revert s. induction es as [|e es IH]; intros s I; cbn [exec]; [reflexivity|].
  rewrite <- (step_variants s e I).
  destruct (step First tasks limit s e) as [s1|] eqn:E; [|reflexivity].
  apply IH. eapply (step_invariant First); eassumption.
Qed.

(** What a promise that settles does to the tasks in flight. *)
Lemma settle_in_flight (v : variant) (s s' : state T) (p : nat) :
  step v tasks limit s (Settle p) = Some s' ->
  in_flight s' = List.filter (fun q => negb (Nat.eqb q p)) (in_flight s)
  /\ In p (in_flight s).
Proof.
  cbn [step].
  destruct (mem p (results s) && negb (mem p (settled s))) eqn:Hen; [|discriminate].
  apply andb_true_iff in Hen as [Hres Hns]. apply mem_In in Hres.
  assert (Hfl : List.filter (fun q => negb (mem q (p :: settled s))) (results s)
                = List.filter (fun q => negb (Nat.eqb q p)) (in_flight s)).
  { unfold in_flight. apply filter_filter_and.
    intros q _. rewrite mem_cons, negb_orb. apply andb_comm. }
  assert (Hin : In p (in_flight s)).
  { unfold in_flight. apply filter_In. split; assumption. }
  destruct (tasks !! p) as [[x|]|]; [| |discriminate];
    intros H; injection H as <-; unfold in_flight at 1; cbn [results settled];
    split; assumption.
Qed.

Lemma other_steps_in_flight (v : variant) (s s' : state T) (e : event) :
  (e = Join \/ e = Return) ->
  step v tasks limit s e = Some s' -> in_flight s' = in_flight s.
Proof.
  intros [-> | ->]; cbn [step]; destruct (at_ s); try discriminate.
  - destruct (tasks !! next s); [discriminate|]. intros H. injection H as <-. reflexivity.
  - destruct (forallb _ _); [|discriminate]. intros H. injection H as <-. reflexivity.
Qed.

(** With a limit of 1 or less a task starts only when none is in flight. *)
Lemma one_at_a_time_step (v : variant) (s s' : state T) (e : event) :
  limit <= 1 -> invariant tasks limit s ->
  ((length (in_flight s) <= 1)%nat /\ (at_ s = Ready -> in_flight s = [])) ->
  step v tasks limit s e = Some s' ->
  (length (in_flight s') <= 1)%nat /\ (at_ s' = Ready -> in_flight s' = []).
Proof.
  intros Hl I [Hle Hready] Hstep. destruct e.
  - pose proof Hstep as Hstep'. cbn [step] in Hstep.
    destruct (at_ s) eqn:Hat; try discriminate.
    destruct (tasks !! next s) as [t|] eqn:Ht; try discriminate.
    destruct (dispatch_next v tasks limit s t I Hat Ht) as (s2 & Hs2 & Hfl).
    rewrite Hstep' in Hs2. injection Hs2 as <-.
    rewrite Hfl, (Hready eq_refl). split; [cbn; lia|].
    injection Hstep as <-. cbn [at_].
    replace (Z.of_nat (length (executing s ++ [next s])) >=? limit) with true
      by (symmetry; apply Z.geb_le; rewrite length_app; cbn [length]; lia).
    destruct (existsb _ _); discriminate.
  - destruct (settle_in_flight v s s' p Hstep) as [Hfl Hin].
    pose proof (filter_remove_length (in_flight s) p Hin) as Hlt.
    rewrite <- Hfl in Hlt. split; [lia|].
    intros _. destruct (in_flight s'); [reflexivity | cbn in Hlt; lia].
  - rewrite (other_steps_in_flight v s s' Join (or_introl eq_refl) Hstep).
    split; [assumption|].
    cbn [step] in Hstep. destruct (at_ s) eqn:Hat; try discriminate.
    intros _. apply Hready. reflexivity.
  - rewrite (other_steps_in_flight v s s' Return (or_intror eq_refl) Hstep).
    split; [assumption|].
    cbn [step] in Hstep. destruct (at_ s); try discriminate.
    destruct (forallb _ _); [|discriminate]. injection Hstep as <-.
    cbn [at_]. discriminate.
Qed.

Lemma one_at_a_time (v : variant) (es : list event) (s s' : state T) :
  limit <= 1 -> invariant tasks limit s ->
  ((length (in_flight s) <= 1)%nat /\ (at_ s = Ready -> in_flight s = [])) ->
  exec v tasks limit s es = Some s' ->
  (length (in_flight s') <= 1)%nat /\ (at_ s' = Ready -> in_flight s' = []).
Proof.
  intros Hl. revert s. induction es as [|e es IH]; intros s I K H; cbn [exec] in H.
  - injection H as <-. assumption.
  - destruct (step v tasks limit s e) as [s1|] eqn:E; [|discriminate].
    apply (IH s1); [eapply step_invariant; eassumption | | assumption].
    eapply one_at_a_time_step; eassumption.
Qed.

(** The promises settle in the order of the [Settle] events of the run. *)
Lemma exec_settled (v : variant) (es : list event) (s s' : state T) :
  exec v tasks limit s es = Some s' ->
  settled s' = rev (CompareMore.settle_order es) ++ settled s.
Proof.
  revert s. induction es as [|e es IH]; intros s H; cbn [exec] in H.
  - injection H as <-. reflexivity.
  - destruct (step v tasks limit s e) as [s1|] eqn:E; [|discriminate].
    rewrite (IH s1 H). clear IH H.
    destruct e; cbn [step] in E.
    + destruct (at_ s); try discriminate. destruct (tasks !! next s); try discriminate.
      injection E as <-. reflexivity.
    + destruct (mem p (results s) && negb (mem p (settled s))); [|discriminate].
      unfold CompareMore.settle_order. cbn [omap list_omap rev].
      rewrite <- app_assoc.
      destruct (tasks !! p) as [[x|]|]; try discriminate; injection E as <-;
        reflexivity.
    + destruct (at_ s); try discriminate. destruct (tasks !! next s); try discriminate.
      injection E as <-. reflexivity.
    + destruct (at_ s); try discriminate. destruct (forallb _ _); try discriminate.
      injection E as <-. reflexivity.
Qed.

(** No promise settles twice. *)
Lemma exec_settled_NoDup (v : variant) (es : list event) (s s' : state T) :
  List.NoDup (settled s) -> exec v tasks limit s es = Some s' ->
  List.NoDup (settled s').
Proof.
  revert s. induction es as [|e es IH]; intros s Hnd H; cbn [exec] in H.
  - injection H as <-. assumption.
  - destruct (step v tasks limit s e) as [s1|] eqn:E; [|discriminate].
    apply (IH s1); [|assumption]. clear IH H.
    destruct e; cbn [step] in E.
    + destruct (at_ s); try discriminate. destruct (tasks !! next s); try discriminate.
      injection E as <-. assumption.
    + destruct (mem p (results s) && negb (mem p (settled s))) eqn:Hen; [|discriminate].
      apply andb_true_iff in Hen as [_ Hns]. apply negb_true_iff in Hns.
      apply mem_false_not_In in Hns.
      destruct (tasks !! p) as [[x|]|]; try discriminate; injection E as <-;
        cbn [settled]; constructor; assumption.
    + destruct (at_ s); try discriminate. destruct (tasks !! next s); try discriminate.
      injection E as <-. assumption.
    + destruct (at_ s); try discriminate. destruct (forallb _ _); try discriminate.
      injection E as <-. assumption.
Qed.

(** The loop is over when the function waits for all or has returned. *)
Lemma loop_over_step (v : variant) (s s' : state T) (e : event) :
  invariant tasks limit s ->
  (forall out, at_ s = Joining \/ at_ s = Returned out -> next s = length tasks) ->
  step v tasks limit s e = Some s' ->
  forall out, at_ s' = Joining \/ at_ s' = Returned out -> next s' = length tasks.
Proof.
  intros I K Hstep out. destruct e; cbn [step] in Hstep.
  - destruct (at_ s); try discriminate. destruct (tasks !! next s); try discriminate.
    injection Hstep as <-. cbn [at_ next].
    destruct (_ >=? _); [destruct (existsb _ _)|]; intros [H|H]; discriminate.
  - destruct (mem p (results s) && negb (mem p (settled s))); [|discriminate].
    destruct (tasks !! p) as [[x|]|]; try discriminate; injection Hstep as <-;
      cbn [at_ next]; destruct (at_ s) eqn:Hat; intros [H|H]; try discriminate;
      first [apply (K out); left; reflexivity | eapply K; right; reflexivity].
  - destruct (at_ s); try discriminate.
    destruct (tasks !! next s) eqn:Ht; try discriminate.
    injection Hstep as <-. cbn [at_ next]. intros _.
    apply lookup_ge_None in Ht. pose proof (inv_next _ _ _ I). lia.
  - destruct (at_ s) eqn:Hat; try discriminate.
    destruct (forallb _ _); try discriminate.
    injection Hstep as <-. cbn [at_ next]. intros _.
    apply (K out). left. reflexivity.
Qed.

Lemma loop_over (v : variant) (es : list event) (s : state T) (out : list T) :
  exec v tasks limit init es = Some s ->
  at_ s = Joining \/ at_ s = Returned out -> next s = length tasks.
Proof.
  intros Hex.
  enough (G : forall es s0 s1,
             invariant tasks limit s0 ->
             (forall out, at_ s0 = Joining \/ at_ s0 = Returned out ->
                          next s0 = length tasks) ->
             exec v tasks limit s0 es = Some s1 ->
             forall out, at_ s1 = Joining \/ at_ s1 = Returned out ->
                         next s1 = length tasks).
  { apply (G es init s (init_invariant tasks limit)); [|assumption].
    intros o [H|H]; discriminate. }
  clear. intros es. induction es as [|e es IH]; intros s0 s1 I K H; cbn [exec] in H.
  - injection H as <-. assumption.
  - destruct (step v tasks limit s0 e) as [s2|] eqn:E; [|discriminate].
    apply (IH s2 s1); [eapply step_invariant; eassumption | | assumption].
    eapply loop_over_step; eassumption.
Qed.

End Runs.

End PoolMore.

(** X11. The two variants of [runWithConcurrencyLimit] in
    [compare_optimized.ts] have the same runs: the test [idx >= 0] that the
    second adds before [splice] is never false, so the first never
    splices at [-1]. *)
Theorem X11_pool_variants_agree {T : Type} (tasks : list (Pool.settlement T))
  (limit : Z) (es : list Pool.event) :
  Pool.exec Pool.First tasks limit Pool.init es
  = Pool.exec Pool.Second tasks limit Pool.init es
  /\ Pool.runWithConcurrencyLimit Pool.First tasks limit es
     = Pool.runWithConcurrencyLimit Pool.Second tasks limit es.
Proof.
  assert (H : Pool.exec Pool.First tasks limit Pool.init es
              = Pool.exec Pool.Second tasks limit Pool.init es).
  { apply PoolMore.exec_variants_from. apply PoolFacts.init_invariant. }
  split; [assumption|]. unfold Pool.runWithConcurrencyLimit. rewrite H. reflexivity.
Qed.

(** X12. With a limit of 1, 0 or a negative number the pool runs the tasks
    one at a time: at most one task is in flight, the loop starts a task
    only when none is, and (when no task rejects) every run can still be
    brought to the return. *)
Theorem X12_pool_limit_at_most_one {T : Type} (v : Pool.variant)
  (tasks : list (Pool.settlement T)) (limit : Z) (es : list Pool.event)
  (s : Pool.state T) :
  limit <= 1 ->
  Pool.exec v tasks limit Pool.init es = Some s ->
  (length (Pool.in_flight s) <= 1)%nat
  /\ (forall s', Pool.step v tasks limit s Pool.Dispatch = Some s' ->
                 Pool.in_flight s = [] /\ Pool.in_flight s' = [Pool.next s])
  /\ ((forall p, tasks !! p <> Some Pool.Rejects) ->
      exists es' s' out,
        Pool.exec v tasks limit s es' = Some s'
        /\ Pool.at_ s' = Pool.Returned out).
Proof.
  intros Hl Hex.
  assert (I : Pool.invariant tasks limit s)
    by (apply (PoolFacts.reachable_invariant v); exists es; assumption).
  destruct (PoolMore.one_at_a_time tasks limit v es Pool.init s Hl
              (PoolFacts.init_invariant tasks limit)) as [Hle Hready];
    [split; [cbn; lia | reflexivity] | assumption |].
  split; [assumption|]. split.
  - intros s' Hstep. pose proof Hstep as Hstep'. cbn [Pool.step] in Hstep.
    destruct (Pool.at_ s) eqn:Hat; try discriminate.
    destruct (tasks !! Pool.next s) as [t|] eqn:Ht; try discriminate.
    destruct (PoolFacts.dispatch_next v tasks limit s t I Hat Ht) as (s2 & Hs2 & Hfl).
    rewrite Hstep' in Hs2. injection Hs2 as <-.
    rewrite Hfl, (Hready eq_refl). split; reflexivity.
  - intros Hno. apply (PoolFacts.completes v tasks limit Hno s I).
Qed.

(** Three tasks with a limit of 0: the second starts after the first has
    finished. *)
Lemma X12_witness :
  let tasks := [Pool.Fulfils 10; Pool.Fulfils 20; Pool.Fulfils 30] in
  let es := [Pool.Dispatch; Pool.Settle 0%nat; Pool.Dispatch] in
  exists s,
    Pool.exec Pool.First tasks 0 Pool.init es = Some s
    /\ Pool.in_flight s = [1%nat]
    /\ (length (Pool.in_flight s) <= 1)%nat.
Proof.
  intros tasks es.
  eassert (H : Pool.exec Pool.First tasks 0 Pool.init es = Some _)
    by (vm_compute; reflexivity).
  eexists. split; [exact H|]. split; [vm_compute; reflexivity|].
  refine (proj1 (X12_pool_limit_at_most_one Pool.First tasks 0 es _ _ H)).
  lia.
Defined.

(** X13. [runWithConcurrencyLimit] of [compare.ts] returns the values in
    the order in which the tasks finished, not in the order of the items:
    the list it returns holds the value of every task exactly once (it is
    a permutation of the values in input order) and is the list of the
    values of the [Settle] events of the run. *)
Theorem X13_compare_ts_pool_completion_order {R : Type}
  (tasks : list (Pool.settlement R)) (limit : Z) (es : list Pool.event)
  (out : list R) :
  CompareMore.runWithConcurrencyLimit tasks limit es = Some (Pool.Returned out) ->
  out = omap (Pool.value_of tasks) (CompareMore.settle_order es)
  /\ length out = length tasks
  /\ exists values, tasks = map Pool.Fulfils values /\ Permutation out values.
Proof.
  unfold CompareMore.runWithConcurrencyLimit.
  destruct (Pool.exec Pool.First tasks limit Pool.init es) as [s|] eqn:Hex;
    [|discriminate].
  destruct (Pool.at_ s) as [| | |out0|] eqn:Hat; try discriminate.
  intros H. injection H as <-.
  assert (I : Pool.invariant tasks limit s)
    by (apply (PoolFacts.reachable_invariant Pool.First); exists es; assumption).
  pose proof (Pool.inv_phase _ _ _ I) as Hph. rewrite Hat in Hph.
  destruct Hph as [Hvals Hall].
  pose proof (PoolMore.loop_over tasks limit Pool.First es s out0 Hex
                (or_intror Hat)) as Hnext.
  pose proof (PoolMore.exec_settled tasks limit Pool.First es _ _ Hex) as Hset.
  cbn [Pool.settled Pool.init] in Hset. rewrite app_nil_r in Hset.
  pose proof (PoolMore.exec_settled_NoDup tasks limit Pool.First es Pool.init s
                (List.NoDup_nil _) Hex) as Hnd.
  assert (Hperm : Permutation (CompareMore.settle_order es) (seq 0 (length tasks))).
  { transitivity (rev (CompareMore.settle_order es)); [apply Permutation_rev|].
    rewrite <- Hset. apply Permutation.NoDup_Permutation;
      [assumption | apply List.seq_NoDup|].
    intros p. rewrite <- Hnext, <- (Pool.inv_results _ _ _ I). split.
    - intros Hp. apply (PoolFacts.results_lt tasks limit s p I).
      apply (Pool.inv_settled _ _ _ I). apply PoolFacts.mem_In. assumption.
    - intros Hp. rewrite forallb_forall in Hall.
      apply PoolFacts.mem_In. apply Hall. assumption. }
  assert (Hout0 : omap (Pool.value_of tasks) (seq 0 (length tasks)) = out0).
  { apply OptimizedFacts.map_Fulfils_inj. rewrite <- Hvals.
    apply PoolFacts.all_fulfilled_values. intros p Hp.
    rewrite Hvals in Hp |- *. rewrite length_map in Hp.
    destruct (lookup_lt_is_Some_2 out0 p Hp) as [x Hx].
    exists x. clear - Hx. revert p Hx.
    induction out0 as [|y l IH]; intros [|p] Hx; cbn in *; try discriminate.
    - injection Hx as ->. reflexivity.
    - apply IH. assumption. }
  assert (Hp2 : Permutation (CompareMore.pushed tasks es) out0).
  { unfold CompareMore.pushed. rewrite <- Hout0.
    apply omap_Permutation. assumption. }
  split; [reflexivity|]. split.
  - rewrite (Permutation_length Hp2), Hvals, length_map. reflexivity.
  - exists out0. split; assumption.
Qed.

(** Three tasks, two slots; the tasks finish in the order 1, 2, 0 and so
    are their values in the output. *)
Lemma X13_witness :
  let tasks := [Pool.Fulfils 10; Pool.Fulfils 20; Pool.Fulfils 30] in
  let es := [Pool.Dispatch; Pool.Dispatch; Pool.Settle 1%nat; Pool.Dispatch;
             Pool.Settle 2%nat; Pool.Settle 0%nat; Pool.Join; Pool.Return] in
  CompareMore.runWithConcurrencyLimit tasks 2 es = Some (Pool.Returned [20; 30; 10])
  /\ length [20; 30; 10] = length tasks.
Proof.
  intros tasks es.
  assert (H : CompareMore.runWithConcurrencyLimit tasks 2 es
              = Some (Pool.Returned [20; 30; 10])) by (vm_compute; reflexivity).
  split; [exact H|].
  exact (proj1 (proj2 (X13_compare_ts_pool_completion_order tasks 2 es _ H))).
Defined.

(** ** The copy loops *)

Module BlitFacts.

Import BufferFacts PadFacts Optimized Placement.

Lemma fold_left_ext_in {A B : Type} (f g : A -> B -> A) (l : list B) (a : A) :
  (forall x a, In x l -> f a x = g a x) -> fold_left f l a = fold_left g l a.
Proof.
  revert a. induction l as [|x l IH]; intros a Hfg; [reflexivity|].
  cbn [fold_left]. rewrite Hfg by (left; reflexivity).
  apply IH. intros y b Hy. apply Hfg. right. assumption.
Qed.

Lemma for_range_ext {S : Type} (n : Z) (f g : Z -> S -> S) (s : S) :
  (forall i s, 0 <= i < n -> f i s = g i s) -> for_range n f s = for_range n g s.
Proof.
  intros Hfg. unfold for_range. apply fold_left_ext_in.
  intros i a Hi. apply Hfg. apply in_range. assumption.
Qed.

Lemma blit_stores (img : RawImage) (W ox oy : Z) :
  0 <= ox -> width img + ox <= W ->
  stores (blit img W ox oy)
    (fun j => exists y, 0 <= y < height img /\ exists x, 0 <= x < width img
              /\ at_pixel (pixel_index W (x + ox) (y + oy)) j)
    (placed_byte img W ox oy).
Proof.
  intros Hox HW. unfold blit.
  apply (stores_for_range (height img) _
           (fun y j => exists x, 0 <= x < width img
                       /\ at_pixel (pixel_index W (x + ox) (y + oy)) j)).
  intros y Hy.
  apply (stores_for_range (width img) _
           (fun x j => at_pixel (pixel_index W (x + ox) (y + oy)) j)).
  intros x Hx. apply copy_pixel_stores.
  intros c Hc. unfold placed_byte.
  destruct (pixel_of_index W (x + ox) (y + oy) c) as (E1 & E2 & E3); [lia | lia |].
  rewrite E1, E2, E3.
  replace (x + ox - ox) with x by lia. replace (y + oy - oy) with y by lia.
  reflexivity.
Qed.

Lemma blit_length (img : RawImage) (W ox oy : Z) (d : buffer) :
  length (blit img W ox oy d) = length d.
Proof.
  unfold blit. apply for_range_length. intros y d1.
  apply for_range_length. intros x d2. apply copy_pixel_length.
Qed.

(** The target after the copy, pixel by pixel: the source where it was
    placed, the fill everywhere else. *)
Lemma placed_pixels (u : buffer -> buffer) (img : RawImage) (W H ox oy fill : Z)
  (d0 : buffer) :
  stores u
    (fun j => exists y, 0 <= y < height img /\ exists x, 0 <= x < width img
              /\ at_pixel (pixel_index W (x + ox) (y + oy)) j)
    (placed_byte img W ox oy) ->
  wf_image img -> 0 <= ox -> 0 <= oy ->
  width img + ox <= W -> height img + oy <= H ->
  Z.of_nat (length d0) = 4 * (W * H) ->
  (forall j, 0 <= j < 4 * (W * H) -> buf_read d0 j = Some fill) ->
  forall x y, 0 <= x < W -> 0 <= y < H ->
    read_pixel (u d0) W x y =
    if covered img ox oy x y
    then read_pixel (data img) (width img) (x - ox) (y - oy)
    else pixel_of fill.
Proof.
  intros C Hwf Hox Hoy HW HH L0 Hfill x y Hx Hy.
  unfold read_pixel, pixel_of. cbn [map].
  assert (Hbyte : forall c, 0 <= c < 4 ->
            buf_read (u d0) (pixel_index W x y + c) =
            if covered img ox oy x y
            then buf_read (data img) (pixel_index (width img) (x - ox) (y - oy) + c)
            else Some fill).
  { intros c Hc. set (j := pixel_index W x y + c).
    pose proof (pixel_index_bound W H x y c Hx Hy Hc) as Hj. fold j in Hj.
    destruct (C d0 j) as (_ & K2 & W2).
    unfold covered.
    destruct ((ox <=? x) && (x <? ox + width img)
              && (oy <=? y) && (y <? oy + height img)) eqn:G.
    - apply andb_true_iff in G as [G Gy2]. apply andb_true_iff in G as [G Gy1].
      apply andb_true_iff in G as [Gx1 Gx2].
      apply Z.leb_le in Gx1, Gy1. apply Z.ltb_lt in Gx2, Gy2.
      rewrite W2.
      + unfold placed_byte.
        destruct (pixel_of_index W x y c) as (E1 & E2 & E3); [lia | lia |].
        fold j in E1, E2, E3. rewrite E1, E2, E3.
        destruct (buf_read_Some (data img)
                    (pixel_index (width img) (x - ox) (y - oy) + c)) as [b Hb'].
        { rewrite (wf_length _ Hwf).
          apply (pixel_index_bound (width img) (height img)); lia. }
        rewrite Hb'. cbn [to_uint8]. f_equal.
        apply Z.mod_small. eapply buf_read_byte; [apply (wf_bytes _ Hwf) | eassumption].
      + exists (y - oy). split; [lia|]. exists (x - ox). split; [lia|].
        replace (x - ox + ox) with x by lia. replace (y - oy + oy) with y by lia.
        unfold at_pixel. subst j. lia.
      + lia.
    - assert (Hout : ~ (exists y', 0 <= y' < height img /\ exists x', 0 <= x' < width img
                         /\ at_pixel (pixel_index W (x' + ox) (y' + oy)) j)).
      { intros (y' & Hy' & x' & Hx' & Hat).
        unfold at_pixel in Hat. subst j. unfold pixel_index in Hat.
        assert (W * (y' + oy) + (x' + ox) = W * y + x) by lia.
        assert (y' + oy = y) by nia. assert (x' + ox = x) by nia. subst.
        apply andb_false_iff in G as [G|G]; [|apply Z.ltb_ge in G; lia].
        apply andb_false_iff in G as [G|G]; [|apply Z.leb_gt in G; lia].
        apply andb_false_iff in G as [G|G];
          [apply Z.leb_gt in G | apply Z.ltb_ge in G]; lia. }
      destruct K2 as [K2|[Q _]]; [|contradiction].
      rewrite K2. apply Hfill. lia. }
  rewrite !Hbyte by lia.
  destruct (covered img ox oy x y); reflexivity.
Qed.

Lemma blit_pixels (img : RawImage) (W H ox oy fill : Z) (d0 : buffer) :
  wf_image img -> 0 <= ox -> 0 <= oy ->
  width img + ox <= W -> height img + oy <= H ->
  Z.of_nat (length d0) = 4 * (W * H) ->
  (forall j, 0 <= j < 4 * (W * H) -> buf_read d0 j = Some fill) ->
  forall x y, 0 <= x < W -> 0 <= y < H ->
    read_pixel (blit img W ox oy d0) W x y =
    if covered img ox oy x y
    then read_pixel (data img) (width img) (x - ox) (y - oy)
    else pixel_of fill.
Proof.
  intros Hwf Hox Hoy HW HH. apply placed_pixels; try assumption.
  apply blit_stores; assumption.
Qed.

End BlitFacts.

(** ** The sequential scripts *)

Module SequentialFacts.

Import BufferFacts PadFacts BlitFacts Optimized Placement Sequential.

(** A loop whose body throws nowhere is the loop of the bodies' results. *)
Lemma for_range_inj {A B : Type} (inj : B -> A) (n : Z) (body : Z -> A -> A)
  (f : Z -> B -> B) (d : B) :
  (forall i d, 0 <= i < n -> body i (inj d) = inj (f i d)) ->
  for_range n body (inj d) = inj (for_range n f d).
Proof.
  intros Hb. unfold for_range.
  assert (G : forall l, (forall i, In i l -> 0 <= i < n) ->
            forall d, fold_left (fun s i => body i s) l (inj d)
                      = inj (fold_left (fun s i => f i s) l d)).
  { induction l as [|i l IH]; intros Hl d'; [reflexivity|].
    cbn [fold_left]. rewrite Hb by (apply Hl; left; reflexivity).
    apply IH. intros k Hk. apply Hl. right. assumption. }
  apply G. intros i Hi. apply in_range. assumption.
Qed.

(** A loop that has thrown stays thrown. *)
Lemma for_range_fixed {A : Type} (n : Z) (body : Z -> A -> A) (a : A) :
  (forall i, body i a = a) -> for_range n body a = a.
Proof.
  intros Hb. unfold for_range. induction (range n) as [|i l IH]; [reflexivity|].
  cbn [fold_left]. rewrite Hb. assumption.
Qed.

Lemma for_range_first {A : Type} (n : Z) (body : Z -> A -> A) (a : A) :
  0 < n -> exists l, for_range n body a = fold_left (fun s i => body i s) l (body 0 a).
Proof.
  intros Hn. unfold for_range, range.
  destruct (Z.to_nat n) as [|k] eqn:E; [lia|].
  cbn [seq map fold_left]. eexists. reflexivity.
Qed.

Lemma fold_left_fixed {A B : Type} (f : A -> B -> A) (l : list B) (a : A) :
  (forall x, f a x = a) -> fold_left f l a = a.
Proof.
  intros Hf. induction l as [|x l IH]; [reflexivity|].
  cbn [fold_left]. rewrite Hf. assumption.
Qed.

(** [copy] of the four bytes of a pixel that the source has. *)
Lemma buf_copy_pixel (src d : buffer) (s t : Z) :
  (forall c, 0 <= c < 4 -> exists b, buf_read src (s + c) = Some b) ->
  buf_copy src d t s (s + 4) = copy_pixel src s d t.
Proof.
  intros Hr. unfold buf_copy, copy_pixel.
  replace (s + 4 - s) with 4 by lia.
  change (for_range 4 ?b d) with (b 3 (b 2 (b 1 (b 0 d)))).
  cbv beta.
  destruct (Hr 0 ltac:(lia)) as [b0 H0]. destruct (Hr 1 ltac:(lia)) as [b1 H1].
  destruct (Hr 2 ltac:(lia)) as [b2 H2]. destruct (Hr 3 ltac:(lia)) as [b3 H3].
  rewrite H0, H1, H2, H3. rewrite !Z.add_0_r in *. rewrite H0. reflexivity.
Qed.

Lemma padImage_blit (img : ImageData) (W H : Z) :
  wf_image (image img) -> kind img = NodeBuffer ->
  width (image img) <= W -> height (image img) <= H ->
  width (image img) <> W \/ height (image img) <> H ->
  padImage img W H
  = Returns (mkImageData
               (mkImage W H (blit (image img) W 0 0 (alloc (W * H * 4) 255)))
               NodeBuffer).
Proof.
  intros Hwf Hk HW HH Hne.
  pose proof (wf_width _ Hwf) as Hw. pose proof (wf_height _ Hwf) as Hh.
  unfold padImage.
  replace ((width (image img) =? W) && (height (image img) =? H)) with false
    by (symmetry; apply andb_false_iff; lia).
  replace (W * H * 4 <? 0) with false by (symmetry; apply Z.ltb_ge; nia).
  rewrite Hk.
  rewrite (for_range_inj Returns _ _
             (fun y => for_range (width (image img)) (fun x d =>
                copy_pixel (data (image img)) (pixel_index (width (image img)) x y) d
                  (pixel_index W (x + 0) (y + 0))))).
  - reflexivity.
  - intros y d Hy.
    apply for_range_inj. intros x d' Hx. cbn [and_then]. unfold copy.
    replace ((y * W + x) * 4 <? 0) with false by (symmetry; apply Z.ltb_ge; nia).
    replace (((y * width (image img) + x) * 4 <? 0)
             || ((y * width (image img) + x) * 4
                 >? Z.of_nat (length (data (image img))))) with false
      by (symmetry; apply orb_false_iff; rewrite (wf_length _ Hwf);
          split; [apply Z.ltb_ge | rewrite Z.gtb_ltb; apply Z.ltb_ge]; nia).
    replace ((y * width (image img) + x) * 4 + 4 <? 0) with false
      by (symmetry; apply Z.ltb_ge; nia).
    f_equal. rewrite buf_copy_pixel.
    + unfold pixel_index. f_equal; lia.
    + intros c Hc. apply buf_read_Some. rewrite (wf_length _ Hwf). nia.
Qed.

(** A typed array cannot be padded: the first turn of the loop throws. *)
Lemma padImage_typed_array (img : ImageData) (W H : Z) :
  kind img = TypedArray ->
  0 < width (image img) -> 0 < height (image img) -> 0 <= W * H * 4 ->
  width (image img) <> W \/ height (image img) <> H ->
  padImage img W H = Throws NotAFunction.
Proof.
  intros Hk Hw Hh HWH Hne. unfold padImage.
  replace ((width (image img) =? W) && (height (image img) =? H)) with false
    by (symmetry; apply andb_false_iff; lia).
  replace (W * H * 4 <? 0) with false by (symmetry; apply Z.ltb_ge; lia).
  rewrite Hk.
  match goal with
  | |- and_then (for_range _ ?b ?a) _ = _ =>
      destruct (for_range_first (height (image img)) b a Hh) as [l ->]
  end.
  match goal with
  | |- and_then (fold_left _ l (for_range _ ?b ?a)) _ = _ =>
      destruct (for_range_first (width (image img)) b a Hw) as [l' ->]
  end.
  cbn [and_then copy].
  rewrite (fold_left_fixed _ l') by reflexivity.
  rewrite (fold_left_fixed _ l); [reflexivity|].
  intros y. apply for_range_fixed. reflexivity.
Qed.


Lemma index_parts (i c : Z) :
  0 <= c < 4 -> (i * 4 + c) / 4 = i /\ (i * 4 + c) mod 4 = c.
Proof.
  intros Hc. split.
  - symmetry. apply (Z.div_unique _ 4 i c); lia.
  - symmetry. apply (Z.mod_unique _ 4 i c); lia.
Qed.

Lemma rgb_to_rgba_stores (jpg : RawImage) (val : Z -> Z) :
  (forall i c, 0 <= c < 3 ->
     val (i * 4 + c) = to_uint8 (buf_read (data jpg) (i * 3 + c))) ->
  (forall i, val (i * 4 + 3) = 255) ->
  stores
    (for_range (width jpg * height jpg) (fun i rgba =>
       let rgba := buf_write rgba (i * 4 + 0) (buf_read (data jpg) (i * 3 + 0)) in
       let rgba := buf_write rgba (i * 4 + 1) (buf_read (data jpg) (i * 3 + 1)) in
       let rgba := buf_write rgba (i * 4 + 2) (buf_read (data jpg) (i * 3 + 2)) in
       buf_write rgba (i * 4 + 3) (Some 255)))
    (fun j => exists i, 0 <= i < width jpg * height jpg /\ i * 4 <= j < i * 4 + 4)
    val.
Proof.
  intros Hrgb Ha.
  apply (stores_for_range _ _ (fun i j => i * 4 <= j < i * 4 + 4)).
  intros i Hi. cbn zeta.
  eapply stores_weaken;
    [|exact (stores_seq _ _ _ _ val
               (stores_seq _ _ _ _ val
                  (stores_seq _ _ _ _ val
                     (stores_write (i * 4 + 0) _ val (eq_sym (Hrgb i 0 ltac:(lia))))
                     (stores_write (i * 4 + 1) _ val (eq_sym (Hrgb i 1 ltac:(lia)))))
                  (stores_write (i * 4 + 2) _ val (eq_sym (Hrgb i 2 ltac:(lia)))))
               (stores_write (i * 4 + 3) (Some 255) val (eq_sym (Ha i))))].
  intros j. cbv beta. lia.
Qed.

Lemma buf_read_of_nat (d : buffer) (i : nat) : buf_read d (Z.of_nat i) = d !! i.
Proof.
  unfold buf_read. replace (Z.of_nat i <? 0) with false
    by (symmetry; apply Z.ltb_ge; lia).
  rewrite Nat2Z.id. reflexivity.
Qed.

Lemma Forall_buf_read (P : Z -> Prop) (d : buffer) :
  (forall j b, buf_read d j = Some b -> P b) -> Forall P d.
Proof.
  intros Hd. apply Forall_lookup. intros i x Hi.
  apply (Hd (Z.of_nat i)). rewrite buf_read_of_nat. assumption.
Qed.

End SequentialFacts.

(** X3. [padImage] of the sequential scripts, for an image held in a
    [Buffer] and a target at least as large: the result has the target
    size, shows the source with its top-left corner at the origin and is
    opaque white everywhere else. For an image held in a typed array and
    a target of another size the function throws the [TypeError] of a
    missing [copy]. *)
Theorem X3_sequential_padImage (img : Sequential.ImageData) (W H : Z) :
  wf_image (Sequential.image img) ->
  width (Sequential.image img) <= W -> height (Sequential.image img) <= H ->
  width (Sequential.image img) <> W \/ height (Sequential.image img) <> H ->
  match Sequential.kind img with
  | Sequential.TypedArray =>
      Sequential.padImage img W H = Sequential.Throws Sequential.NotAFunction
  | Sequential.NodeBuffer =>
      exists padded,
        Sequential.padImage img W H
        = Sequential.Returns (Sequential.mkImageData padded Sequential.NodeBuffer)
        /\ width padded = W /\ height padded = H
        /\ Z.of_nat (length (data padded)) = 4 * (W * H)
        /\ forall x y, 0 <= x < W -> 0 <= y < H ->
           read_pixel (data padded) W x y =
           if (x <? width (Sequential.image img)) && (y <? height (Sequential.image img))
           then read_pixel (data (Sequential.image img))
                  (width (Sequential.image img)) x y
           else opaque_white
  end.
Proof.
  intros Hwf HW HH Hne.
  pose proof (wf_width _ Hwf) as Hw. pose proof (wf_height _ Hwf) as Hh.
  destruct (Sequential.kind img) eqn:Hk.
  - eexists. split; [apply SequentialFacts.padImage_blit; assumption|].
    cbn [width height data].
    split; [reflexivity|]. split; [reflexivity|].
    assert (L : Z.of_nat (length (alloc (W * H * 4) 255)) = 4 * (W * H))
      by (rewrite BufferFacts.alloc_length; nia).
    split; [rewrite BlitFacts.blit_length; assumption|].
    intros x y Hx Hy.
    rewrite (BlitFacts.blit_pixels (Sequential.image img) W H 0 0 255);
      try assumption; try lia.
    + unfold Placement.covered. rewrite !Z.sub_0_r, !Z.add_0_l.
      replace (0 <=? x) with true by (symmetry; apply Z.leb_le; lia).
      replace (0 <=? y) with true by (symmetry; apply Z.leb_le; lia).
      cbn [andb]. rewrite andb_true_r. reflexivity.
    + intros j Hj. apply (BufferFacts.buf_read_alloc (W * H * 4) 255 j). lia.
  - apply SequentialFacts.padImage_typed_array; try assumption. nia.
Qed.

(** A 1x1 red image in a [Buffer], padded to 2x1. *)
Lemma X3_witness :
  let img := Sequential.mkImageData (mkImage 1 1 [255; 0; 0; 255]) Sequential.NodeBuffer in
  exists padded,
    Sequential.padImage img 2 1
    = Sequential.Returns (Sequential.mkImageData padded Sequential.NodeBuffer)
    /\ read_pixel (data padded) 2 0 0 = [Some 255; Some 0; Some 0; Some 255]
    /\ read_pixel (data padded) 2 1 0 = opaque_white.
Proof.
  intros img.
  assert (Hwf : wf_image (Sequential.image img)).
  { split; cbn; try lia. repeat constructor; unfold is_byte; lia. }
  destruct (X3_sequential_padImage img 2 1 Hwf ltac:(cbn; lia) ltac:(cbn; lia)
              ltac:(left; cbn; lia)) as (padded & Hp & _ & _ & _ & Hpx).
  exists padded. split; [exact Hp|]. split.
  - rewrite (Hpx 0 0) by lia. vm_compute. reflexivity.
  - rewrite (Hpx 1 0) by lia. vm_compute. reflexivity.
Defined.

(** X4. [readImage] on a JPEG decoded to three bytes per pixel: the image
    returned is a well-formed RGBA image of the same size in a [Buffer],
    with the three colour bytes of every pixel kept and an alpha of 255. *)
Theorem X4_readImage_adds_alpha (s : Sequential.script) (ext : string)
  (jpg : RawImage) :
  ext = ".jpg"%string \/ ext = ".jpeg"%string ->
  0 < width jpg -> 0 < height jpg ->
  Z.of_nat (length (data jpg)) = 3 * (width jpg * height jpg) ->
  Forall is_byte (data jpg) ->
  exists rgba,
    Sequential.readImage s ext (Ok jpg)
    = Sequential.Returns
        (Sequential.mkImageData (mkImage (width jpg) (height jpg) rgba)
           Sequential.NodeBuffer)
    /\ wf_image (mkImage (width jpg) (height jpg) rgba)
    /\ forall i, 0 <= i < width jpg * height jpg ->
       map (buf_read rgba) [4 * i; 4 * i + 1; 4 * i + 2; 4 * i + 3]
       = [buf_read (data jpg) (3 * i); buf_read (data jpg) (3 * i + 1);
          buf_read (data jpg) (3 * i + 2); Some 255].
Proof.
  intros Hext Hw Hh Hlen Hbytes.
  exists (Sequential.rgb_to_rgba jpg).
  assert (Hread : Sequential.readImage s ext (Ok jpg)
                  = Sequential.Returns
                      (Sequential.mkImageData
                         (mkImage (width jpg) (height jpg) (Sequential.rgb_to_rgba jpg))
                         Sequential.NodeBuffer)).
  { unfold Sequential.readImage.
    replace (String.eqb ext ".png") with false by (destruct Hext; subst; reflexivity).
    replace (String.eqb ext ".jpg" || String.eqb ext ".jpeg") with true
      by (destruct Hext; subst; reflexivity).
    cbn [Sequential.of_result Sequential.and_then].
    replace (Z.of_nat (length (data jpg)) =? width jpg * height jpg * 4) with false
      by (symmetry; apply Z.eqb_neq; nia).
    replace (width jpg * height jpg * 4 <? 0) with false
      by (symmetry; apply Z.ltb_ge; nia).
    reflexivity. }
  split; [exact Hread|].
  set (val := fun j => if j mod 4 =? 3 then 255
                       else to_uint8 (buf_read (data jpg) (3 * (j / 4) + j mod 4))).
  assert (S : stores
            (for_range (width jpg * height jpg) (fun i rgba =>
               let rgba := buf_write rgba (i * 4 + 0) (buf_read (data jpg) (i * 3 + 0)) in
               let rgba := buf_write rgba (i * 4 + 1) (buf_read (data jpg) (i * 3 + 1)) in
               let rgba := buf_write rgba (i * 4 + 2) (buf_read (data jpg) (i * 3 + 2)) in
               buf_write rgba (i * 4 + 3) (Some 255)))
            (fun j => exists i, 0 <= i < width jpg * height jpg
                                /\ i * 4 <= j < i * 4 + 4)
            val).
  { apply SequentialFacts.rgb_to_rgba_stores.
    - intros i c Hc. unfold val.
      destruct (SequentialFacts.index_parts i c ltac:(lia)) as [-> ->].
      replace (c =? 3) with false by (symmetry; apply Z.eqb_neq; lia).
      do 2 f_equal. lia.
    - intros i. unfold val.
      destruct (SequentialFacts.index_parts i 3 ltac:(lia)) as [_ ->]. reflexivity. }
  set (d0 := alloc (width jpg * height jpg * 4) 0).
  assert (L0 : Z.of_nat (length d0) = 4 * (width jpg * height jpg))
    by (subst d0; rewrite BufferFacts.alloc_length; nia).
  assert (L : Z.of_nat (length (Sequential.rgb_to_rgba jpg))
              = 4 * (width jpg * height jpg)).
  { rewrite <- L0. f_equal. exact (proj1 (S d0 0)). }
  assert (Hval : forall i c, 0 <= i < width jpg * height jpg -> 0 <= c < 4 ->
            buf_read (Sequential.rgb_to_rgba jpg) (i * 4 + c) = Some (val (i * 4 + c))).
  { intros i c Hi Hc. unfold Sequential.rgb_to_rgba. fold d0.
    destruct (S d0 (i * 4 + c)) as (_ & _ & K). apply K; [|lia].
    exists i. lia. }
  assert (Hsrc : forall i c, 0 <= i < width jpg * height jpg -> 0 <= c < 3 ->
            exists b, buf_read (data jpg) (3 * i + c) = Some b /\ is_byte b).
  { intros i c Hi Hc.
    destruct (BufferFacts.buf_read_Some (data jpg) (3 * i + c)) as [b Hb]; [lia|].
    exists b. split; [assumption|].
    eapply BufferFacts.buf_read_byte; eassumption. }
  split.
  - split; cbn [width height data]; try assumption.
    apply SequentialFacts.Forall_buf_read. intros j b Hj.
    assert (Hr : 0 <= j < 4 * (width jpg * height jpg)).
    { rewrite <- L. unfold buf_read in Hj.
      destruct (j <? 0) eqn:E; [discriminate|]. apply Z.ltb_ge in E.
      apply lookup_lt_Some in Hj. lia. }
    pose proof (Z.div_mod j 4 ltac:(lia)) as Hdm.
    pose proof (Z.mod_pos_bound j 4 ltac:(lia)) as Hm.
    replace j with ((j / 4) * 4 + j mod 4) in Hj by lia.
    rewrite Hval in Hj by lia. injection Hj as <-.
    unfold val.
    destruct (SequentialFacts.index_parts (j / 4) (j mod 4) Hm) as [-> ->].
    destruct (j mod 4 =? 3) eqn:E3; [unfold is_byte; lia|].
    apply Z.eqb_neq in E3.
    destruct (Hsrc (j / 4) (j mod 4)) as (b & -> & Hb); [lia | lia |].
    cbn [to_uint8]. rewrite Z.mod_small by exact Hb. exact Hb.
  - intros i Hi. cbn [map].
    replace (4 * i) with (i * 4 + 0) at 1 by lia.
    replace (4 * i + 1) with (i * 4 + 1) by lia.
    replace (4 * i + 2) with (i * 4 + 2) by lia.
    replace (4 * i + 3) with (i * 4 + 3) by lia.
    rewrite !Hval by lia. unfold val.
    destruct (SequentialFacts.index_parts i 0 ltac:(lia)) as [-> ->].
    destruct (SequentialFacts.index_parts i 1 ltac:(lia)) as [-> ->].
    destruct (SequentialFacts.index_parts i 2 ltac:(lia)) as [-> ->].
    destruct (SequentialFacts.index_parts i 3 ltac:(lia)) as [_ ->].
    cbn [Z.eqb].
    destruct (Hsrc i 0) as (b0 & E0 & B0); [lia | lia |].
    destruct (Hsrc i 1) as (b1 & E1 & B1); [lia | lia |].
    destruct (Hsrc i 2) as (b2 & E2 & B2); [lia | lia |].
    rewrite Z.add_0_r in *. rewrite E0, E1, E2. cbn [to_uint8].
    rewrite !Z.mod_small by assumption. reflexivity.
Qed.

(** A JPEG of two pixels, red and blue, without alpha. *)
Lemma X4_witness :
  exists rgba,
    Sequential.readImage Sequential.Standalone ".jpg"
      (Ok (mkImage 2 1 [255; 0; 0; 0; 0; 255]))
    = Sequential.Returns
        (Sequential.mkImageData (mkImage 2 1 rgba) Sequential.NodeBuffer)
    /\ map (buf_read rgba) [4; 5; 6; 7] = [Some 0; Some 0; Some 255; Some 255].
Proof.
  destruct (X4_readImage_adds_alpha Sequential.Standalone ".jpg"
              (mkImage 2 1 [255; 0; 0; 0; 0; 255]))
    as (rgba & Hr & _ & Hpx).
  - left. reflexivity.
  - cbn. lia.
  - cbn. lia.
  - vm_compute. reflexivity.
  - repeat constructor; unfold is_byte; lia.
  - exists rgba. split; [exact Hr|].
    exact (Hpx 1 ltac:(cbn; lia)).
Defined.



(** ** More on padding *)

Module PadMore.

Import BufferFacts PadFacts BlitFacts Optimized Placement.

Lemma map_const_replicate {A B : Type} (b : B) (n : nat) (a : A) :
  map (fun _ => b) (replicate n a) = replicate n b.
Proof. induction n as [|n IH]; [reflexivity|]. cbn. rewrite IH. reflexivity. Qed.

Lemma buf_read_replicate (n : nat) (fill j : Z) :
  0 <= j < Z.of_nat n -> buf_read (replicate n fill) j = Some fill.
Proof.
  intros Hj. unfold buf_read.
  replace (j <? 0) with false by (symmetry; apply Z.ltb_ge; lia).
  apply lookup_replicate_2. lia.
Qed.

(** [Buffer.copy] of [n] bytes that the source has. *)
Lemma buf_copy_stores (src : buffer) (t s n : Z) (val : Z -> Z) :
  (forall i, 0 <= i < n ->
     exists b, buf_read src (s + i) = Some b /\ val (t + i) = b mod 256) ->
  stores (fun d => buf_copy src d t s (s + n)) (fun j => t <= j < t + n) val.
Proof.
  intros Hr. unfold buf_copy. replace (s + n - s) with n by lia.
  eapply stores_weaken;
    [|apply (stores_for_range n _ (fun i j => j = t + i))].
  - intros j. split.
    + intros (i & Hi & ->). lia.
    + intros Hj. exists (j - t). lia.
  - intros i Hi. destruct (Hr i Hi) as (b & -> & Hv).
    apply (stores_write (t + i) (Some b) val). symmetry. exact Hv.
Qed.

(** The rows copied by [PNG.bitblt] store what the pixel loops store. *)
Lemma bitblt_stores (img : RawImage) (W H : Z) :
  wf_image img -> width img <= W -> height img <= H ->
  4 * (W * H) < 2 ^ 31 ->
  stores
    (for_range (height img) (fun y d =>
       buf_copy (data img) d
         (shl (y * W) 2)
         (shl (y * width img) 2)
         (shl (y * width img + width img) 2)))
    (fun j => exists y, 0 <= y < height img /\ exists x, 0 <= x < width img
              /\ at_pixel (pixel_index W (x + 0) (y + 0)) j)
    (placed_byte img W 0 0).
Proof.
  intros Hwf HW HH Hb.
  pose proof (wf_width _ Hwf) as Hw. pose proof (wf_height _ Hwf) as Hh.
  apply (stores_for_range (height img) _
           (fun y j => exists x, 0 <= x < width img
                       /\ at_pixel (pixel_index W (x + 0) (y + 0)) j)).
  intros y Hy.
  rewrite !shl2_small by nia.
  replace (4 * (y * width img + width img))
    with (4 * (y * width img) + 4 * width img) by lia.
  eapply stores_weaken; [|apply buf_copy_stores].
  - intros j. unfold at_pixel, pixel_index. split.
    + intros Hj. exists ((j - 4 * (y * W)) / 4).
      pose proof (Z.div_mod (j - 4 * (y * W)) 4 ltac:(lia)).
      pose proof (Z.mod_pos_bound (j - 4 * (y * W)) 4 ltac:(lia)).
      nia.
    + intros (x & Hx & Hj). nia.
  - intros i Hi.
    destruct (buf_read_Some (data img) (4 * (y * width img) + i)) as [b Hb'].
    { rewrite (wf_length _ Hwf). nia. }
    exists b. split; [assumption|]. unfold placed_byte.
    pose proof (Z.div_mod i 4 ltac:(lia)) as Hdm.
    pose proof (Z.mod_pos_bound i 4 ltac:(lia)) as Hm.
    assert (Hi4 : 0 <= i / 4 < width img) by nia.
    replace (4 * (y * W) + i) with (pixel_index W (i / 4) y + i mod 4)
      by (unfold pixel_index; lia).
    destruct (pixel_of_index W (i / 4) y (i mod 4)) as (E1 & E2 & E3); [lia | lia |].
    rewrite E1, E2, E3, !Z.sub_0_r.
    replace (pixel_index (width img) (i / 4) y + i mod 4)
      with (4 * (y * width img) + i) by (unfold pixel_index; lia).
    rewrite Hb'. reflexivity.
Qed.

(** [padImage] of the second variant, pixel by pixel. *)
Lemma padImage2_pixels (img : RawImage) (W H : Z) :
  wf_image img -> width img <= W -> height img <= H ->
  4 * (W * H) < 2 ^ 31 ->
  width img <> W \/ height img <> H ->
  exists padded,
    padImage2 img W H = Ok padded
    /\ width padded = W /\ height padded = H
    /\ Z.of_nat (length (data padded)) = 4 * (W * H)
    /\ forall x y, 0 <= x < W -> 0 <= y < H ->
       read_pixel (data padded) W x y =
       if (x <? width img) && (y <? height img)
       then read_pixel (data img) (width img) x y
       else opaque_white.
Proof.
  intros Hwf HW HH Hb Hne.
  pose proof (wf_width _ Hwf) as Hw. pose proof (wf_height _ Hwf) as Hh.
  destruct (padImage2 img W H) as [padded|e] eqn:Hp.
  2:{ exfalso. revert Hp. unfold padImage2.
      replace ((width img =? W) && (height img =? H)) with false
        by (symmetry; apply andb_false_iff; lia).
      unfold new_PNG. replace ((0 <? W) && (0 <? H)) with true
        by (symmetry; apply andb_true_iff; lia).
      unfold bitblt. cbn [width height data].
      replace ((width img >? W) || (height img >? H)) with false
        by (symmetry; apply orb_false_iff; lia).
      discriminate. }
  exists padded. split; [reflexivity|].
  destruct (padImage2_size img padded W H Hwf Hp) as (E1 & E2 & E3).
  split; [assumption|]. split; [assumption|]. split; [assumption|].
  revert Hp. unfold padImage2.
  replace ((width img =? W) && (height img =? H)) with false
    by (symmetry; apply andb_false_iff; lia).
  unfold new_PNG. replace ((0 <? W) && (0 <? H)) with true
    by (symmetry; apply andb_true_iff; lia).
  unfold bitblt. cbn [width height data].
  replace ((width img >? W) || (height img >? H)) with false
    by (symmetry; apply orb_false_iff; lia).
  cbn [bind]. intros Hp. injection Hp as <-. cbn [data].
  intros x y Hx Hy. unfold alloc. rewrite map_const_replicate.
  rewrite (placed_pixels _ img W H 0 0 255);
    try assumption; try lia.
  - unfold covered. rewrite !Z.sub_0_r, !Z.add_0_l.
    replace (0 <=? x) with true by (symmetry; apply Z.leb_le; lia).
    replace (0 <=? y) with true by (symmetry; apply Z.leb_le; lia).
    cbn [andb]. rewrite andb_true_r. reflexivity.
  - apply (bitblt_stores img W H); assumption.
  - rewrite length_replicate. nia.
  - intros j Hj. apply buf_read_replicate. nia.
Qed.

(** [padImage] of [compare-screenshots.ts] as a copy to the centre. *)
Lemma screenshots_padImage_blit (img : RawImage) (W H : Z) :
  wf_image img -> width img <= W -> height img <= H ->
  width img <> W \/ height img <> H ->
  CompareScreenshots.padImage img W H
  = Ok (mkImage W H
          (blit img W ((W - width img) / 2) ((H - height img) / 2)
             (alloc (W * H * 4) 255))).
Proof.
  intros Hwf HW HH Hne.
  pose proof (wf_width _ Hwf) as Hw. pose proof (wf_height _ Hwf) as Hh.
  unfold CompareScreenshots.padImage.
  replace ((width img =? W) && (height img =? H)) with false
    by (symmetry; apply andb_false_iff; lia).
  replace (W * H * 4 <? 0) with false by (symmetry; apply Z.ltb_ge; nia).
  do 2 f_equal. unfold blit.
  apply for_range_ext. intros y d Hy.
  apply for_range_ext. intros x d' Hx.
  cbv zeta. unfold copy_pixel, pixel_index.
  replace ((y * width img + x) * 4) with (4 * (width img * y + x)) by lia.
  replace (((y + (H - height img) / 2) * W + (x + (W - width img) / 2)) * 4)
    with (4 * (W * (y + (H - height img) / 2) + (x + (W - width img) / 2))) by lia.
  reflexivity.
Qed.

Lemma centre_offset (W w : Z) : w <= W -> 0 <= (W - w) / 2 /\ w + (W - w) / 2 <= W.
Proof.
  intros Hw. pose proof (Z.div_mod (W - w) 2 ltac:(lia)).
  pose proof (Z.mod_pos_bound (W - w) 2 ltac:(lia)). lia.
Qed.

(** [padImage] of [compare.ts] as a copy to the centre. *)
Lemma compare_ts_padImage_blit (img : RawImage) (W H : Z) :
  wf_image img -> width img <= W -> height img <= H ->
  4 * (W * H) < 2 ^ 31 ->
  Compare.padImage img W H
  = Ok (mkImage W H
          (blit img W ((W - width img) / 2) ((H - height img) / 2)
             (alloc (4 * W * H) 0))).
Proof.
  intros Hwf HW HH Hb.
  pose proof (wf_width _ Hwf) as Hw. pose proof (wf_height _ Hwf) as Hh.
  destruct (centre_offset W (width img) HW) as [Hx1 Hx2].
  destruct (centre_offset H (height img) HH) as [Hy1 Hy2].
  unfold Compare.padImage, new_PNG.
  replace ((0 <? W) && (0 <? H)) with true by (symmetry; apply andb_true_iff; lia).
  do 2 f_equal. unfold blit.
  apply for_range_ext. intros y d Hy.
  apply for_range_ext. intros x d' Hx.
  cbv zeta. rewrite !shl2_small by nia. unfold copy_pixel, pixel_index.
  replace (y * width img + x) with (width img * y + x) by lia.
  replace ((y + (H - height img) / 2) * W + (x + (W - width img) / 2))
    with (W * (y + (H - height img) / 2) + (x + (W - width img) / 2)) by lia.
  reflexivity.
Qed.

End PadMore.

(** X1. [padImage] of [compare_optimized.ts], in the variant that writes
    the pixels one by one and in the variant built on [PNG.bitblt]: for a
    decoded image and a larger target whose buffer stays below 2^31
    bytes, the result has the target size, shows the source with its
    top-left corner at the origin and is opaque white everywhere else. *)
Theorem X1_optimized_padImage_pixels (v : Pool.variant) (img : RawImage) (W H : Z) :
  wf_image img -> width img <= W -> height img <= H ->
  4 * (W * H) < 2 ^ 31 ->
  width img <> W \/ height img <> H ->
  exists padded,
    match v with
    | Pool.First => Optimized.padImage img W H
    | Pool.Second => Optimized.padImage2 img W H
    end = Ok padded
    /\ width padded = W /\ height padded = H
    /\ Z.of_nat (length (data padded)) = 4 * (W * H)
    /\ forall x y, 0 <= x < W -> 0 <= y < H ->
       read_pixel (data padded) W x y =
       if (x <? width img) && (y <? height img)
       then read_pixel (data img) (width img) x y
       else opaque_white.
Proof.
  intros Hwf HW HH Hb Hne.
  pose proof (wf_width _ Hwf) as Hw. pose proof (wf_height _ Hwf) as Hh.
  destruct v.
  - apply PadFacts.padImage_pixels; try assumption; try lia. nia.
  - apply PadMore.padImage2_pixels; assumption.
Qed.

(** A 1x1 red image padded to 2x1 by the second variant. *)
Lemma X1_witness :
  exists padded,
    Optimized.padImage2 (mkImage 1 1 [255; 0; 0; 255]) 2 1 = Ok padded
    /\ read_pixel (data padded) 2 0 0 = [Some 255; Some 0; Some 0; Some 255]
    /\ read_pixel (data padded) 2 1 0 = opaque_white.
Proof.
  assert (Hwf : wf_image (mkImage 1 1 [255; 0; 0; 255])).
  { split; cbn; try lia. repeat constructor; unfold is_byte; lia. }
  destruct (X1_optimized_padImage_pixels Pool.Second (mkImage 1 1 [255; 0; 0; 255]) 2 1
              Hwf ltac:(cbn; lia) ltac:(cbn; lia) ltac:(cbn; lia)
              ltac:(left; cbn; lia)) as (padded & Hp & _ & _ & _ & Hpx).
  exists padded. split; [exact Hp|]. split.
  - rewrite (Hpx 0 0) by lia. vm_compute. reflexivity.
  - rewrite (Hpx 1 0) by lia. vm_compute. reflexivity.
Defined.

(** X2. [compareScreenshots] of [compare_optimized.ts] on two decoded
    screenshots, in both variants: both operands handed to the differ
    have the size of the larger width and the larger height, so the
    differ's precondition holds, and the function returns the count
    together with the diff path turned to [.jpg]; it throws only when the
    diff image cannot be written. *)
Theorem X2_optimized_compare_operands (v : Pool.variant) (a b : RawImage)
  (path : string) :
  wf_image a -> wf_image b ->
  exists d1 d2,
    Optimized.differ_operands v a b
    = Ok (d1, d2, Z.max (width a) (width b), Z.max (height a) (height b))
    /\ Z.of_nat (length d1)
       = 4 * (Z.max (width a) (width b) * Z.max (height a) (height b))
    /\ Z.of_nat (length d2)
       = 4 * (Z.max (width a) (width b) * Z.max (height a) (height b))
    /\ Optimized.compareScreenshots v a b path true
       = Ok (of_nat (Differ.count_differing Differ.threshold_default d1 d2),
             Optimized.replace_png_suffix path)
    /\ Optimized.compareScreenshots v a b path false = Err WriteFailed.
Proof.
  intros Ha Hb.
  destruct (PadFacts.differ_operands_ok v a b Ha Hb) as (d1 & d2 & W & H & Hops).
  destruct (PadFacts.differ_operands_size v a b d1 d2 W H Ha Hb Hops)
    as (-> & -> & L1 & L2).
  exists d1, d2. split; [assumption|]. split; [assumption|]. split; [assumption|].
  unfold Optimized.compareScreenshots. rewrite Hops. cbn [bind].
  unfold Differ.pixelmatch.
  replace ((Z.of_nat (length d1) =? Z.of_nat (length d2))
           && (Z.of_nat (length d1)
               =? Z.max (width a) (width b) * Z.max (height a) (height b) * 4))
    with true by (symmetry; apply andb_true_iff; split; apply Z.eqb_eq; lia).
  cbn [bind]. split; reflexivity.
Qed.

(** A 1x1 and a 2x1 screenshot that agree where they overlap: one pixel,
    the padding of the first against the second pixel of the second, is
    counted. *)
Lemma X2_witness :
  let a := mkImage 1 1 [255; 0; 0; 255] in
  let b := mkImage 2 1 [255; 0; 0; 255; 0; 0; 0; 255] in
  Optimized.compareScreenshots Pool.First a b "x_diff.png" true
  = Ok (of_nat 1, "x_diff.jpg"%string).
Proof.
  intros a b.
  assert (Ha : wf_image a)
    by (split; cbn; try lia; repeat constructor; unfold is_byte; lia).
  assert (Hb : wf_image b)
    by (split; cbn; try lia; repeat constructor; unfold is_byte; lia).
  destruct (X2_optimized_compare_operands Pool.First a b "x_diff.png" Ha Hb)
    as (d1 & d2 & Hops & _ & _ & Hc & _).
  rewrite Hc. vm_compute in Hops. injection Hops as <- <-.
  vm_compute. reflexivity.
Defined.

(** X6. [padImage] of [compare-screenshots.ts], for a decoded image and a
    larger target: the result has the target size, shows the source
    centred (the offsets are the halves of the differences, rounded
    down) and is opaque white everywhere else. *)
Theorem X6_screenshots_padImage_centred (img : RawImage) (W H : Z) :
  wf_image img -> width img <= W -> height img <= H ->
  width img <> W \/ height img <> H ->
  exists padded,
    CompareScreenshots.padImage img W H = Ok padded
    /\ width padded = W /\ height padded = H
    /\ Z.of_nat (length (data padded)) = 4 * (W * H)
    /\ forall x y, 0 <= x < W -> 0 <= y < H ->
       read_pixel (data padded) W x y =
       if Placement.covered img ((W - width img) / 2) ((H - height img) / 2) x y
       then read_pixel (data img) (width img)
              (x - (W - width img) / 2) (y - (H - height img) / 2)
       else opaque_white.
Proof.
  intros Hwf HW HH Hne.
  pose proof (wf_width _ Hwf) as Hw. pose proof (wf_height _ Hwf) as Hh.
  destruct (PadMore.centre_offset W (width img) HW) as [Hx1 Hx2].
  destruct (PadMore.centre_offset H (height img) HH) as [Hy1 Hy2].
  eexists. split; [apply PadMore.screenshots_padImage_blit; assumption|].
  cbn [width height data].
  split; [reflexivity|]. split; [reflexivity|].
  assert (L : Z.of_nat (length (alloc (W * H * 4) 255)) = 4 * (W * H))
    by (rewrite BufferFacts.alloc_length; nia).
  split; [rewrite BlitFacts.blit_length; assumption|].
  intros x y Hx Hy.
  apply (BlitFacts.blit_pixels img W H _ _ 255); try assumption; try lia.
  intros j Hj. apply (BufferFacts.buf_read_alloc (W * H * 4) 255 j). lia.
Qed.

(** A 1x1 red image padded to 3x1 sits in the middle. *)
Lemma X6_witness :
  exists padded,
    CompareScreenshots.padImage (mkImage 1 1 [255; 0; 0; 255]) 3 1 = Ok padded
    /\ read_pixel (data padded) 3 0 0 = opaque_white
    /\ read_pixel (data padded) 3 1 0 = [Some 255; Some 0; Some 0; Some 255]
    /\ read_pixel (data padded) 3 2 0 = opaque_white.
Proof.
  assert (Hwf : wf_image (mkImage 1 1 [255; 0; 0; 255])).
  { split; cbn; try lia. repeat constructor; unfold is_byte; lia. }
  destruct (X6_screenshots_padImage_centred (mkImage 1 1 [255; 0; 0; 255]) 3 1
              Hwf ltac:(cbn; lia) ltac:(cbn; lia)
              ltac:(left; cbn; lia)) as (padded & Hp & _ & _ & _ & Hpx).
  exists padded. split; [exact Hp|]. split; [|split].
  - rewrite (Hpx 0 0) by lia. vm_compute. reflexivity.
  - rewrite (Hpx 1 0) by lia. vm_compute. reflexivity.
  - rewrite (Hpx 2 0) by lia. vm_compute. reflexivity.
Defined.

(** X7. [compareScreenshots] of [compare-screenshots.ts] on two files that
    decode: both are padded to the common size, the differ's
    precondition holds, and the answer is the count with the flag
    [count > 0]; the sentinel [Infinity] is answered only when pixels
    differ and the diff image cannot be written. *)
Theorem X7_screenshots_compare_decoded (a b : RawImage) (saved : bool) :
  wf_image a -> wf_image b ->
  exists p1 p2,
    CompareScreenshots.padImage a (Z.max (width a) (width b))
      (Z.max (height a) (height b)) = Ok p1
    /\ CompareScreenshots.padImage b (Z.max (width a) (width b))
         (Z.max (height a) (height b)) = Ok p2
    /\ length (data p1) = length (data p2)
    /\ let n := Differ.count_differing Differ.threshold_default (data p1) (data p2) in
       CompareScreenshots.compareScreenshots (Ok a) (Ok b) saved
       = if gt (of_nat n) (of_Z 0) && negb saved then (true, PosInfinity)
         else (gt (of_nat n) (of_Z 0), of_nat n).
Proof.
  intros Ha Hb.
  set (W := Z.max (width a) (width b)). set (H := Z.max (height a) (height b)).
  assert (Hpad : forall img, wf_image img -> width img <= W -> height img <= H ->
            exists p, CompareScreenshots.padImage img W H = Ok p
                      /\ Z.of_nat (length (data p)) = 4 * (W * H)).
  { intros img Hwf HW HH.
    pose proof (wf_width _ Hwf) as Hw. pose proof (wf_height _ Hwf) as Hh.
    destruct (Z.eq_dec (width img) W) as [E1|E1];
      [destruct (Z.eq_dec (height img) H) as [E2|E2]|].
    - exists img. unfold CompareScreenshots.padImage.
      rewrite E1, E2, !Z.eqb_refl. split; [reflexivity|].
      rewrite (wf_length _ Hwf), E1, E2. reflexivity.
    - eexists. split; [apply PadMore.screenshots_padImage_blit; auto|].
      cbn [data]. rewrite BlitFacts.blit_length, BufferFacts.alloc_length; nia.
    - eexists. split; [apply PadMore.screenshots_padImage_blit; auto|].
      cbn [data]. rewrite BlitFacts.blit_length, BufferFacts.alloc_length; nia. }
  destruct (Hpad a Ha ltac:(subst W; lia) ltac:(subst H; lia)) as (p1 & Hp1 & L1).
  destruct (Hpad b Hb ltac:(subst W; lia) ltac:(subst H; lia)) as (p2 & Hp2 & L2).
  exists p1, p2. split; [assumption|]. split; [assumption|]. split; [lia|].
  cbv zeta. unfold CompareScreenshots.compareScreenshots, CompareScreenshots.compare_body.
  cbn [bind]. fold W H. rewrite Hp1, Hp2. cbn [bind].
  unfold Differ.pixelmatch.
  replace ((Z.of_nat (length (data p1)) =? Z.of_nat (length (data p2)))
           && (Z.of_nat (length (data p1)) =? W * H * 4))
    with true by (symmetry; apply andb_true_iff; split; apply Z.eqb_eq; lia).
  cbn [bind].
  destruct (gt _ _ && negb saved); reflexivity.
Qed.

(** A 1x1 and a 3x1 screenshot: the two white pixels of the padding meet
    two black pixels. *)
Lemma X7_witness :
  let a := mkImage 1 1 [255; 0; 0; 255] in
  let b := mkImage 3 1 [0; 0; 0; 255; 255; 0; 0; 255; 0; 0; 0; 255] in
  CompareScreenshots.compareScreenshots (Ok a) (Ok b) true = (true, of_nat 2)
  /\ CompareScreenshots.compareScreenshots (Ok a) (Ok b) false = (true, PosInfinity).
Proof.
  intros a b.
  assert (Ha : wf_image a)
    by (split; cbn; try lia; repeat constructor; unfold is_byte; lia).
  assert (Hb : wf_image b)
    by (split; cbn; try lia; repeat constructor; unfold is_byte; lia).
  split.
  - destruct (X7_screenshots_compare_decoded a b true Ha Hb)
      as (p1 & p2 & Hp1 & Hp2 & _ & Hc).
    rewrite Hc. vm_compute in Hp1, Hp2.
    injection Hp1 as <-. injection Hp2 as <-. vm_compute. reflexivity.
  - vm_compute. reflexivity.
Defined.

(** X8. [compareScreenshots] of [compare.ts] on two files that decode:
    when the two screenshots have the same width and the same height the
    answer is the differ's count on the two buffers; when they differ in
    width or height the differ rejects them and the answer is the
    sentinel of [catch], different with 0 pixels. *)
Theorem X8_compare_ts_compare_decoded (a b : RawImage) (saved : bool) :
  wf_image a -> wf_image b ->
  ((width a = width b /\ height a = height b) ->
   let n := Differ.count_differing Differ.threshold_default (data a) (data b) in
   Compare.compareScreenshots (Ok a) (Ok b) true
   = (gt (of_nat n) (of_Z 0), of_nat n))
  /\ ((width a <> width b \/ height a <> height b) ->
      Compare.compareScreenshots (Ok a) (Ok b) saved = (true, of_Z 0)).
Proof.
  intros Ha Hb.
  pose proof (wf_width _ Ha). pose proof (wf_height _ Ha).
  pose proof (wf_width _ Hb). pose proof (wf_height _ Hb).
  pose proof (wf_length _ Ha) as La. pose proof (wf_length _ Hb) as Lb.
  unfold Compare.compareScreenshots, Compare.compare_body, Compare.differ_operands.
  cbn [bind]. unfold Differ.pixelmatch. split.
  - intros [Ew Eh]. cbv zeta.
    replace ((Z.of_nat (length (data a)) =? Z.of_nat (length (data b)))
             && (Z.of_nat (length (data a))
                 =? Z.max (width a) (width b) * Z.max (height a) (height b) * 4))
      with true; [reflexivity|].
    symmetry. apply andb_true_iff. split; apply Z.eqb_eq; rewrite ?La, ?Lb.
    + rewrite Ew, Eh. reflexivity.
    + rewrite Ew, Eh, !Z.max_id. lia.
  - intros Hne.
    replace ((Z.of_nat (length (data a)) =? Z.of_nat (length (data b)))
             && (Z.of_nat (length (data a))
                 =? Z.max (width a) (width b) * Z.max (height a) (height b) * 4))
      with false; [reflexivity|].
    symmetry. apply andb_false_iff.
    destruct (Z.eq_dec (Z.of_nat (length (data a))) (Z.of_nat (length (data b))))
      as [E|E]; [right | left; apply Z.eqb_neq; assumption].
    apply Z.eqb_neq. rewrite La in *. rewrite Lb in E. nia.
Qed.

(** Two red pixels side by side against two red pixels one above the
    other: the same number of bytes, still rejected. *)
Lemma X8_witness :
  let a := mkImage 2 1 [255; 0; 0; 255; 255; 0; 0; 255] in
  let b := mkImage 1 2 [255; 0; 0; 255; 255; 0; 0; 255] in
  Compare.compareScreenshots (Ok a) (Ok b) true = (true, of_Z 0)
  /\ Compare.compareScreenshots (Ok a) (Ok a) true = (false, of_nat 0).
Proof.
  intros a b.
  assert (Ha : wf_image a)
    by (split; cbn; try lia; repeat constructor; unfold is_byte; lia).
  assert (Hb : wf_image b)
    by (split; cbn; try lia; repeat constructor; unfold is_byte; lia).
  split.
  - exact (proj2 (X8_compare_ts_compare_decoded a b true Ha Hb)
             ltac:(left; cbn; lia)).
  - vm_compute. reflexivity.
Defined.

(** X9. [padImage] of [compare.ts] (which no code calls), for a decoded
    image and a larger target whose buffer stays below 2^31 bytes: the
    source is copied to the centre and every other pixel is transparent
    black, the zero fill of [new PNG], not white. *)
Theorem X9_compare_ts_padImage_centred (img : RawImage) (W H : Z) :
  wf_image img -> width img <= W -> height img <= H ->
  4 * (W * H) < 2 ^ 31 ->
  exists padded,
    Compare.padImage img W H = Ok padded
    /\ width padded = W /\ height padded = H
    /\ Z.of_nat (length (data padded)) = 4 * (W * H)
    /\ forall x y, 0 <= x < W -> 0 <= y < H ->
       read_pixel (data padded) W x y =
       if Placement.covered img ((W - width img) / 2) ((H - height img) / 2) x y
       then read_pixel (data img) (width img)
              (x - (W - width img) / 2) (y - (H - height img) / 2)
       else [Some 0; Some 0; Some 0; Some 0].
Proof.
  intros Hwf HW HH Hb.
  pose proof (wf_width _ Hwf) as Hw. pose proof (wf_height _ Hwf) as Hh.
  destruct (PadMore.centre_offset W (width img) HW) as [Hx1 Hx2].
  destruct (PadMore.centre_offset H (height img) HH) as [Hy1 Hy2].
  eexists. split; [apply PadMore.compare_ts_padImage_blit; assumption|].
  cbn [width height data].
  split; [reflexivity|]. split; [reflexivity|].
  assert (L : Z.of_nat (length (alloc (4 * W * H) 0)) = 4 * (W * H))
    by (rewrite BufferFacts.alloc_length; nia).
  split; [rewrite BlitFacts.blit_length; assumption|].
  intros x y Hx Hy.
  apply (BlitFacts.blit_pixels img W H _ _ 0); try assumption; try lia.
  intros j Hj. apply (BufferFacts.buf_read_alloc (4 * W * H) 0 j). lia.
Qed.

(** A 1x1 red image padded to 3x1. *)
Lemma X9_witness :
  exists padded,
    Compare.padImage (mkImage 1 1 [255; 0; 0; 255]) 3 1 = Ok padded
    /\ read_pixel (data padded) 3 0 0 = [Some 0; Some 0; Some 0; Some 0]
    /\ read_pixel (data padded) 3 1 0 = [Some 255; Some 0; Some 0; Some 255].
Proof.
  assert (Hwf : wf_image (mkImage 1 1 [255; 0; 0; 255])).
  { split; cbn; try lia. repeat constructor; unfold is_byte; lia. }
  destruct (X9_compare_ts_padImage_centred (mkImage 1 1 [255; 0; 0; 255]) 3 1
              Hwf ltac:(cbn; lia) ltac:(cbn; lia) ltac:(cbn; lia))
    as (padded & Hp & _ & _ & _ & Hpx).
  exists padded. split; [exact Hp|]. split.
  - rewrite (Hpx 0 0) by lia. vm_compute. reflexivity.
  - rewrite (Hpx 1 0) by lia. vm_compute. reflexivity.
Defined.

(** ** More on the tasks of [compare_optimized.ts] *)

Module TaskMore.

Import Optimized.

Lemma clean_from_word (b : bool) (s : string) :
  Text.all_chars is_word_char (clean_from b s) = true.
Proof.
  revert b. induction s as [|c s IH]; intros b; [reflexivity|].
  cbn [clean_from]. destruct (is_word_char c) eqn:E.
  - cbn [Text.all_chars]. rewrite E, IH. reflexivity.
  - destruct b; [apply IH|]. cbn [Text.all_chars]. rewrite IH. reflexivity.
Qed.

Lemma clean_from_id (b : bool) (s : string) :
  Text.all_chars is_word_char s = true -> clean_from b s = s.
Proof.
  revert b. induction s as [|c s IH]; intros b; [reflexivity|].
  cbn [Text.all_chars clean_from]. intros H.
  apply andb_true_iff in H as [-> H]. rewrite IH by assumption. reflexivity.
Qed.

Lemma clean_from_length (b : bool) (s : string) :
  (String.length (clean_from b s) <= String.length s)%nat.
Proof.
  revert b. induction s as [|c s IH]; intros b; [reflexivity|].
  cbn [clean_from]. destruct (is_word_char c).
  - cbn [String.length]. specialize (IH false). lia.
  - destruct b; cbn [String.length]; specialize (IH true); lia.
Qed.

Lemma clean_from_separator (b : bool) (s1 s2 : string) (c1 c2 : ascii) :
  is_word_char c1 = false -> is_word_char c2 = false ->
  clean_from b (s1 ++ String c1 s2) = clean_from b (s1 ++ String c2 s2).
Proof.
  intros H1 H2. revert b. induction s1 as [|c s1 IH]; intros b.
  - cbn [String.append clean_from]. rewrite H1, H2. reflexivity.
  - cbn [String.append clean_from]. destruct (is_word_char c).
    + rewrite IH. reflexivity.
    + destruct b; rewrite IH; reflexivity.
Qed.

(** A string without a dot has no [.png] to replace. *)
Lemma replace_png_suffix_app (s t : string) :
  Text.all_chars (fun c => negb (Ascii.eqb c ".")) s = true ->
  replace_png_suffix (s ++ t) = (s ++ replace_png_suffix t)%string.
Proof.
  induction s as [|c s IH]; [reflexivity|].
  cbn [Text.all_chars]. intros H. apply andb_true_iff in H as [Hc H].
  cbn [String.append replace_png_suffix].
  replace (String.eqb (String c (s ++ t)) ".png") with false.
  - rewrite IH by assumption. reflexivity.
  - symmetry. cbn [String.eqb]. apply negb_true_iff in Hc. rewrite Hc. reflexivity.
Qed.

Lemma word_no_dot (s : string) :
  Text.all_chars is_word_char s = true ->
  Text.all_chars (fun c => negb (Ascii.eqb c ".")) s = true.
Proof.
  induction s as [|c s IH]; [reflexivity|].
  cbn [Text.all_chars]. intros H. apply andb_true_iff in H as [Hc H].
  rewrite IH by assumption. rewrite andb_true_r.
  apply negb_true_iff. apply Ascii.eqb_neq. intros ->. discriminate.
Qed.

Lemma diff_path (v : Pool.variant) (name : string) :
  Text.all_chars is_word_char name = true ->
  replace_png_suffix (screenshotDir ++ "/diff/" ++ name ++ diff_ext v)
  = ("screenshots/diff/" ++ name ++ "_diff.jpg")%string.
Proof.
  intros Hn.
  rewrite (replace_png_suffix_app screenshotDir) by reflexivity.
  rewrite (replace_png_suffix_app "/diff/") by reflexivity.
  rewrite (replace_png_suffix_app name) by (apply word_no_dot; assumption).
  destruct v; reflexivity.
Qed.

(** What an attempt that captured both screenshots returns. *)
Lemma attempt_result_paths (v : Pool.variant) (u : string) (a : attempt)
  (r : ComparisonResult) :
  attempt_result v u a = Ok r ->
  url r = u
  /\ devPath r = ("screenshots/" ++ dev_dir v ++ "/" ++ cleanName u ++ ".jpg")%string
  /\ prodPath r = ("screenshots/prod/" ++ cleanName u ++ ".jpg")%string
  /\ diffPath r = ("screenshots/diff/" ++ cleanName u ++ "_diff.jpg")%string.
Proof.
  unfold attempt_result. destruct a as [d p saved ms|]; [|discriminate].
  unfold compareScreenshots.
  destruct (differ_operands v d p) as [[[[d1 d2] W] H]|e]; cbn [bind]; [|discriminate].
  destruct (Differ.pixelmatch d1 d2 W H _) as [n|e]; cbn [bind]; [|discriminate].
  destruct saved; cbn [bind]; [|discriminate].
  intros E. injection E as <-. cbn [url devPath prodPath diffPath].
  split; [reflexivity|]. split; [reflexivity|]. split; [reflexivity|].
  apply diff_path. apply clean_from_word.
Qed.

End TaskMore.


(** X14. [cleanName], the file name a task derives from its URL path
    ([urlPath.replace(/\W+/g, '_')]): it holds word characters only, is
    not longer than the path, is left as it is by a second cleaning, and
    is the same for two paths that differ in one separator. *)
Theorem X14_cleanName_word_characters (u : string) :
  Text.all_chars Optimized.is_word_char (Optimized.cleanName u) = true
  /\ Optimized.cleanName (Optimized.cleanName u) = Optimized.cleanName u
  /\ (String.length (Optimized.cleanName u) <= String.length u)%nat
  /\ forall (s : string) (c1 c2 : ascii),
       Optimized.is_word_char c1 = false -> Optimized.is_word_char c2 = false ->
       Optimized.cleanName (u ++ String c1 s) = Optimized.cleanName (u ++ String c2 s).
Proof.
  unfold Optimized.cleanName. split; [apply TaskMore.clean_from_word|].
  split; [apply TaskMore.clean_from_id, TaskMore.clean_from_word|].
  split; [apply TaskMore.clean_from_length|].
  intros s c1 c2. apply TaskMore.clean_from_separator.
Qed.

(** Two paths that share their file names. *)
Lemma X14_witness :
  Optimized.cleanName "/de_DE/a/b" = "_de_DE_a_b"%string
  /\ Optimized.cleanName "/de_DE/a/b" = Optimized.cleanName "/de_DE/a-b".
Proof.
  split; [vm_compute; reflexivity|].
  exact (proj2 (proj2 (proj2 (X14_cleanName_word_characters "/de_DE/a")))
           "b"%string "/"%char "-"%char eq_refl eq_refl).
Defined.

(** X15. The paths in the result of a task of [compare_optimized.ts]: the
    URL is the task's, the three paths are built from [cleanName] of the
    URL alone, and the diff path ends in [_diff.jpg] in both variants
    (the second builds it with [.png], which [compareScreenshots] turns
    into [.jpg]). *)
Theorem X15_task_result_paths (v : Pool.variant) (u : string)
  (env : Z -> Optimized.attempt) (r : Optimized.ComparisonResult) :
  Optimized.task v u env = Some r ->
  Optimized.url r = u
  /\ Optimized.devPath r
     = ("screenshots/" ++ Optimized.dev_dir v ++ "/" ++ Optimized.cleanName u ++ ".jpg")%string
  /\ Optimized.prodPath r = ("screenshots/prod/" ++ Optimized.cleanName u ++ ".jpg")%string
  /\ Optimized.diffPath r
     = ("screenshots/diff/" ++ Optimized.cleanName u ++ "_diff.jpg")%string.
Proof.
  intros Ht. unfold Optimized.task in Ht.
  apply OptimizedFacts.retry_result in Ht as (a & _ & Ha).
  apply (TaskMore.attempt_result_paths v u (env a) r Ha).
Qed.

(** A task of the second variant whose first attempt fails. *)
Lemma X15_witness :
  let img := mkImage 1 1 [255; 0; 0; 255] in
  let env := fun a => if a =? 1 then Optimized.Failed
                      else Optimized.Captured img img true 1500 in
  exists r,
    Optimized.task Pool.Second "/de_DE/a.b" env = Some r
    /\ Optimized.devPath r = "screenshots/stage/_de_DE_a_b.jpg"%string
    /\ Optimized.diffPath r = "screenshots/diff/_de_DE_a_b_diff.jpg"%string.
Proof.
  intros img env.
  eassert (H : Optimized.task Pool.Second "/de_DE/a.b" env = Some _)
    by (vm_compute; reflexivity).
  eexists. split; [exact H|].
  destruct (X15_task_result_paths _ _ _ _ H) as (_ & Hd & _ & Hf).
  split; [exact Hd | exact Hf].
Defined.

(** ** More on [compare.ts] *)

Module CompareTsMore.

Import Compare CompareMore.

(** A result is compared only when both environments were wanted,
    reached and captured. *)
Lemma process_url_compared (u : string) (env : Environment) (vd vp : visit)
  (saved : bool) :
  let r := process_url u env vd vp saved in
  let compared :=
    match env with both => true | _ => false end
    && navigated vd && navigated vp
    && match shot vd with Some _ => true | None => false end
    && match shot vp with Some _ => true | None => false end in
  if compared
  then diffPath r = (diffDir ++ "/diff-" ++ slug u ++ ".png")%string
       /\ (isDifferent r, diffPixels r)
          = compareScreenshots (file_read vd) (file_read vp) saved
  else diffPath r = ""%string /\ isDifferent r = false /\ diffPixels r = of_Z 0.
Proof.
  unfold process_url, file_exists.
  destruct env, vd as [nd sd td], vp as [np sp tp], nd, np, sd, sp;
    cbn [wants_dev wants_prod navigated shot stamp andb negb orb String.eqb
         String.append screenshotDir Ascii.eqb Bool.eqb];
    cbn -[compareScreenshots slug diffDir String.append];
    try (repeat split; reflexivity);
    match goal with
    | |- context [compareScreenshots ?a ?b ?c] =>
        destruct (compareScreenshots a b c) as [d n]; cbn; repeat split; reflexivity
    end.
Qed.

Lemma process_url_truthy (u : string) (env : Environment) (vd vp : visit)
  (saved : bool) :
  truthy (error (process_url u env vd vp saved))
  = (wants_dev env && negb (navigated vd)) || (wants_prod env && negb (navigated vp)).
Proof.
  unfold process_url.
  destruct env, vd as [nd sd td], vp as [np sp tp], nd, np; cbn;
    repeat match goal with
    | |- context [match ?x with _ => _ end] => destruct x; cbn
    end; reflexivity.
Qed.

Lemma process_url_error_flag (u : string) (env : Environment) (vd vp : visit)
  (saved : bool) :
  truthy (error (process_url u env vd vp saved)) = true ->
  isDifferent (process_url u env vd vp saved) = false.
Proof.
  rewrite process_url_truthy. intros He.
  pose proof (process_url_compared u env vd vp saved) as Hc. cbv zeta in Hc.
  destruct env, (navigated vd), (navigated vp); cbn in He; try discriminate;
    cbn [andb] in Hc; apply Hc.
Qed.

Lemma filter_ext_length {A : Type} (f g : A -> bool) (l : list A) :
  (forall x, In x l -> f x = g x) ->
  length (List.filter f l) = length (List.filter g l).
Proof.
  induction l as [|x l IH]; [reflexivity|]. intros H.
  cbn [List.filter]. rewrite (H x) by (left; reflexivity).
  destruct (g x); cbn [length]; rewrite IH; auto; intros y Hy; apply H; right; auto.
Qed.

Lemma counts_partition (results : list ScreenshotResult) :
  (count_passed results + count_failed results + count_errors results
   = length results)%nat.
Proof.
  unfold count_passed, count_failed, count_errors.
  induction results as [|r l IH]; [reflexivity|].
  cbn [List.filter]. destruct (truthy (error r)), (isDifferent r);
    cbn [negb andb length]; lia.
Qed.

End CompareTsMore.

(** X16. [getEnvironment] of [compare.ts] never answers ['both']: a URL is
    ['dev'] when it contains [stage.] or [dev.], and ['prod'] otherwise,
    whether or not it contains [recordati-plus.de]. *)
Theorem X16_getEnvironment_never_both (u : string) :
  CompareMore.getEnvironment u <> Compare.both
  /\ CompareMore.getEnvironment u
     = if Text.includes u "stage." || Text.includes u "dev."
       then Compare.dev else Compare.prod.
Proof.
  unfold CompareMore.getEnvironment.
  destruct (Text.includes u "stage." || Text.includes u "dev.");
    destruct (Text.includes u "recordati-plus.de"); cbn; split;
    solve [discriminate | reflexivity].
Qed.

(** X17. The result [main] of [compare.ts] pushes for one URL: it carries
    an error exactly when a wanted navigation failed; the two screenshots
    are compared exactly when both environments were wanted, reached and
    captured, and then the flag and the count are the comparison's and
    the diff path is built from the URL's slug; in every other case
    nothing is compared and the result keeps [isDifferent = false],
    [diffPixels = 0] and an empty diff path. A result with an error is
    therefore never reported as different. *)
Theorem X17_compare_ts_result_of_a_url (u : string) (env : Compare.Environment)
  (vd vp : Compare.visit) (saved : bool) :
  let r := Compare.process_url u env vd vp saved in
  let compared :=
    match env with Compare.both => true | _ => false end
    && Compare.navigated vd && Compare.navigated vp
    && match Compare.shot vd with Some _ => true | None => false end
    && match Compare.shot vp with Some _ => true | None => false end in
  Compare.truthy (Compare.error r)
  = (Compare.wants_dev env && negb (Compare.navigated vd))
    || (Compare.wants_prod env && negb (Compare.navigated vp))
  /\ (if compared
      then Compare.diffPath r
           = ("test-results/diff/diff-" ++ Compare.slug u ++ ".png")%string
           /\ (Compare.isDifferent r, Compare.diffPixels r)
              = Compare.compareScreenshots (Compare.file_read vd)
                  (Compare.file_read vp) saved
      else Compare.diffPath r = ""%string /\ Compare.isDifferent r = false
           /\ Compare.diffPixels r = of_Z 0)
  /\ (Compare.status_of r = Compare.errored -> Compare.isDifferent r = false).
Proof.
  cbv zeta. split; [apply CompareTsMore.process_url_truthy|]. split.
  - exact (CompareTsMore.process_url_compared u env vd vp saved).
  - unfold Compare.status_of.
    destruct (Compare.truthy (Compare.error _)) eqn:E.
    + intros _. apply CompareTsMore.process_url_error_flag. assumption.
    + destruct (Compare.isDifferent _); discriminate.
Qed.

(** X18. The counts of the reports of [compare.ts]: the three counts of
    the HTML summary add up to the number of results; for the results
    [main] builds, the count [Different] it prints is the summary's
    [Failed], and the count [Identical] it prints is [Passed] plus
    [Errors]: a URL whose navigation failed is counted as identical. *)
Theorem X18_compare_ts_summary_counts
  (runs : list (string * Compare.Environment * Compare.visit * Compare.visit * bool)) :
  let results :=
    map (fun '(u, env, vd, vp, saved) => Compare.process_url u env vd vp saved) runs in
  (CompareMore.count_passed results + CompareMore.count_failed results
   + CompareMore.count_errors results = length runs)%nat
  /\ CompareMore.differentCount results = CompareMore.count_failed results
  /\ CompareMore.identicalCount results
     = (CompareMore.count_passed results + CompareMore.count_errors results)%nat.
Proof.
  cbv zeta.
  set (results := map _ runs).
  assert (Hp : (CompareMore.count_passed results + CompareMore.count_failed results
                + CompareMore.count_errors results = length runs)%nat).
  { rewrite CompareTsMore.counts_partition. unfold results. apply length_map. }
  assert (Hd : CompareMore.differentCount results = CompareMore.count_failed results).
  { unfold CompareMore.differentCount, CompareMore.count_failed.
    apply CompareTsMore.filter_ext_length. intros r Hr.
    unfold results in Hr. apply in_map_iff in Hr as ([[[[u env] vd] vp] saved] & <- & _).
    destruct (Compare.truthy (Compare.error _)) eqn:E; cbn [negb andb]; [|reflexivity].
    apply CompareTsMore.process_url_error_flag. assumption. }
  split; [assumption|]. split; [assumption|].
  unfold CompareMore.identicalCount. rewrite Hd.
  pose proof (CompareTsMore.counts_partition results) as Hc. lia.
Qed.

(** X20. The summary of [compare_optimized.ts]: the results are those of
    the targets that succeeded, [totalUrls] is their number, and
    [avgDuration] is [NaN] exactly when no target succeeded; with at
    least one result it is a number. *)
Theorem X20_average_is_NaN_only_without_results (v : Pool.variant)
  (targets : list Optimized.target) (es : list Pool.event) (total_ms : Z)
  (results : list Optimized.ComparisonResult) (summary : Optimized.Summary) :
  Optimized.main v targets es total_ms = Some (Optimized.Report results summary) ->
  Optimized.totalUrls summary = of_nat (length results)
  /\ (length results <= length targets)%nat
  /\ (Optimized.avgDuration summary = NaN <-> results = [])
  /\ (results <> [] -> exists q, Optimized.avgDuration summary = Fin q).
Proof.
  intros Hm. apply OptimizedFacts.main_report in Hm as [Hr ->].
  cbn [Optimized.totalUrls Optimized.avgDuration].
  split; [reflexivity|]. split; [rewrite Hr; apply OptimizedFacts.omap_length_le|].
  assert (Hfin : Forall (fun r => exists d, Optimized.duration r = Fin d) results).
  { rewrite Hr. apply Forall_forall. intros r Hin.
    apply list_elem_of_omap in Hin as (t & _ & Ht).
    unfold Optimized.run_task, Optimized.task in Ht.
    apply OptimizedFacts.retry_result in Ht as (a & _ & Ha).
    eapply OptimizedFacts.attempt_result_duration. eassumption. }
  assert (Hne : results <> [] -> exists q, Optimized.average results = Fin q).
  { intros Hn.
    destruct (OptimizedFacts.average_nonempty results Hn Hfin) as (total & _ & ->).
    eexists. reflexivity. }
  split; [|assumption]. split.
  - intros Hnan. destruct results as [|r l]; [reflexivity|].
    destruct Hne as [q Hq]; [discriminate|]. congruence.
  - intros ->. apply OptimizedFacts.average_nil.
Qed.

(** One target, captured at the first attempt after 1.5 seconds. *)
Lemma X20_witness :
  let img := mkImage 1 1 [255; 0; 0; 255] in
  let targets := [("/a"%string, fun _ : Z => Optimized.Captured img img true 1500)] in
  let es := [Pool.Dispatch; Pool.Settle 0%nat; Pool.Join; Pool.Return] in
  exists results summary,
    Optimized.main Pool.First targets es 2000 = Some (Optimized.Report results summary)
    /\ length results = 1%nat
    /\ exists q, Optimized.avgDuration summary = Fin q.
Proof.
  intros img targets es.
  eassert (H : Optimized.main Pool.First targets es 2000
               = Some (Optimized.Report _ _)) by (vm_compute; reflexivity).
  eexists _, _. split; [exact H|]. split; [reflexivity|].
  apply (proj2 (proj2 (proj2 (X20_average_is_NaN_only_without_results _ _ _ _ _ _ H)))).
  discriminate.
Defined.

(** ** The command line and the percentages *)

Module ArgsFacts.

Import Args.

Lemma substring_full (s : string) : String.substring 0 (String.length s) s = s.
Proof. induction s as [|c s IH]; [reflexivity|]. cbn. rewrite IH. reflexivity. Qed.

Lemma slice_app (p v : string) : slice (p ++ v) (String.length p) = v.
Proof.
  unfold slice. induction p as [|c p IH].
  - cbn [String.append String.length]. rewrite Nat.sub_0_r. apply substring_full.
  - cbn [String.append String.length String.substring Nat.sub]. exact IH.
Qed.

Lemma prefix_app (p v : string) : String.prefix p (p ++ v) = true.
Proof.
  induction p as [|c p IH]; [destruct v; reflexivity|].
  cbn [String.append String.prefix].
  destruct (ascii_dec c c) as [_|N]; [exact IH | contradiction].
Qed.

(** A string that starts with the prefix is the prefix and its slice. *)
Lemma prefix_slice (p a : string) :
  String.prefix p a = true -> a = (p ++ slice a (String.length p))%string.
Proof.
  revert a. induction p as [|c p IH]; intros a.
  - intros _. unfold slice. cbn [String.append String.length].
    rewrite Nat.sub_0_r, substring_full. reflexivity.
  - destruct a as [|c' a]; [discriminate|]. cbn [String.prefix].
    destruct (ascii_dec c c') as [<-|N]; [|discriminate].
    intros H. apply IH in H. cbn [String.append]. f_equal. exact H.
Qed.

Lemma find_first {A : Type} (f : A -> bool) (l1 l2 : list A) (x : A) :
  List.Forall (fun y => f y = false) l1 -> f x = true ->
  List.find f (l1 ++ x :: l2) = Some x.
Proof.
  intros H1 Hx. induction H1 as [|y l Hy _ IH]; cbn [app List.find].
  - rewrite Hx. reflexivity.
  - rewrite Hy. exact IH.
Qed.

Lemma find_none {A : Type} (f : A -> bool) (l : list A) :
  List.Forall (fun y => f y = false) l -> List.find f l = None.
Proof.
  intros H. induction H as [|y l Hy _ IH]; [reflexivity|].
  cbn [List.find]. rewrite Hy. exact IH.
Qed.

Lemma getArgValue_first (argv before after : list string) (prefix v : string) :
  prefix <> ""%string ->
  argv = before ++ (prefix ++ v)%string :: after ->
  List.Forall (fun p => String.prefix prefix p = false) before ->
  getArgValue argv prefix = Some v.
Proof.
  intros Hp -> Hb. unfold getArgValue.
  rewrite (find_first (fun p => String.prefix prefix p) before after
             (prefix ++ v)%string Hb (prefix_app prefix v)).
  destruct prefix as [|c p]; [contradiction|].
  cbn [String.append String.eqb]. change (String c (p ++ v)) with (String c p ++ v)%string.
  rewrite slice_app. reflexivity.
Qed.

Lemma getArgValue_none (argv : list string) (prefix : string) :
  List.Forall (fun p => String.prefix prefix p = false) argv ->
  getArgValue argv prefix = None.
Proof. intros H. unfold getArgValue.
  rewrite (find_none (fun p => String.prefix prefix p) argv H). reflexivity. Qed.

Lemma getArgValue_Some (argv : list string) (prefix v : string) :
  getArgValue argv prefix = Some v -> In (prefix ++ v)%string argv.
Proof.
  unfold getArgValue.
  destruct (List.find _ argv) as [a|] eqn:E; [|discriminate].
  apply List.find_some in E as [Hin Hp].
  destruct (String.eqb a ""); [discriminate|].
  intros H. injection H as <-. rewrite <- (prefix_slice prefix a Hp). exact Hin.
Qed.

End ArgsFacts.

(** X19. The report path of the second variant of [compare_optimized.ts]:
    the value of the first [--report=] argument wins, even when it is
    empty; without such an argument the first [--group=] argument names
    the report when its value is not empty; in every other case the path
    is the default. A value [getArgValue] returns is what follows the
    prefix in an argument of the command line. *)
Theorem X19_report_path_from_arguments (argv : list string) (timestamp : string) :
  (forall before after v,
     argv = before ++ ("--report=" ++ v)%string :: after ->
     List.Forall (fun p => String.prefix "--report=" p = false) before ->
     Args.reportPath argv timestamp = v)
  /\ (forall before after g,
        List.Forall (fun p => String.prefix "--report=" p = false) argv ->
        argv = before ++ ("--group=" ++ g)%string :: after ->
        List.Forall (fun p => String.prefix "--group=" p = false) before ->
        Args.reportPath argv timestamp
        = if String.eqb g "" then "test-results/result-2.pdf"%string
          else ("test-results/" ++ g ++ "-" ++ timestamp ++ ".pdf")%string)
  /\ (List.Forall (fun p => String.prefix "--report=" p = false) argv ->
      List.Forall (fun p => String.prefix "--group=" p = false) argv ->
      Args.reportPath argv timestamp = "test-results/result-2.pdf"%string)
  /\ (forall prefix v,
        Args.getArgValue argv prefix = Some v -> In (prefix ++ v)%string argv).
Proof.
  unfold Args.reportPath, Args.computedReportPath, Args.reportArg, Args.groupArg.
  split; [|split; [|split]].
  - intros before after v Hargv Hb.
    rewrite (ArgsFacts.getArgValue_first argv before after "--report=" v);
      [reflexivity | discriminate | assumption | assumption].
  - intros before after g Hnr Hargv Hb.
    rewrite (ArgsFacts.getArgValue_none argv "--report=" Hnr).
    rewrite (ArgsFacts.getArgValue_first argv before after "--group=" g);
      [|discriminate | assumption | assumption].
    destruct (String.eqb g ""); reflexivity.
  - intros Hnr Hng.
    rewrite (ArgsFacts.getArgValue_none argv "--report=" Hnr).
    rewrite (ArgsFacts.getArgValue_none argv "--group=" Hng). reflexivity.
  - intros prefix v. apply ArgsFacts.getArgValue_Some.
Qed.

(** An empty [--report=] after a [--group=]: the report path is empty. *)
Lemma X19_witness :
  Args.reportPath ["--group=smoke"; "--report="; "--report=a.pdf"]%string "T" = ""%string
  /\ Args.reportPath ["--headed"; "--group=smoke"]%string "T"
     = "test-results/smoke-T.pdf"%string.
Proof.
  split.
  - apply (proj1 (X19_report_path_from_arguments _ "T")
             ["--group=smoke"%string] ["--report=a.pdf"%string] ""%string).
    + reflexivity.
    + repeat constructor.
  - apply (proj1 (proj2 (X19_report_path_from_arguments _ "T"))
             ["--headed"%string] [] "smoke"%string).
    + repeat constructor.
    + reflexivity.
    + repeat constructor.
Defined.

(** X21. The percentage in the summary of the PDF report of
    [compare-screenshots.ts], [differentCount / results.length * 100]: it
    is [NaN] exactly when there is no result (no file is in both
    directories), and a number between 0 and 100 otherwise. *)
Theorem X21_screenshots_percentage (results : list CompareScreenshots.CompareResult) :
  (ScreenshotsReport.percentage results = NaN <-> results = [])
  /\ (results <> [] ->
      exists q, ScreenshotsReport.percentage results = Fin q
                /\ (0 <= q)%Q /\ (q <= 100)%Q).
Proof.
  assert (Hle : (ScreenshotsReport.differentCount results <= length results)%nat).
  { unfold ScreenshotsReport.differentCount.
    induction results as [|r l IH]; [reflexivity|].
    cbn [List.filter]. destruct (CompareScreenshots.isDifferent r); cbn [length]; lia. }
  assert (Hne : results <> [] ->
            exists q, ScreenshotsReport.percentage results = Fin q
                      /\ (0 <= q)%Q /\ (q <= 100)%Q).
  { intros Hn. unfold ScreenshotsReport.percentage.
    set (d := ScreenshotsReport.differentCount results) in *.
    destruct results as [|r l]; [contradiction|].
    set (n := length (r :: l)) in *.
    assert (Hn0 : (0 < n)%nat) by (subst n; cbn; lia).
    unfold of_nat, of_Z, div.
    replace (Qis_zero (inject_Z (Z.of_nat n))) with false
      by (symmetry; unfold Qis_zero; cbn [Qnum inject_Z]; apply Z.eqb_neq; lia).
    cbn [ScreenshotsReport.mul]. eexists. split; [reflexivity|].
    assert (Hy : (0 < inject_Z (Z.of_nat n))%Q)
      by (rewrite <- (Zlt_Qlt 0); lia).
    assert (Hx : (0 <= inject_Z (Z.of_nat d))%Q)
      by (rewrite <- (Zle_Qle 0); lia).
    assert (Hxy : (inject_Z (Z.of_nat d) <= inject_Z (Z.of_nat n))%Q)
      by (rewrite <- Zle_Qle; lia).
    split.
    - apply Qmult_le_0_compat; [|discriminate].
      apply Qle_shift_div_l; [assumption|]. rewrite Qmult_0_l. assumption.
    - apply Qle_trans with (1 * inject_Z 100)%Q; [|discriminate].
      apply Qmult_le_compat_r; [|discriminate].
      apply Qle_shift_div_r; [assumption|]. rewrite Qmult_1_l. assumption. }
  split; [|assumption]. split.
  - intros Hnan. destruct results as [|r l]; [reflexivity|].
    destruct Hne as (q & Hq & _); [discriminate|]. congruence.
  - intros ->. reflexivity.
Qed.

(** Three pairs, one of them different. *)
Lemma X21_witness :
  let r := fun d => CompareScreenshots.mkCompareResult "a" "d" "p" "x" d (of_nat 0) in
  exists q, ScreenshotsReport.percentage [r false; r true; r false] = Fin q
            /\ (0 <= q)%Q /\ (q <= 100)%Q.
Proof.
  intros r.
  apply (proj2 (X21_screenshots_percentage [r false; r true; r false])).
  discriminate.
Defined.

(** ** The slug of [compare.ts] *)

Module SlugFacts.

Import Compare.

Lemma slug_char_range (c : ascii) : CompareMore.is_slug_char (slug_char c) = true.
Proof. destruct c as [[] [] [] [] [] [] [] []]; reflexivity. Qed.

Lemma slug_char_idem (c : ascii) : slug_char (slug_char c) = slug_char c.
Proof. destruct c as [[] [] [] [] [] [] [] []]; reflexivity. Qed.

End SlugFacts.

(** X22. The slug that names the diff image of a URL in [compare.ts]
    ([url.replace(/[^a-z0-9]/gi, '_').toLowerCase()]): it has the length
    of the URL, holds only lower-case letters, digits and underscores,
    and is left as it is by a second application. *)
Theorem X22_compare_ts_slug (u : string) :
  String.length (Compare.slug u) = String.length u
  /\ Text.all_chars CompareMore.is_slug_char (Compare.slug u) = true
  /\ Compare.slug (Compare.slug u) = Compare.slug u.
Proof.
  induction u as [|c u (IH1 & IH2 & IH3)]; [repeat split|].
  cbn [Compare.slug String.length Text.all_chars].
  split; [rewrite IH1; reflexivity|]. split.
  - rewrite IH2, andb_true_r. apply SlugFacts.slug_char_range.
  - rewrite IH3, SlugFacts.slug_char_idem. reflexivity.
Qed.

(** ** The claim on padding *)

Module PaddingFacts.

Import BufferFacts PadFacts BlitFacts Placement.



End PaddingFacts.



(** ** A task whose promise is rejected *)

(** X23. What the retry loop of a task of [compare_optimized.ts] does not
    catch: the promise of a task is rejected exactly when, the earlier
    attempts having failed with their tabs opened and closed,
    [browser.newPage] throws for an attempt, or the attempt fails and the
    [tab.close] of [catch] throws. No run with such a task reaches the
    report: a run of [main] that ends, ends at [process.exit(1)]. *)
Theorem X23_rejected_task_ends_the_run (v : Pool.variant)
  (targets : list Tabs.target) (i : nat) (u : string)
  (env : Z -> Optimized.attempt) (tabs : Z -> Tabs.tab) :
  targets !! i = Some ((u, env), tabs) ->
  (Tabs.task v u env tabs = Pool.Rejects <->
   exists a, 1 <= a <= 3
     /\ (forall a', 1 <= a' < a ->
           Tabs.opens (tabs a') = true
           /\ is_ok (Optimized.attempt_result v u (env a')) = false
           /\ Tabs.closes (tabs a') = true)
     /\ (Tabs.opens (tabs a) = false
         \/ (is_ok (Optimized.attempt_result v u (env a)) = false
             /\ Tabs.closes (tabs a) = false)))
  /\ (Tabs.task v u env tabs = Pool.Rejects ->
      forall es total_ms o,
        Tabs.main v targets es total_ms = Some o -> o = Optimized.ProcessFailed).
Proof.
  intros Hi. split; [apply TabsFacts.task_rejects|].
  intros Hrej es total_ms o. unfold Tabs.main, Pool.runWithConcurrencyLimit.
  assert (Hlen : (length targets =? 0)%nat = false).
  { apply Nat.eqb_neq. intros E. apply length_zero_iff_nil in E.
    subst targets. discriminate Hi. }
  rewrite Hlen.
  destruct (Pool.exec _ _ _ _ _) as [s|] eqn:Hex; [|discriminate].
  destruct (Pool.at_ s) as [| | |out|] eqn:Hat; try discriminate.
  - exfalso.
    apply (TabsFacts.rejected_never_returns v (Tabs.tasks v targets)
             Optimized.concurrency i es s out); [|assumption|assumption].
    rewrite (TabsFacts.tasks_lookup v targets i _ Hi).
    unfold Tabs.run_task. cbn [fst snd]. rewrite Hrej. reflexivity.
  - intros H. injection H as <-. reflexivity.
Qed.

(** Two targets; the browser cannot open the tab of the second attempt
    of the first. *)
Lemma X23_witness :
  let red := mkImage 1 1 [255; 0; 0; 255] in
  let targets : list Tabs.target :=
    [("/a"%string, fun _ : Z => Optimized.Failed,
      fun a : Z => Tabs.mkTab (negb (a =? 2)) true);
     ("/b"%string, fun _ : Z => Optimized.Captured red red true 1200,
      fun _ : Z => Tabs.mkTab true true)] in
  Tabs.run_task Pool.First
    ("/a"%string, fun _ : Z => Optimized.Failed,
     fun a : Z => Tabs.mkTab (negb (a =? 2)) true) = Pool.Rejects
  /\ Tabs.main Pool.First targets
       [Pool.Dispatch; Pool.Dispatch; Pool.Settle 1%nat; Pool.Settle 0%nat;
        Pool.Join] 2400 = Some Optimized.ProcessFailed.
Proof.
  intros red targets.
  assert (Hr : Tabs.task Pool.First "/a" (fun _ : Z => Optimized.Failed)
                 (fun a : Z => Tabs.mkTab (negb (a =? 2)) true) = Pool.Rejects)
    by (vm_compute; reflexivity).
  split; [exact Hr|].
  destruct (Tabs.main Pool.First targets
              [Pool.Dispatch; Pool.Dispatch; Pool.Settle 1%nat; Pool.Settle 0%nat;
               Pool.Join] 2400) as [o|] eqn:Hm.
  - f_equal.
    exact (proj2 (X23_rejected_task_ends_the_run Pool.First targets 0 "/a"
                    (fun _ : Z => Optimized.Failed)
                    (fun a : Z => Tabs.mkTab (negb (a =? 2)) true) eq_refl)
             Hr _ _ _ Hm).
  - vm_compute in Hm. discriminate Hm.
Defined.
